(** * insight-chronicles: the static-site generator [generate_seo.py]

    A shallow embedding of the publisher, the page renderers and the SEO
    generators of [generate_seo.py], and the properties its specification
    states about them.

    Conventions of the embedding.
    - A Python [str] is a list of bytes, the UTF-8 encoding of its code
      points.  Equality, concatenation, substring search and the
      lexicographic order of code points are the same on both sides.
    - A JSON object (an article of the store, a draft) is a record with one
      optional field per key: [None] is an absent key.  [a.get(k, v)] is
      [get (k a) v]; the subscript [a[k]] raises [KeyError] on an absent key
      and is the field itself in the error monad [option].
    - A function that may raise returns [option]; [None] is the exception
      leaving the function.
    - Files are a map from paths to contents, the bytes on disk; a file is
      read and written in text mode, as the source opens it, on a platform
      whose line separator is the newline.  A function that writes files
      also returns the list of its writes, oldest first. *)

From Stdlib Require Import List Ascii String Arith Lia Bool NArith.
From Stdlib Require Import Sorting.Sorted Sorting.Permutation.
Import ListNotations.

Set Implicit Arguments.

(* ================================================================= *)
(** ** Python strings *)

Definition str := list ascii.

(** A string literal of the source. *)
Definition lit (s : string) : str := list_ascii_of_string s.

(** The double quote and the newline, [chr(34)] and [chr(10)]. *)
Definition dq : str := [ascii_of_nat 34].
Definition nl : str := [ascii_of_nat 10].

(** The carriage return and the line feed as characters, [chr(13)] and
    [chr(10)]. *)
Definition CR : ascii := ascii_of_nat 13.
Definition LF : ascii := ascii_of_nat 10.

Definition str_eqb (a b : str) : bool :=
  if list_eq_dec ascii_dec a b then true else false.

(** [s.startswith(pat)] *)
Fixpoint startswith (s pat : str) : bool :=
  match pat, s with
  | [], _ => true
  | _ :: _, [] => false
  | p :: pat', c :: s' => Ascii.eqb p c && startswith s' pat'
  end.

(** [pat in s]: [pat] occurs in [s] as a substring. *)
Fixpoint contains (pat s : str) : bool :=
  match s with
  | [] => startswith [] pat
  | _ :: s' => startswith s pat || contains pat s'
  end.

(** [s.replace(old, new)] for a non-empty [old]: the occurrences of [old]
    are found from left to right, each search resuming after the previous
    occurrence; [skip] counts the characters of the current occurrence that
    are still to be dropped. *)
Fixpoint replace_from (old new : str) (skip : nat) (s : str) : str :=
  match s with
  | [] => []
  | c :: s' =>
      match skip with
      | S k => replace_from old new k s'
      | O =>
          if startswith s old
          then new ++ replace_from old new (List.length old - 1) s'
          else c :: replace_from old new 0 s'
      end
  end.

(** [s.replace(old, new)]; an empty [old] matches before every character
    and at the end. *)
Definition replace (old new s : str) : str :=
  match old with
  | [] => new ++ flat_map (fun c => c :: new) s
  | _ :: _ => replace_from old new 0 s
  end.

(** [sep.join(items)] *)
Fixpoint join (sep : str) (items : list str) : str :=
  match items with
  | [] => []
  | [x] => x
  | x :: rest => x ++ sep ++ join sep rest
  end.

(** [xml.sax.saxutils.escape(data)]: the ampersand first, then the two
    angle brackets. *)
Definition escape (data : str) : str :=
  replace (lit "<") (lit "&lt;")
    (replace (lit ">") (lit "&gt;")
       (replace (lit "&") (lit "&amp;") data)).

(** [a < b] on strings: lexicographic on the characters' codes, a proper
    prefix first. *)
Fixpoint str_ltb (a b : str) : bool :=
  match a, b with
  | _, [] => false
  | [], _ :: _ => true
  | x :: a', y :: b' =>
      if Ascii.ltb x y then true
      else if Ascii.ltb y x then false
      else str_ltb a' b'
  end.

(** [x or y] on strings: the empty string is falsy. *)
Definition str_or (x y : str) : str :=
  match x with
  | [] => y
  | _ :: _ => x
  end.

(** The number of positions of [s] at which [pat] starts. *)
Fixpoint occurrences (pat s : str) : nat :=
  match s with
  | [] => 0
  | _ :: s' => (if startswith s pat then 1 else 0) + occurrences pat s'
  end.

(* ================================================================= *)
(** ** Python values: optional keys, exceptions, sorting *)

(** [o.get(k, default)] on the field [o] of key [k]. *)
Definition get {A : Type} (o : option A) (default : A) : A :=
  match o with
  | Some v => v
  | None => default
  end.

Definition bind {A B : Type} (m : option A) (k : A -> option B) : option B :=
  match m with
  | Some a => k a
  | None => None
  end.

Notation "x <- m ;; k" := (bind m (fun x => k))
  (at level 61, m at next level, right associativity).

(** A comprehension or a loop whose body may raise: the first exception
    ends it. *)
Fixpoint traverse {A B : Type} (f : A -> option B) (l : list A)
  : option (list B) :=
  match l with
  | [] => Some []
  | x :: l' => y <- f x ;; ys <- traverse f l' ;; Some (y :: ys)
  end.

Section Sorted.
Variable A : Type.
Variable key : A -> str.

(** [x] enters a list sorted by descending key: after the elements of a
    greater key, before those of an equal or smaller one. *)
Fixpoint insert_desc (x : A) (l : list A) : list A :=
  match l with
  | [] => [x]
  | y :: l' =>
      if str_ltb (key x) (key y) then y :: insert_desc x l' else x :: l
  end.

(** [sorted(l, key=key, reverse=True)]: descending by key, and stable
    (elements of equal keys keep the order they have in [l]). *)
Definition sorted_desc (l : list A) : list A :=
  fold_right insert_desc [] l.

(** [x] may stand before [y] in a list sorted by descending key: the key
    of [x] is not below the key of [y]. *)
Definition desc (x y : A) : Prop := str_ltb (key x) (key y) = false.
End Sorted.

(* ================================================================= *)
(** ** Site constants and the data model *)

Definition SITE_URL : str := lit "https://insight-chronicles.com".
Definition SITE_NAME : str := lit "Insight Chronicles".
Definition SITE_DESC : str :=
  lit "Independent long-form analysis on history, geopolitics, and technology.".

Definition TEMPLATE_FILE : str := lit "article_template.html".
Definition INDEX_FILE : str := lit "index.html".

Definition AUTO_START : str := lit "<!-- AUTO-LATEST-ARTICLES:START -->".
Definition AUTO_END : str := lit "<!-- AUTO-LATEST-ARTICLES:END -->".

(** An entry of [CATEGORIES]: the key and the [file], [title] and [desc] of
    its value. *)
Record category := {
  cat_key : str;
  cat_file : str;
  cat_title : str;
  cat_desc : str
}.

(** [CATEGORIES], in the order of the dictionary. *)
Definition CATEGORIES : list category :=
  [ {| cat_key := lit "History"; cat_file := lit "history.html";
       cat_title := lit "History & Civilisations";
       cat_desc := lit "Long-form essays exploring empires, trade networks, institutions and the foundations of power." |};
    {| cat_key := lit "Geopolitics"; cat_file := lit "geopolitics.html";
       cat_title := lit "Geopolitics & Strategy";
       cat_desc := lit "Analysis of power, alliances, industrial policy, and the evolving world order." |};
    {| cat_key := lit "Technology"; cat_file := lit "technology.html";
       cat_title := lit "Technology & AI";
       cat_desc := lit "Deep dives into technology, AI, manufacturing capability, and the systems behind modern power." |};
    {| cat_key := lit "Governance"; cat_file := lit "governance.html";
       cat_title := lit "Governance & Institutions";
       cat_desc := lit "Articles exploring reforms, public infrastructure, institutional design, and systems that scale." |} ].

(** An article record of [articles.json]. *)
Record article := {
  a_title : option str;
  a_slug : option str;
  a_url : option str;
  a_desc : option str;
  a_date : option str;
  a_thumb : option str;
  a_thumb_og : option str;
  a_tags : option (list str);
  a_content_html : option str
}.

(** A draft of the drafts directory. *)
Record draft := {
  d_title : option str;
  d_desc : option str;
  d_slug : option str;
  d_date : option str;
  d_thumb : option str;
  d_thumb_og : option str;
  d_tags : option (list str);
  d_content : option str
}.

(** The sort key of every listing: [lambda x: x.get("date", "")]. *)
Definition date_key (a : article) : str := get (a_date a) [].

(** [sorted(articles, key=lambda x: x.get("date", ""), reverse=True)] *)
Definition sorted_by_date (articles : list article) : list article :=
  sorted_desc date_key articles.

(** What a file holds: the UTF-8 encoding of a string, or bytes that are
    not UTF-8. *)
Inductive content :=
| encoded (s : str)
| undecodable.

(** The file system: the content of each path that exists, and the paths
    that [open(path, "w")] opens.  The call raises on the empty path, on a
    path with a NUL and on a path in a directory that does not exist.
    Which paths open does not change during a run: the program makes no
    directory, and every file it makes is in a directory that was there. *)
Record files := {
  file :> str -> option content;
  can_open : str -> bool
}.

(** The newline translation of a file read in text mode (the default
    [newline=None]): [\r\n] and a lone [\r] become [\n].  [after_cr] tells
    that the character before was a [\r], for which the [\n] is out
    already. *)
Fixpoint newlines (after_cr : bool) (s : str) : str :=
  match s with
  | [] => []
  | c :: rest =>
      if Ascii.eqb c CR then LF :: newlines true rest
      else if Ascii.eqb c LF
           then (if after_cr then newlines false rest
                 else LF :: newlines false rest)
           else c :: newlines false rest
  end.

Definition universal_newlines (s : str) : str := newlines false s.

(** [f.read()] on a file opened with [open(path, "r", encoding="utf-8")]:
    the decoded text with its newlines translated; bytes that are not
    UTF-8 raise [UnicodeDecodeError]. *)
Definition read_text (c : content) : option str :=
  match c with
  | encoded s => Some (universal_newlines s)
  | undecodable => None
  end.

(** [f.write(content)] on a file opened with
    [open(path, "w", encoding="utf-8")]: the file holds the encoding of the
    string, no newline is translated. *)
Definition write_file (path content : str) (fs : files) : files :=
  {| file := fun p => if str_eqb p path then Some (encoded content) else fs p;
     can_open := can_open fs |}.

(** The file system after a list of writes, oldest first. *)
Definition apply_writes (writes : list (str * str)) (fs : files) : files :=
  fold_left (fun fs' w => write_file (fst w) (snd w) fs') writes fs.

(* ================================================================= *)
(** ** The publisher *)

(** The [replacements] dictionary of [build_article_html], in the order of
    its keys; a required key that the draft lacks raises. *)
Definition replacements (d : draft) : option (list (str * str)) :=
  title <- d_title d ;;
  desc <- d_desc d ;;
  slug <- d_slug d ;;
  date <- d_date d ;;
  thumb <- d_thumb d ;;
  content <- d_content d ;;
  Some [ (lit "{{TITLE}}", title);
         (lit "{{DESCRIPTION}}", desc);
         (lit "{{SLUG}}", slug);
         (lit "{{DATE}}", date);
         (lit "{{THUMB}}", thumb);
         (lit "{{THUMB_OG}}", get (d_thumb_og d) thumb);
         (lit "{{TAGLINE}}",
           str_or (join (lit ", ") (get (d_tags d) [])) (lit "Insight Chronicles"));
         (lit "{{CONTENT}}", content) ].

(** The loop of [build_article_html]: one [replace] per key, each on the
    document the previous one left. *)
Definition substitute (reps : list (str * str)) (template : str) : str :=
  fold_left (fun html kv => replace (fst kv) (snd kv) html) reps template.

Definition build_article_html (template : str) (d : draft) : option str :=
  reps <- replacements d ;;
  Some (substitute reps template).

(** The record [publish_drafts] appends for a draft. *)
Definition article_of_draft (d : draft) : option article :=
  title <- d_title d ;;
  slug <- d_slug d ;;
  desc <- d_desc d ;;
  date <- d_date d ;;
  thumb <- d_thumb d ;;
  Some {| a_title := Some title;
          a_slug := Some slug;
          a_url := Some (SITE_URL ++ lit "/" ++ slug);
          a_desc := Some desc;
          a_date := Some date;
          a_thumb := Some thumb;
          a_thumb_og := Some (get (d_thumb_og d) thumb);
          a_tags := Some (get (d_tags d) []);
          a_content_html := Some (get (d_content d) []) |}.

(** The state of a run of [publish_drafts]: the list [articles], which the
    function extends in place, the files written so far, oldest first, and
    the counter [published]. *)
Record pub_state := {
  st_articles : list article;
  st_writes : list (str * str);
  st_published : nat
}.

(** [existing_slugs = {a.get("slug") for a in articles}], taken once before
    the loop; the [None] of an article without a slug is a member. *)
Definition existing_slugs (articles : list article) : list (option str) :=
  map a_slug articles.

Definition slug_in (slug : str) (slugs : list (option str)) : bool :=
  existsb (fun o => match o with
                    | Some s => str_eqb slug s
                    | None => false
                    end) slugs.

(** One turn of the loop of [publish_drafts], on the draft [d]: the slug,
    the skip, the document, its file and the record.  [opens] tells the
    paths that [open(slug, "w")] opens; on another slug the call raises,
    after the document is built and before anything is written or
    appended.  The record subscripts no key that the document has not
    subscripted before it. *)
Definition publish_step (opens : str -> bool) (template : str)
    (existing : list (option str)) (d : draft) (st : pub_state)
  : option pub_state :=
  slug <- d_slug d ;;
  if slug_in slug existing then Some st
  else
    html <- build_article_html template d ;;
    if opens slug then
      record <- article_of_draft d ;;
      Some {| st_articles := st_articles st ++ [record];
              st_writes := st_writes st ++ [(slug, html)];
              st_published := S (st_published st) |}
    else None.

(** The loop of [publish_drafts].  An exception leaves the loop with the
    state reached so far: the files are written and [articles] is extended
    for the drafts before the failing one. *)
Fixpoint publish_loop (opens : str -> bool) (template : str)
    (existing : list (option str)) (drafts : list draft) (st : pub_state)
  : bool * pub_state :=
  match drafts with
  | [] => (true, st)
  | d :: rest =>
      match publish_step opens template existing d st with
      | Some st' => publish_loop opens template existing rest st'
      | None => (false, st)
      end
  end.

(** [load_template()]: the text of the template file, read in text mode;
    raises when the file does not exist or is not UTF-8. *)
Definition load_template (fs : files) : option str :=
  c <- fs TEMPLATE_FILE ;; read_text c.

(** [publish_drafts(articles)].  [drafts] is the result of [read_drafts()],
    the parsed drafts in the order of the directory listing.  The result is
    [(ok, st)]: [ok] tells whether the function returned ([st_published st]
    is then its value) or raised. *)
Definition publish_drafts (fs : files) (drafts : list draft)
    (articles : list article) : bool * pub_state :=
  let st0 := {| st_articles := articles; st_writes := []; st_published := 0 |} in
  match load_template fs with
  | None => (false, st0)
  | Some template =>
      publish_loop (can_open fs) template (existing_slugs articles) drafts st0
  end.

(* ================================================================= *)
(** ** Markup literals *)

(** A literal of the source that contains double quotes, written with a
    backquote for each double quote (the source has no backquote in the
    literals modelled here). *)
Definition qlit (s : string) : str :=
  map (fun c => if Ascii.eqb c "`" then ascii_of_nat 34 else c) (lit s).

(* ================================================================= *)
(** ** The sitemap *)

(** The three fixed entries of [urls]. *)
Definition sitemap_fixed : list str :=
  [ lit "  <url><loc>" ++ SITE_URL ++ lit "/</loc><priority>1.0</priority></url>";
    lit "  <url><loc>" ++ SITE_URL ++ lit "/articles.html</loc><priority>0.9</priority></url>";
    lit "  <url><loc>" ++ SITE_URL ++ lit "/search.html</loc><priority>0.7</priority></url>" ].

(** The entry of a category page. *)
Definition sitemap_category (cat : category) : str :=
  lit "  <url><loc>" ++ SITE_URL ++ lit "/" ++ cat_file cat
    ++ lit "</loc><priority>0.7</priority></url>".

(** The entry of an article; [a["url"]] raises on an article without url. *)
Definition sitemap_article (a : article) : option str :=
  url <- a_url a ;;
  Some (lit "  <url><loc>" ++ escape url ++ lit "</loc><priority>0.8</priority></url>").

(** The list [urls] of [make_sitemap]. *)
Definition sitemap_urls (articles : list article) : option (list str) :=
  entries <- traverse sitemap_article (sorted_by_date articles) ;;
  Some (sitemap_fixed ++ map sitemap_category CATEGORIES ++ entries).

Definition make_sitemap (articles : list article) : option str :=
  urls <- sitemap_urls articles ;;
  Some (qlit "<?xml version=`1.0` encoding=`UTF-8`?>
<urlset xmlns=`http://www.sitemaps.org/schemas/sitemap/0.9`>
" ++ join nl urls ++ lit "
</urlset>
").

(* ================================================================= *)
(** ** The RSS feed *)

Section Rss.
(** The library calls of [make_rss]: the values of [datetime], the call
    [datetime.strptime(s, "%Y-%m-%d")], which raises on a string that is
    not a date of that format, and the call
    [d.strftime("%a, %d %b %Y 00:00:00 +0000")].  [now] is the formatted
    time of the call of [make_rss]. *)
Variable datetime : Type.
Variable strptime : str -> option datetime.
Variable strftime : datetime -> option str.
Variable now : str.

(** The [try] block of the loop: any exception in it selects [now]. *)
Definition pub_date_rss (pub_date : str) : str :=
  match d <- strptime pub_date ;; strftime d with
  | Some formatted => formatted
  | None => now
  end.

(** The item of an article before its date and after it: the two parts of
    the literal around [{pub_date_rss}]. *)
Definition rss_item_open (title link desc : str) : str :=
  lit "
    <item>
      <title>" ++
  title ++
  lit "</title>
      <link>" ++
  link ++
  lit "</link>
      <guid>" ++
  link ++
  lit "</guid>
      <description>" ++
  desc ++
  lit "</description>
      <pubDate>".

Definition RSS_ITEM_CLOSE : str :=
  lit "</pubDate>
    </item>
".

(** The item of an article. *)
Definition rss_item (a : article) : option str :=
  title <- option_map escape (a_title a) ;;
  link <- option_map escape (a_url a) ;;
  let desc := escape (get (a_desc a) (lit "New article on Insight Chronicles.")) in
  let pub_date := get (a_date a) [] in
  let pub_date_rss := pub_date_rss pub_date in
  Some (rss_item_open title link desc ++ pub_date_rss ++ RSS_ITEM_CLOSE).

(** The feed before the items and after them: the two parts of the literal
    around [{''.join(items)}]. *)
Definition rss_head : str :=
  qlit "<?xml version=`1.0` encoding=`UTF-8`?>
<rss version=`2.0`>
  <channel>
    <title>" ++
  SITE_NAME ++
  lit "</title>
    <link>" ++
  SITE_URL ++
  lit "/</link>
    <description>" ++
  SITE_DESC ++
  lit "</description>
    <language>en</language>
    <lastBuildDate>" ++
  now ++
  lit "</lastBuildDate>
".

Definition RSS_TAIL : str :=
  lit "
  </channel>
</rss>
".

Definition make_rss (articles : list article) : option str :=
  items <- traverse rss_item (sorted_by_date articles) ;;
  Some (rss_head ++ List.concat items ++ RSS_TAIL).
End Rss.

(* ================================================================= *)
(** ** The homepage cards and the homepage update *)

(** The tag spans of a homepage card: [tags[:3]]. *)
Definition tag_span (t : str) : str :=
  qlit "<span class=`ic-tag`>" ++ escape t ++ lit "</span>".

Definition homepage_tag_spans (tags : list str) : str :=
  List.concat (map tag_span (firstn 3 tags)).

(** The block of an article before its tag spans and after them: the two
    parts of the literal of [make_homepage_cards] around [{tag_spans}]. *)
Definition homepage_card_open (slug thumb title : str) : str :=
    qlit "
        <article class=`ic-article-card`>
          <a href=`" ++
    slug ++
    qlit "` class=`ic-article-thumb-link`>
            <img src=`" ++
    thumb ++ qlit "` alt=`" ++ title ++
    qlit "` class=`ic-article-thumb` />
          </a>
          <div>
            <div class=`ic-article-tags`>".

Definition homepage_card_close (slug title date desc : str) : str :=
    qlit "</div>
            <h3 class=`ic-article-title`><a href=`" ++
    slug ++ qlit "`>" ++ title ++
    qlit "</a></h3>
            <p class=`ic-article-meta`>" ++
    date ++
    qlit "</p>
            <p class=`ic-article-excerpt`>" ++
    desc ++
    qlit "</p>
            <a href=`" ++
    slug ++
    qlit "` class=`ic-article-read`>Read article →</a>
          </div>
        </article>
        ".

(** The block of an article in [make_homepage_cards]. *)
Definition homepage_card (a : article) : option str :=
  title <- option_map escape (a_title a) ;;
  slug <- option_map escape (a_slug a) ;;
  let desc := escape (get (a_desc a) []) in
  let date := escape (get (a_date a) []) in
  let thumb := escape (get (a_thumb a) (lit "images/upi.webp")) in
  let tags := get (a_tags a) [] in
  let tag_spans := homepage_tag_spans tags in
  Some (homepage_card_open slug thumb title
          ++ tag_spans
          ++ homepage_card_close slug title date desc).

(** [make_homepage_cards(articles, limit)] *)
Definition make_homepage_cards (articles : list article) (limit : nat)
  : option str :=
  let sorted_articles := firstn limit (sorted_by_date articles) in
  blocks <- traverse homepage_card sorted_articles ;;
  Some (join nl blocks).

(** The first occurrence of [pat] in [s]: the text before it and the text
    after it. *)
Fixpoint split_first (pat s : str) : option (str * str) :=
  if startswith s pat then Some ([], skipn (List.length pat) s)
  else
    match s with
    | [] => None
    | c :: s' =>
        match split_first pat s' with
        | Some (before, after) => Some (c :: before, after)
        | None => None
        end
    end.

Section MarkerRegion.
(** [replacement] gives the text that replaces a match from the text of
    its group.  A match of the pattern [re.escape(AUTO_START) + "(.*?)" +
    re.escape(AUTO_END)] under [re.DOTALL] starts at the first
    [AUTO_START] that some [AUTO_END] follows and ends with the first
    [AUTO_END] after it; the search resumes after the match.  [fuel]
    bounds the number of matches. *)
Variable replacement : str -> str.

Fixpoint sub_markers (fuel : nat) (s : str) : str :=
  match fuel with
  | O => s
  | S fuel' =>
      match split_first AUTO_START s with
      | None => s
      | Some (before, rest) =>
          match split_first AUTO_END rest with
          | None => s
          | Some (region, after) =>
              before ++ replacement region ++ sub_markers fuel' after
          end
      end
  end.
End MarkerRegion.

Section Homepage.
(** The replacement template of [re]: [expand_template repl] is the
    compiled template of the string [repl], a function from the text of
    group 1 to the replacement text.  The library processes the backslash
    escapes and the group references of [repl] before it searches, and
    raises [re.error] on a malformed one. *)
Variable expand_template : str -> option (str -> str).

(** [pattern.sub(repl, html)] for the pattern of [update_index_html]. *)
Definition pattern_sub (repl html : str) : option str :=
  replacement <- expand_template repl ;;
  Some (sub_markers replacement (List.length html) html).

(** [update_index_html(articles)]: the writes of the call, or [None] when
    it raises.  The homepage is read in text mode: [html] is the decoded
    text with its newlines translated, and a homepage that is not UTF-8
    raises before the markers are looked for. *)
Definition update_index_html (fs : files) (articles : list article)
  : option (list (str * str)) :=
  match fs INDEX_FILE with
  | None => Some []
  | Some c =>
      html <- read_text c ;;
      if negb (contains AUTO_START html) || negb (contains AUTO_END html)
      then Some []
      else
        new_cards <- make_homepage_cards articles 6 ;;
        html2 <- pattern_sub (AUTO_START ++ nl ++ new_cards ++ nl ++ AUTO_END) html ;;
        Some [(INDEX_FILE, html2)]
  end.
End Homepage.

(* ================================================================= *)
(** ** The articles page *)

Definition tag_html (t : str) : str :=
  qlit "<span class=`tag`>" ++ escape t ++ lit "</span>".

(** The card of an article in [make_articles_page]. *)
Definition articles_card (a : article) : option str :=
  title <- option_map escape (a_title a) ;;
  slug <- option_map escape (a_slug a) ;;
  let desc := escape (get (a_desc a) []) in
  let date := escape (get (a_date a) []) in
  let thumb := escape (get (a_thumb a) (lit "images/upi.webp")) in
  let tags := get (a_tags a) [] in
  let tags_html := join (lit " ") (map tag_html tags) in
  Some (
    qlit "
        <article class=`card`>
          <a href=`" ++
    slug ++
    qlit "` class=`thumbwrap`>
            <img src=`" ++
    thumb ++ qlit "` alt=`" ++ title ++
    qlit "` />
          </a>
          <div class=`cardbody`>
            <div class=`tags`>" ++
    tags_html ++
    qlit "</div>
            <h2><a href=`" ++
    slug ++ qlit "`>" ++ title ++
    qlit "</a></h2>
            <p class=`meta`>" ++
    date ++
    qlit "</p>
            <p class=`desc`>" ++
    desc ++
    qlit "</p>
            <a class=`read` href=`" ++
    slug ++
    qlit "`>Read article →</a>
          </div>
        </article>
        ").

(** The page before the cards and after them: the two parts of the
    literal of [make_articles_page] around [{''.join(cards)}]. *)
Definition articles_page_head : str :=
    qlit "<!doctype html>
<html lang=`en`>
<head>
  <meta charset=`utf-8` />
  <meta name=`viewport` content=`width=device-width,initial-scale=1` />
  <title>Articles – " ++
    SITE_NAME ++
    qlit "</title>
  <meta name=`description` content=`All long-form articles published on " ++
    SITE_NAME ++
    qlit ".` />
  <link rel=`stylesheet` href=`styles.css` />
</head>
<body class=`ic-body`>
  <div class=`ic-topstrip`>All articles • " ++
    SITE_NAME ++
    qlit "</div>

  <header class=`ic-header`>
    <div class=`ic-container ic-header-inner`>
      <a href=`index.html` class=`ic-logo`>
        <span class=`ic-logo-mark`>IC</span>
        <span>
          <span class=`ic-logo-title`>" ++
    SITE_NAME ++
    qlit "</span>
          <span class=`ic-logo-sub`>Long-form global analysis</span>
        </span>
      </a>

      <nav class=`ic-nav`>
        <a href=`index.html` class=`ic-nav-link`>Home</a>
        <a href=`articles.html` class=`ic-nav-link ic-nav-link-active`>Articles</a>
        <a href=`search.html` class=`ic-nav-link`>Search</a>
      </nav>
    </div>
  </header>

  <main class=`ic-main`>
    <div class=`ic-container`>
      <div class=`ic-section-header`>
        <h1>All Articles</h1>
        <p>Newest first.</p>
      </div>

      <div class=`ic-articles-grid`>
        ".

Definition articles_page_tail : str :=
    qlit "
      </div>
    </div>
  </main>

  <footer class=`ic-footer`>
    <div class=`ic-container ic-footer-bottom`>© 2025 " ++
    SITE_NAME ++
    lit ". All rights reserved.</div>
  </footer>
</body>
</html>
".

(** The page around the cards. *)
Definition articles_page_shell (cards : list str) : str :=
  articles_page_head ++ List.concat cards ++ articles_page_tail.

Definition make_articles_page (articles : list article) : option str :=
  let sorted_articles := sorted_by_date articles in
  cards <- traverse articles_card sorted_articles ;;
  Some (articles_page_shell cards).

(* ================================================================= *)
(** ** The category pages *)

(** [tag_name in a.get("tags", [])]: [tag_name] is an element of the list. *)
Definition has_tag (tag_name : str) (a : article) : bool :=
  existsb (str_eqb tag_name) (get (a_tags a) []).

(** The list [filtered] of [make_category_page]. *)
Definition category_articles (tag_name : str) (articles : list article)
  : list article :=
  sorted_by_date (filter (has_tag tag_name) articles).

(** The card of an article in [make_category_page]. *)
Definition category_card (a : article) : option str :=
  title <- option_map escape (a_title a) ;;
  slug <- option_map escape (a_slug a) ;;
  let desc := escape (get (a_desc a) []) in
  let date := escape (get (a_date a) []) in
  let thumb := escape (get (a_thumb a) (lit "images/upi.webp")) in
  Some (
    qlit "
        <article class=`ic-article-card`>
          <a href=`" ++
    slug ++
    qlit "` class=`ic-article-thumb-link`>
            <img src=`" ++
    thumb ++ qlit "` alt=`" ++ title ++
    qlit "` class=`ic-article-thumb` />
          </a>
          <div>
            <h3 class=`ic-article-title`><a href=`" ++
    slug ++ qlit "`>" ++ title ++
    qlit "</a></h3>
            <p class=`ic-article-meta`>" ++
    date ++
    qlit "</p>
            <p class=`ic-article-excerpt`>" ++
    desc ++
    qlit "</p>
            <a href=`" ++
    slug ++
    qlit "` class=`ic-article-read`>Read article →</a>
          </div>
        </article>
        ").

Definition NO_ARTICLES : str :=
  lit "<p style='color:#9ca3af;'>No articles published yet. Coming soon.</p>".

(** [cards_html]: an empty list is falsy. *)
Definition category_cards_html (cards : list str) : str :=
  match cards with
  | [] => NO_ARTICLES
  | _ :: _ => join nl cards
  end.

(** The page around the cards. *)
Definition category_page_shell (info : category) (cards_html : str) : str :=
    qlit "<!doctype html>
<html lang=`en`>
<head>
  <meta charset=`utf-8` />
  <meta name=`viewport` content=`width=device-width,initial-scale=1` />
  <title>" ++
    escape (cat_title info) ++ lit " – " ++ SITE_NAME ++
    qlit "</title>
  <meta name=`description` content=`" ++
    escape (cat_desc info) ++
    qlit "` />
  <link rel=`stylesheet` href=`styles.css` />
</head>
<body class=`ic-body`>

<header class=`ic-header`>
  <div class=`ic-container ic-header-inner`>
    <a href=`index.html` class=`ic-logo`>
      <span class=`ic-logo-mark`>IC</span>
      <span>
        <span class=`ic-logo-title`>" ++
    SITE_NAME ++
    qlit "</span>
        <span class=`ic-logo-sub`>Long-form global analysis</span>
      </span>
    </a>

    <nav class=`ic-nav`>
      <a href=`index.html` class=`ic-nav-link`>Home</a>
      <a href=`articles.html` class=`ic-nav-link`>Articles</a>
      <a href=`search.html` class=`ic-nav-link`>Search</a>
    </nav>
  </div>
</header>

<main class=`ic-main`>
  <div class=`ic-container`>
    <section class=`ic-sidebar-block`>
      <h1 style=`margin-top:0;`>" ++
    escape (cat_title info) ++
    qlit "</h1>
      <p style=`color:#cbd5f5;`>" ++
    escape (cat_desc info) ++
    qlit "</p>
    </section>

    <section class=`ic-sidebar-block`>
      <h2 style=`margin-top:0;`>Articles</h2>
      " ++
    cards_html ++
    qlit "
    </section>
  </div>
</main>

<footer class=`ic-footer`>
  <div class=`ic-container ic-footer-bottom`>© 2025 " ++
    SITE_NAME ++
    lit ". All rights reserved.</div>
</footer>

</body>
</html>
".

Definition make_category_page (tag_name : str) (info : category)
    (articles : list article) : option str :=
  cards <- traverse category_card (category_articles tag_name articles) ;;
  Some (category_page_shell info (category_cards_html cards)).

(** [write_category_pages(articles)]: one write per entry of [CATEGORIES]. *)
Definition write_category_pages (articles : list article)
  : option (list (str * str)) :=
  traverse (fun info =>
              page <- make_category_page (cat_key info) info articles ;;
              Some (cat_file info, page)) CATEGORIES.

(* ================================================================= *)
(** ** Notions used by the properties *)

(** The angle brackets, which [escape] removes. *)
Definition LT : ascii := ascii_of_nat 60.
Definition GT : ascii := ascii_of_nat 62.

(** No occurrence of [pat] can start inside [a] and end after it: no
    non-empty suffix of [a] is a proper prefix of [pat]. *)
Fixpoint no_straddle (pat a : str) : bool :=
  match a with
  | [] => true
  | _ :: a' =>
      negb (startswith pat a && (List.length a <? List.length pat))
      && no_straddle pat a'
  end.

(** [a] and [b] agree as far as both go: one is a prefix of the other. *)
Definition prefix_comparable (a b : str) : bool :=
  startswith a b || startswith b a.

(** The non-empty suffixes of a string, longest first. *)
Fixpoint suffixes (s : str) : list str :=
  match s with
  | [] => []
  | _ :: s' => s :: suffixes s'
  end.

(** An occurrence of [old] and an occurrence of [tok] never overlap: no
    occurrence of [old] can start inside one of [tok], and none can start
    before it and reach into it. *)
Definition apart (old tok : str) : bool :=
  forallb (fun t => negb (prefix_comparable t old)) (suffixes tok)
  && forallb (fun r => negb (prefix_comparable r tok)) (tl (suffixes old)).

(** The keys of the dictionary [replacements], in its order. *)
Definition PLACEHOLDERS : list str :=
  [ lit "{{TITLE}}"; lit "{{DESCRIPTION}}"; lit "{{SLUG}}"; lit "{{DATE}}";
    lit "{{THUMB}}"; lit "{{THUMB_OG}}"; lit "{{TAGLINE}}"; lit "{{CONTENT}}" ].

(** [R a b] for every [a] that stands before [b] in the list. *)
Fixpoint ordered_pairs (R : str -> str -> bool) (l : list str) : bool :=
  match l with
  | [] => true
  | a :: l' => forallb (R a) l' && ordered_pairs R l'
  end.

(** [tok] is safe from a later replacement of [old]: [old] is not empty and
    its occurrences cannot overlap those of [tok]. *)
Definition survives_pass (tok old : str) : bool :=
  match old with
  | [] => false
  | _ :: _ => apart old tok
  end.

(** The tag line as the specification words it: the comma-joined tag list,
    or the site default for a draft that has no tags. *)
Definition tagline_spec (d : draft) : str :=
  match get (d_tags d) [] with
  | [] => lit "Insight Chronicles"
  | tags => join (lit ", ") tags
  end.

(** The value of [{{TAGLINE}}] in [replacements]. *)
Definition tagline (d : draft) : str :=
  str_or (join (lit ", ") (get (d_tags d) [])) (lit "Insight Chronicles").

(** *** Sample data *)

(** A path of one name in the working directory: not empty, at most 255
    bytes, without NUL and without slash, and neither [.] nor [..]. *)
Definition plain_name (path : str) : bool :=
  negb (str_eqb path []) && (List.length path <=? 255)
  && negb (existsb (fun c => Ascii.eqb c zero || Ascii.eqb c "/") path)
  && negb (str_eqb path (lit ".")) && negb (str_eqb path (lit "..")).

(** An empty working directory without subdirectories, in which the
    process may make files: the paths that open are the plain names. *)
Definition empty_directory : files :=
  {| file := fun _ => None; can_open := plain_name |}.

(** A file system with the template [template] and nothing else. *)
Definition only_template (template : str) : files :=
  write_file TEMPLATE_FILE template empty_directory.

(** A draft with the six required keys, with or without tags. *)
Definition sample_draft (slug title content : string)
    (tags : option (list str)) : draft :=
  {| d_title := Some (lit title);
     d_desc := Some (lit "D");
     d_slug := Some (lit slug);
     d_date := Some (lit "2025-01-01");
     d_thumb := Some (lit "t.webp");
     d_thumb_og := None;
     d_tags := tags;
     d_content := Some (lit content) |}.

(** An article of the store with a title, a slug, a url, a date and
    tags. *)
Definition sample_article (slug date : string) (tags : list str) : article :=
  {| a_title := Some (lit "T");
     a_slug := Some (lit slug);
     a_url := Some (SITE_URL ++ lit "/" ++ lit slug);
     a_desc := None;
     a_date := Some (lit date);
     a_thumb := None;
     a_thumb_og := None;
     a_tags := Some tags;
     a_content_html := None |}.

(** The entry of [CATEGORIES] for the key [History]. *)
Definition HISTORY : category :=
  {| cat_key := lit "History"; cat_file := lit "history.html";
     cat_title := lit "History & Civilisations";
     cat_desc := lit "Long-form essays exploring empires, trade networks, institutions and the foundations of power." |}.

(** An article has the keys that the cards subscript. *)
Definition has_title_slug (a : article) : Prop :=
  a_title a <> None /\ a_slug a <> None.

(** [a] holds [n] occurrences of [pat], and it can be put before any text
    without a further occurrence that starts in it. *)
Definition counts (pat : str) (n : nat) (a : str) : Prop :=
  no_straddle pat a = true /\ occurrences pat a = n.

(** The opening tag of a sitemap entry and of a tag span of the homepage. *)
Definition URL_OPEN : str := lit "<url>".
Definition TAG_OPEN : str := qlit "<span class=`ic-tag`>".

(** An article has the key that the sitemap subscripts. *)
Definition has_url (a : article) : Prop := a_url a <> None.

(** The tags of an article: [a.get("tags", [])]. *)
Definition tags_of (a : article) : list str := get (a_tags a) [].

(** An article has the keys that the feed subscripts. *)
Definition has_title_url (a : article) : Prop :=
  a_title a <> None /\ a_url a <> None.

(** A calendar that knows one day, for the samples: the date
    [2025-01-01] and its RFC-822 form. *)
Definition sample_strptime (s : str) : option unit :=
  if str_eqb s (lit "2025-01-01") then Some tt else None.

Definition sample_strftime (d : unit) : option str :=
  Some (lit "Wed, 01 Jan 2025 00:00:00 +0000").

(** The expansion of a replacement template that has no backslash in it,
    hence neither an escape nor a group reference: the template itself,
    whatever the group holds. *)
Definition literal_template (repl : str) : option (str -> str) :=
  Some (fun _ => repl).

(** A file system with the homepage [html] and nothing else. *)
Definition only_homepage (html : str) : files :=
  write_file INDEX_FILE html empty_directory.

(** A draft has the six keys that [build_article_html] and
    [publish_drafts] subscript. *)
Definition draft_complete (d : draft) : Prop :=
  d_title d <> None /\ d_desc d <> None /\ d_slug d <> None
  /\ d_date d <> None /\ d_thumb d <> None /\ d_content d <> None.

(** An article has the nine keys of a record that [publish_drafts]
    appends. *)
Definition article_complete (a : article) : Prop :=
  a_title a <> None /\ a_slug a <> None /\ a_url a <> None
  /\ a_desc a <> None /\ a_date a <> None /\ a_thumb a <> None
  /\ a_thumb_og a <> None /\ a_tags a <> None /\ a_content_html a <> None.

(** The initial state of a run of [publish_drafts]. *)
Definition pub_start (articles : list article) : pub_state :=
  {| st_articles := articles; st_writes := []; st_published := 0 |}.

(* ================================================================= *)
(** ** The search index *)

(** A tag can start here: the text after a [<] starts with a character
    other than [>] and holds a [>] further on. *)
Definition tag_follows (s : str) : bool :=
  match s with
  | [] => false
  | x :: t => negb (Ascii.eqb x GT) && existsb (Ascii.eqb GT) t
  end.

(** [re.sub(r"<[^>]+>", " ", html)]: from left to right, a [<] that is
    followed by at least one character other than [>] and then by a [>]
    starts a match, which ends with the first [>]; the match becomes one
    space.  [in_tag] tells that the characters belong to a match and are
    dropped, up to its [>]. *)
Fixpoint sub_tags (in_tag : bool) (s : str) : str :=
  match s with
  | [] => []
  | c :: s' =>
      if in_tag
      then if Ascii.eqb c GT then sub_tags false s' else sub_tags true s'
      else if Ascii.eqb c LT && tag_follows s'
           then lit " " ++ sub_tags true s'
           else c :: sub_tags false s'
  end.

(** The whitespace of [\s] and of [str.strip]: the characters U+0009 to
    U+000D, U+001C to U+0020, U+0085, U+00A0, U+1680, U+2000 to U+200A,
    U+2028, U+2029, U+202F, U+205F and U+3000.  [space_len s] is the number
    of bytes of the whitespace character at the head of [s], and 0 when
    [s] does not start with one. *)
Definition space_len (s : str) : nat :=
  match map nat_of_ascii s with
  | [] => 0
  | b :: rest =>
      if ((9 <=? b) && (b <=? 13)) || ((28 <=? b) && (b <=? 32)) then 1
      else
        match rest with
        | b1 :: rest' =>
            if (b =? 194) && ((b1 =? 133) || (b1 =? 160)) then 2
            else
              match rest' with
              | b2 :: _ =>
                  if (b =? 225) && (b1 =? 154) && (b2 =? 128) then 3
                  else if (b =? 226) && (b1 =? 128)
                          && (((128 <=? b2) && (b2 <=? 138))
                              || (b2 =? 168) || (b2 =? 169) || (b2 =? 175))
                  then 3
                  else if (b =? 226) && (b1 =? 129) && (b2 =? 159) then 3
                  else if (b =? 227) && (b1 =? 128) && (b2 =? 128) then 3
                  else 0
              | [] => 0
              end
        | [] => 0
        end
  end.

(** [re.sub(r"\s+", " ", text)]: every run of whitespace becomes one space.
    [skip] counts the bytes of the current whitespace character that are
    still to be dropped, [in_run] tells that the run has its space
    already. *)
Fixpoint collapse_spaces (skip : nat) (in_run : bool) (s : str) : str :=
  match s with
  | [] => []
  | c :: s' =>
      match skip with
      | S k => collapse_spaces k in_run s'
      | O =>
          match space_len s with
          | O => c :: collapse_spaces 0 false s'
          | S n => (if in_run then [] else lit " ") ++ collapse_spaces n true s'
          end
      end
  end.

(** The text is whitespace from end to end. *)
Fixpoint all_space (skip : nat) (s : str) : bool :=
  match s with
  | [] => true
  | _ :: s' =>
      match skip with
      | S k => all_space k s'
      | O =>
          match space_len s with
          | O => false
          | S n => all_space n s'
          end
      end
  end.

(** [s.lstrip()] and [s.rstrip()]. *)
Fixpoint lstrip (skip : nat) (s : str) : str :=
  match s with
  | [] => []
  | _ :: s' =>
      match skip with
      | S k => lstrip k s'
      | O =>
          match space_len s with
          | O => s
          | S n => lstrip n s'
          end
      end
  end.

Fixpoint rstrip (s : str) : str :=
  match s with
  | [] => []
  | c :: s' => if all_space 0 s then [] else c :: rstrip s'
  end.

(** [s.strip()] *)
Definition strip (s : str) : str := rstrip (lstrip 0 s).

(** [strip_html(html)] *)
Definition strip_html (html : str) : str :=
  let text := sub_tags false html in
  strip (collapse_spaces 0 false text).

(** An entry of the list [data] of [make_search_index]. *)
Record search_entry := {
  e_title : str;
  e_slug : str;
  e_url : str;
  e_desc : str;
  e_date : str;
  e_thumb : str;
  e_tags : list str;
  e_body : str
}.

(** The entry of an article; an empty [content_html] is falsy and gives
    an empty body without a call of [strip_html]. *)
Definition search_entry_of (a : article) : search_entry :=
  let body_html := get (a_content_html a) [] in
  let body_text := match body_html with
                   | [] => []
                   | _ :: _ => strip_html body_html
                   end in
  {| e_title := get (a_title a) [];
     e_slug := get (a_slug a) [];
     e_url := get (a_url a) [];
     e_desc := get (a_desc a) [];
     e_date := get (a_date a) [];
     e_thumb := get (a_thumb a) [];
     e_tags := get (a_tags a) [];
     e_body := body_text |}.

(** The list [data] of [make_search_index]. *)
Definition search_entries (articles : list article) : list search_entry :=
  map search_entry_of (sorted_by_date articles).

Section SearchIndex.
(** [json.dumps(data, indent=2, ensure_ascii=False)] of the library. *)
Variable json_dumps : list search_entry -> str.

Definition make_search_index (articles : list article) : str :=
  json_dumps (search_entries articles).
End SearchIndex.

(** A tag starts at the head of [s]: what the pattern [<[^>]+>] matches
    there. *)
Definition tag_at (s : str) : bool :=
  match s with
  | [] => false
  | c :: s' => Ascii.eqb c LT && tag_follows s'
  end.

(** The text holds a tag somewhere. *)
Fixpoint has_markup (s : str) : bool :=
  match s with
  | [] => false
  | _ :: s' => tag_at s || has_markup s'
  end.

(** Every whitespace character of the text is a space (U+0020) that stands
    alone: the character after it, if there is one, is no whitespace. *)
Fixpoint spaces_single (s : str) : bool :=
  match s with
  | [] => true
  | c :: s' =>
      match space_len s with
      | O => spaces_single s'
      | S _ => Ascii.eqb c " " && (space_len s' =? 0) && spaces_single s'
      end
  end.

(** The text does not end with a space. *)
Fixpoint no_final_space (s : str) : bool :=
  match s with
  | [] => true
  | [c] => negb (Ascii.eqb c " ")
  | _ :: s' => no_final_space s'
  end.

(** The opening tags of a card of the homepage and of a category page, and
    of a card of the articles page. *)
Definition ARTICLE_OPEN : str := qlit "<article class=`ic-article-card`>".
Definition CARD_OPEN : str := qlit "<article class=`card`>".

(* ================================================================= *)
(** ** The store, the drafts directory and the static pages *)

Definition ARTICLES_FILE : str := lit "articles.json".

(** [s.endswith(suffix)]. *)
Definition endswith (s suffix : str) : bool :=
  startswith (rev s) (rev suffix).

(** A literal of the source that contains double quotes and backquotes,
    written with a tilde for each double quote (the literal of the search
    page has no tilde). *)
Definition tlit (s : string) : str :=
  map (fun c => if Ascii.eqb c "~" then ascii_of_nat 34 else c) (lit s).

(** [make_robots()], [make_search_page()] and [make_404()]: constants. *)
Definition make_robots : str :=
  lit "User-agent: *
Allow: /

Sitemap: " ++
  SITE_URL ++
  lit "/sitemap.xml
".

Definition make_search_page : str :=
  tlit "<!doctype html>
<html lang=~en~>
<head>
  <meta charset=~utf-8~ />
  <meta name=~viewport~ content=~width=device-width,initial-scale=1~ />
  <title>Search – " ++
  SITE_NAME ++
  tlit "</title>
  <meta name=~description~ content=~Search articles on Insight Chronicles.~ />
  <link rel=~stylesheet~ href=~styles.css~ />
</head>
<body class=~ic-body~>

<div class=~ic-topstrip~>Search • " ++
  SITE_NAME ++
  tlit "</div>

<header class=~ic-header~>
  <div class=~ic-container ic-header-inner~>
    <a href=~index.html~ class=~ic-logo~>
      <span class=~ic-logo-mark~>IC</span>
      <span>
        <span class=~ic-logo-title~>" ++
  SITE_NAME ++
  tlit "</span>
        <span class=~ic-logo-sub~>Long-form global analysis</span>
      </span>
    </a>

    <nav class=~ic-nav~>
      <a href=~index.html~ class=~ic-nav-link~>Home</a>
      <a href=~articles.html~ class=~ic-nav-link~>Articles</a>
      <a href=~search.html~ class=~ic-nav-link ic-nav-link-active~>Search</a>
    </nav>
  </div>
</header>

<main class=~ic-main~>
  <div class=~ic-container~>
    <section class=~ic-sidebar-block~>
      <h1 style=~margin-top:0;~>Search Articles</h1>
      <p style=~color:#cbd5f5;~>Type keywords to search across all published posts.</p>

      <input id=~q~ type=~text~ placeholder=~Search (UPI, ONDC, labs, geopolitics...)~ 
        style=~width:100%;padding:14px;border-radius:14px;border:1px solid rgba(148,163,184,0.25);background:#020617;color:#e5e7eb;~ />

      <p id=~count~ style=~margin-top:10px;color:#9ca3af;~>Loading…</p>
    </section>

    <section class=~ic-sidebar-block~>
      <h2 style=~margin-top:0;~>Results</h2>
      <div id=~results~ style=~display:grid;gap:14px;~></div>
    </section>
  </div>
</main>

<footer class=~ic-footer~>
  <div class=~ic-container ic-footer-bottom~>© 2025 " ++
  SITE_NAME ++
  tlit ". All rights reserved.</div>
</footer>

<script>
  let data = [];

  async function loadIndex() {
    const res = await fetch(~search-index.json~);
    data = await res.json();
    document.getElementById(~count~).textContent = data.length + ~ articles indexed~;
    render(~~);
  }

  function escapeHtml(str) {
    return (str || ~~).replace(/[&<>~']/g, function (m) {
      return {
        ~&~: ~&amp;~,
        ~<~: ~&lt;~,
        ~>~: ~&gt;~,
        '~': ~&quot;~,
        ~'~: ~&#039;~
      }[m];
    });
  }

  function makeTagsHtml(tags) {
    if (!tags || !tags.length) return ~~;
    return tags.slice(0,3).map(t => `<span class=~ic-tag~>${escapeHtml(t)}</span>`).join(~~);
  }

  function render(q) {
    const results = document.getElementById(~results~);
    results.innerHTML = ~~;

    const query = q.trim().toLowerCase();

    const filtered = data.filter(a => {
      const hay = (
        a.title + ~ ~ +
        a.desc + ~ ~ +
        (a.tags||[]).join(~ ~) + ~ ~ +
        a.date + ~ ~ +
        (a.body || ~~)
      ).toLowerCase();
      return query === ~~ || hay.includes(query);
    });

    document.getElementById(~count~).textContent = filtered.length + ~ result(s)~;

    filtered.forEach(a => {
      const div = document.createElement(~div~);
      div.className = ~ic-article-card~;
      div.style.gridTemplateColumns = ~140px 1fr~;

      div.innerHTML = `
        <a href=~${a.slug}~ class=~ic-article-thumb-link~>
          <img src=~${a.thumb}~ alt=~${escapeHtml(a.title)}~ class=~ic-article-thumb~ />
        </a>
        <div>
          <div class=~ic-article-tags~>${makeTagsHtml(a.tags)}</div>
          <h3 class=~ic-article-title~><a href=~${a.slug}~>${escapeHtml(a.title)}</a></h3>
          <p class=~ic-article-meta~>${escapeHtml(a.date)}</p>
          <p class=~ic-article-excerpt~>${escapeHtml(a.desc)}</p>
          <a href=~${a.slug}~ class=~ic-article-read~>Read article →</a>
        </div>
      `;
      results.appendChild(div);
    });
  }

  document.getElementById(~q~).addEventListener(~input~, e => render(e.target.value));
  loadIndex();
</script>

</body>
</html>
".

Definition make_404 : str :=
  qlit "<!doctype html>
<html lang=`en`>
<head>
  <meta charset=`utf-8`/>
  <meta name=`viewport` content=`width=device-width,initial-scale=1`/>
  <title>404 – Page Not Found | " ++
  SITE_NAME ++
  qlit "</title>
  <meta name=`robots` content=`noindex`/>
  <link rel=`stylesheet` href=`styles.css`/>
</head>
<body class=`ic-body`>
  <div class=`ic-topstrip`>404 • Not Found</div>
  <main class=`ic-main`>
    <div class=`ic-container` style=`padding:50px 0;`>
      <h1 style=`font-size:42px;margin-bottom:10px;`>Page not found</h1>
      <p style=`max-width:650px;opacity:0.85;line-height:1.7;`>
        The page you opened doesn’t exist. You can go back home or browse all articles.
      </p>
      <div style=`margin-top:18px;display:flex;gap:10px;flex-wrap:wrap;`>
        <a class=`ic-btn-primary` href=`index.html`>Go to Homepage</a>
        <a class=`ic-btn-secondary` href=`articles.html`>Browse Articles</a>
      </div>
    </div>
  </main>
  <footer class=`ic-footer`>
    <div class=`ic-container ic-footer-bottom`>© 2025 " ++
  SITE_NAME ++
  lit ". All rights reserved.</div>
  </footer>
</body>
</html>
".

(** The value that [make_site_json] serialises. *)
Record site_info := {
  site_name : str;
  site_url : str;
  site_description : str;
  site_language : str
}.

Record site_doc := {
  doc_site : site_info;
  doc_articles : list article
}.

(** The result of a sequence of statements that write files: whether it
    ran to its end or raised, and the files written, oldest first. *)
Definition outcome := (bool * list (str * str))%type.

(** [with open(path, "w") as f: f.write(content)], where [content] is the
    value of a call that returns or raises, and [path] is a fixed name,
    taken to open.  The file is opened, and so created or emptied, before
    the call is evaluated: a call that raises leaves the empty file. *)
Definition open_write (path : str) (content : option str) : outcome :=
  match content with
  | Some text => (true, [(path, text)])
  | None => (false, [(path, [])])
  end.

(** Statements in sequence: the first that raises ends the run. *)
Fixpoint run_steps (steps : list outcome) : outcome :=
  match steps with
  | [] => (true, [])
  | step :: rest =>
      if fst step
      then (fst (run_steps rest), snd step ++ snd (run_steps rest))
      else (false, snd step)
  end.

(** [write_category_pages(articles)] as the statements it runs, one
    [with open] per entry of [CATEGORIES]. *)
Definition write_category_pages_run (articles : list article) : outcome :=
  run_steps
    (map (fun info =>
            open_write (cat_file info)
              (make_category_page (cat_key info) info articles))
       CATEGORIES).

Section Main.
(** The library calls of the store and of the drafts: [json.load(f)] on
    the file [articles.json], as a function of the text that the file
    encodes, which raises on a text that is not JSON,
    [json.dump(articles, f, indent=2, ensure_ascii=False)], [json.load(f)]
    on a draft file, and the two calls of [json.dumps].  A draft that is a
    JSON value other than an object is the draft without keys: both raise
    at [d["slug"]]. *)
Variable json_load_articles : str -> option (list article).
Variable json_dump_articles : list article -> str.
Variable json_load_draft : str -> option draft.
Variable json_dumps_index : list search_entry -> str.
Variable json_dumps_site : site_doc -> str.

(** The library calls of [make_rss] and of [update_index_html]. *)
Variable datetime : Type.
Variable strptime : str -> option datetime.
Variable strftime : datetime -> option str.
Variable now : str.
Variable expand_template : str -> option (str -> str).

(** [load_articles_json()]: the empty list when the store does not exist;
    a store that is not UTF-8 raises. *)
Definition load_articles_json (fs : files) : option (list article) :=
  match fs ARTICLES_FILE with
  | None => Some []
  | Some (encoded text) => json_load_articles text
  | Some undecodable => None
  end.

(** [save_articles_json(articles)]: the write of the call. *)
Definition save_articles_json (articles : list article) : list (str * str) :=
  [(ARTICLES_FILE, json_dump_articles articles)].

(** [read_drafts()].  [dir] is [None] when the directory [drafts] does not
    exist, and else its listing, in the order of [os.listdir]: the name of
    each entry and its text, [None] for an entry that cannot be opened and
    read as text. *)
Definition read_drafts (dir : option (list (str * option str)))
  : option (list draft) :=
  match dir with
  | None => Some []
  | Some entries =>
      traverse (fun e => text <- snd e ;; json_load_draft text)
        (filter (fun e => endswith (fst e) (lit ".json")) entries)
  end.

Definition make_site_json (articles : list article) : str :=
  json_dumps_site
    {| doc_site := {| site_name := SITE_NAME; site_url := SITE_URL;
                      site_description := SITE_DESC;
                      site_language := lit "en" |};
       doc_articles := articles |}.

(** The statements of [main] after [update_index_html]: the twelve files
    made from the articles alone. *)
Definition main_outputs (articles : list article) : outcome :=
  run_steps
    [ open_write (lit "sitemap.xml") (make_sitemap articles);
      open_write (lit "rss.xml") (make_rss strptime strftime now articles);
      open_write (lit "robots.txt") (Some make_robots);
      open_write (lit "articles.html") (make_articles_page articles);
      write_category_pages_run articles;
      open_write (lit "search-index.json")
        (Some (make_search_index json_dumps_index articles));
      open_write (lit "search.html") (Some make_search_page);
      open_write (lit "404.html") (Some make_404);
      open_write (lit "site.json") (Some (make_site_json articles)) ].

(** [main()], on the files [fs] and the drafts directory [dir].  The run
    ends at the first statement that raises; it prints its message when
    the result is [true].  [publish_drafts] raises before its loop when
    the template is missing or the drafts cannot be read; the list
    [articles] is the one that [publish_drafts] has extended, and
    [update_index_html] reads the homepage after the writes before it.
    The store, the homepage and the twelve files of fixed name are taken
    to open for writing; the pages of the drafts open as [can_open fs]
    tells. *)
Definition main (fs : files) (dir : option (list (str * option str)))
  : outcome :=
  match load_articles_json fs with
  | None => (false, [])
  | Some loaded =>
      match load_template fs, read_drafts dir with
      | Some _, Some drafts =>
          let run := publish_drafts fs drafts loaded in
          let articles := st_articles (snd run) in
          if fst run then
            let saved := st_writes (snd run) ++ save_articles_json articles in
            match update_index_html expand_template (apply_writes saved fs)
                    articles with
            | None => (false, saved)
            | Some index =>
                (fst (main_outputs articles),
                 saved ++ index ++ snd (main_outputs articles))
            end
          else (false, st_writes (snd run))
      | _, _ => (false, [])
      end
  end.
End Main.

(** The paths of the files that [main] makes from the articles alone. *)
Definition OUTPUT_FILES : list str :=
  [ lit "sitemap.xml"; lit "rss.xml"; lit "robots.txt"; lit "articles.html" ]
  ++ map cat_file CATEGORIES
  ++ [ lit "search-index.json"; lit "search.html"; lit "404.html";
       lit "site.json" ].

(** An article has the three keys that the renderers subscript. *)
Definition has_title_slug_url (a : article) : Prop :=
  has_title_slug a /\ has_url a.

(** A sequence of statements has returned, or it has stopped on one of the
    files [paths], which it leaves empty. *)
Definition leaves_empty (paths : list str) (o : outcome) : Prop :=
  fst o = true
  \/ exists before p, snd o = before ++ [(p, [])] /\ In p paths.

(** The files that [main] makes with a call that can raise. *)
Definition RENDERED_FILES : list str :=
  [ lit "sitemap.xml"; lit "rss.xml"; lit "articles.html" ]
  ++ map cat_file CATEGORIES.

(** A draft without keys, and a store that holds one article without
    url. *)
Definition empty_draft : draft :=
  {| d_title := None; d_desc := None; d_slug := None; d_date := None;
     d_thumb := None; d_thumb_og := None; d_tags := None;
     d_content := None |}.

Definition article_without_url : article :=
  {| a_title := Some (lit "T"); a_slug := Some (lit "b.html");
     a_url := None; a_desc := None; a_date := None; a_thumb := None;
     a_thumb_og := None; a_tags := None; a_content_html := None |}.

(** The library calls of the samples: a draft file holds the draft of the
    scenario of the specification, or the object without keys when its text
    is [{}]; the store loads as the record of that draft, and the
    serialisers write nothing. *)
Definition scenario_draft : draft :=
  sample_draft "a.html" "T" "<p>x</p>" None.

Definition sample_load_draft (text : str) : option draft :=
  if str_eqb text (lit "{}") then Some empty_draft else Some scenario_draft.

Definition sample_load_articles (text : str) : option (list article) :=
  traverse article_of_draft [scenario_draft].

Definition sample_dump {A : Type} (value : A) : str := [].

(** The drafts directory of the scenario: one draft file and one file that
    is not a draft. *)
Definition scenario_dir : option (list (str * option str)) :=
  Some [ (lit "a.json", Some (lit "the draft")); (lit "notes.txt", None) ].

(** The same directory with a second draft, which has no keys. *)
Definition broken_dir : option (list (str * option str)) :=
  Some [ (lit "a.json", Some (lit "the draft")); (lit "b.json", Some (lit "{}")) ].

(** A store with one article, which has no url. *)
Definition store_without_url (text : str) : option (list article) :=
  Some [article_without_url].

(** [main] with the library calls of the samples. *)
Definition sample_main (fs : files) (dir : option (list (str * option str)))
  : outcome :=
  main sample_load_articles (@sample_dump _) sample_load_draft
    (@sample_dump _) (@sample_dump _) sample_strptime sample_strftime
    (lit "Wed, 01 Jan 2025 00:00:00 +0000") literal_template fs dir.

(** The files of the scenario: the template and nothing else. *)
Definition scenario_files : files :=
  only_template (lit "<h1>{{TITLE}}</h1>{{CONTENT}}").

(** A string without carriage return and without line feed. *)
Definition newline_free (s : str) : bool :=
  forallb (fun c => negb (Ascii.eqb c CR) && negb (Ascii.eqb c LF)) s.

(** A file system whose homepage is not UTF-8. *)
Definition undecodable_homepage : files :=
  {| file := fun p => if str_eqb p INDEX_FILE then Some undecodable else None;
     can_open := plain_name |}.

(** A homepage with DOS line ends around one marked region. *)
Definition crlf_homepage : str :=
  lit "<h1>Home</h1>" ++ [CR; LF] ++ AUTO_START ++ lit "old cards" ++ AUTO_END
  ++ [CR; LF] ++ lit "<footer/>".

(* ================================================================= *)
(** * Properties *)

(* ================================================================= *)
(** ** Strings *)

Lemma str_eqb_eq (a b : str) : str_eqb a b = true <-> a = b.
Proof.
  unfold str_eqb. destruct (list_eq_dec ascii_dec a b); split; congruence.
Qed.

Lemma str_eqb_refl (a : str) : str_eqb a a = true.
Proof. now apply str_eqb_eq. Qed.

Lemma str_eqb_neq (a b : str) : str_eqb a b = false <-> a <> b.
Proof.
  unfold str_eqb. destruct (list_eq_dec ascii_dec a b); split; congruence.
Qed.

Lemma startswith_nil (s : str) : startswith s [] = true.
Proof. now destruct s. Qed.

Lemma startswith_app (pat t : str) : startswith (pat ++ t) pat = true.
Proof.
  induction pat as [|p pat IH]; simpl.
  - apply startswith_nil.
  - now rewrite Ascii.eqb_refl, IH.
Qed.

Lemma startswith_inv (s pat : str) :
  startswith s pat = true -> s = pat ++ skipn (List.length pat) s.
Proof.
  revert s. induction pat as [|p pat IH]; intros s H; simpl.
  - reflexivity.
  - destruct s as [|c s]; simpl in H; [discriminate|].
    apply andb_true_iff in H as [Hc Hs].
    apply Ascii.eqb_eq in Hc. subst c. simpl. f_equal. now apply IH.
Qed.

Lemma startswith_iff (s pat : str) :
  startswith s pat = true <-> exists t, s = pat ++ t.
Proof.
  split.
  - intros H. eexists. now apply startswith_inv.
  - intros [t ->]. apply startswith_app.
Qed.

Lemma startswith_cons_neq (c p : ascii) (s pat : str) :
  c <> p -> startswith (c :: s) (p :: pat) = false.
Proof.
  intros H. simpl. apply andb_false_iff. left.
  apply Ascii.eqb_neq. congruence.
Qed.

(** [pat in s] is the substring test. *)
Lemma contains_iff (pat s : str) :
  contains pat s = true <-> exists a b, s = a ++ pat ++ b.
Proof.
  induction s as [|c s IH]; cbn [contains].
  - rewrite startswith_iff. split.
    + intros [t H]. exists [], t. exact H.
    + intros (a & b & H). destruct a; simpl in H.
      * now exists b.
      * discriminate.
  - rewrite orb_true_iff, startswith_iff, IH. split.
    + intros [[t H]|(a & b & H)].
      * exists [], t. exact H.
      * exists (c :: a), b. simpl. now f_equal.
    + intros (a & b & H). destruct a as [|x a]; simpl in H.
      * left. now exists b.
      * right. exists a, b. now injection H.
Qed.

(** A string without the first character of [pat] has no occurrence of
    [pat]. *)
Lemma contains_absent (p : ascii) (pat s : str) :
  ~ In p s -> contains (p :: pat) s = false.
Proof.
  intros H. destruct (contains (p :: pat) s) eqn:E; [|reflexivity].
  apply contains_iff in E as (a & b & ->).
  exfalso. apply H. apply in_or_app. right. now left.
Qed.

(** *** The first occurrence *)

Lemma split_first_eq (pat s : str) :
  split_first pat s =
  if startswith s pat then Some ([], skipn (List.length pat) s)
  else match s with
       | [] => None
       | c :: s' =>
           match split_first pat s' with
           | Some (before, after) => Some (c :: before, after)
           | None => None
           end
       end.
Proof. now destruct s. Qed.

Lemma split_first_Some (pat s before after : str) :
  split_first pat s = Some (before, after) -> s = before ++ pat ++ after.
Proof.
  revert before. induction s as [|c s IH]; intros before H;
    rewrite split_first_eq in H.
  - destruct (startswith [] pat) eqn:E; [|discriminate].
    injection H as <- <-. simpl. now apply startswith_inv.
  - destruct (startswith (c :: s) pat) eqn:E.
    + injection H as <- <-. now apply startswith_inv.
    + destruct (split_first pat s) as [[b a]|]; [|discriminate].
      injection H as <- <-. simpl. f_equal. now apply IH.
Qed.

Lemma split_first_None (pat s : str) :
  split_first pat s = None <-> contains pat s = false.
Proof.
  induction s as [|c s IH]; rewrite split_first_eq; cbn [contains].
  - destruct (startswith [] pat); split; congruence.
  - destruct (startswith (c :: s) pat); simpl.
    + split; congruence.
    + rewrite <- IH. destruct (split_first pat s) as [[b a]|]; split; congruence.
Qed.

(** The occurrence that [split_first] finds is the first one: [pat] does
    not start at any earlier position. *)
Lemma split_first_least (pat s before after : str) :
  split_first pat s = Some (before, after) ->
  forall a b, s = a ++ pat ++ b -> List.length before <= List.length a.
Proof.
  revert before. induction s as [|c s IH]; intros before H a b Hs;
    rewrite split_first_eq in H.
  - destruct (startswith [] pat); [|discriminate].
    injection H as <- <-. simpl. lia.
  - destruct (startswith (c :: s) pat) eqn:E.
    + injection H as <- <-. simpl. lia.
    + destruct (split_first pat s) as [[b' a']|] eqn:Es; [|discriminate].
      injection H as <- <-.
      destruct a as [|x a]; simpl in Hs.
      * rewrite Hs, startswith_app in E. discriminate.
      * injection Hs as _ Hs. simpl.
        specialize (IH b' eq_refl a b Hs). lia.
Qed.

(** When [pat] cannot start inside [a] (here: [a] has no character equal to
    the first one of [pat]), the first occurrence in [a ++ pat ++ b] is the
    one shown. *)
Lemma split_first_app (p : ascii) (pat a b : str) :
  ~ In p a ->
  split_first (p :: pat) (a ++ (p :: pat) ++ b) = Some (a, b).
Proof.
  intros H. induction a as [|c a IH]; rewrite split_first_eq.
  - change ([] ++ (p :: pat) ++ b) with ((p :: pat) ++ b).
    rewrite startswith_app. f_equal. f_equal.
    now rewrite skipn_app, skipn_all, Nat.sub_diag.
  - change ((c :: a) ++ (p :: pat) ++ b) with (c :: (a ++ (p :: pat) ++ b)).
    rewrite startswith_cons_neq.
    + rewrite IH; [reflexivity|]. intros Hin. apply H. now right.
    + intros ->. apply H. now left.
Qed.

(** *** [replace] *)

Lemma replace_from_skip (old new x s : str) :
  replace_from old new (List.length x) (x ++ s) = replace_from old new 0 s.
Proof.
  induction x as [|c x IH]; simpl.
  - now destruct s.
  - exact IH.
Qed.

Lemma replace_cons (p : ascii) (pat new : str) (c : ascii) (s : str) :
  replace (p :: pat) new (c :: s) =
  if startswith (c :: s) (p :: pat)
  then new ++ replace (p :: pat) new (skipn (List.length pat) s)
  else c :: replace (p :: pat) new s.
Proof.
  unfold replace. cbn [replace_from].
  destruct (startswith (c :: s) (p :: pat)) eqn:E; [|reflexivity].
  f_equal. apply startswith_inv in E. cbn [List.length skipn] in E.
  injection E as _ E.
  replace (List.length (p :: pat) - 1) with (List.length pat)
    by (cbn [List.length]; lia).
  rewrite E at 1. rewrite replace_from_skip. reflexivity.
Qed.

(** An occurrence at the head is replaced and the search resumes after
    it: the inserted text is not searched. *)
Lemma replace_head (p : ascii) (pat new s : str) :
  replace (p :: pat) new ((p :: pat) ++ s) = new ++ replace (p :: pat) new s.
Proof.
  change ((p :: pat) ++ s) with (p :: (pat ++ s)).
  rewrite replace_cons.
  change (p :: pat ++ s) with ((p :: pat) ++ s). rewrite startswith_app.
  now rewrite skipn_app, skipn_all, Nat.sub_diag.
Qed.

(** [replace] in terms of the first occurrence: the text before it is
    kept, the occurrence becomes [new], and the rest is replaced in the
    same way (replace-all); without an occurrence the string is returned
    as it is. *)
Lemma replace_split_first (p : ascii) (pat new s : str) :
  replace (p :: pat) new s =
  match split_first (p :: pat) s with
  | Some (before, after) => before ++ new ++ replace (p :: pat) new after
  | None => s
  end.
Proof.
  induction s as [|c s IH].
  - reflexivity.
  - rewrite replace_cons, split_first_eq.
    destruct (startswith (c :: s) (p :: pat)); [reflexivity|].
    rewrite IH. now destruct (split_first (p :: pat) s) as [[b a]|].
Qed.

Lemma replace_absent (p : ascii) (pat new s : str) :
  contains (p :: pat) s = false -> replace (p :: pat) new s = s.
Proof.
  intros H. rewrite replace_split_first.
  apply split_first_None in H. now rewrite H.
Qed.

(** A single character is replaced everywhere: none is left, unless [new]
    brings one. *)
Lemma replace_char_free (c : ascii) (new s : str) :
  ~ In c new -> ~ In c (replace [c] new s).
Proof.
  intros Hnew. induction s as [|x s IH].
  - simpl. tauto.
  - rewrite replace_cons. cbn [startswith List.length skipn].
    rewrite startswith_nil, andb_true_r.
    destruct (Ascii.eqb_spec c x) as [->|Hx].
    + intros H. apply in_app_or in H. tauto.
    + intros [H|H]; [congruence|tauto].
Qed.

Lemma replace_char_keeps_free (c x : ascii) (new s : str) :
  ~ In x new -> ~ In x s -> ~ In x (replace [c] new s).
Proof.
  intros Hnew. induction s as [|y s IH]; intros Hs.
  - simpl. tauto.
  - rewrite replace_cons. cbn [startswith List.length skipn].
    rewrite startswith_nil, andb_true_r.
    assert (Hs' : ~ In x s) by (intros H; apply Hs; now right).
    destruct (Ascii.eqb c y).
    + intros H. apply in_app_or in H. tauto.
    + intros [H|H]; [|tauto]. apply Hs. now left.
Qed.

(** An escaped string has no angle bracket. *)
Lemma escape_no_lt (s : str) : ~ In LT (escape s).
Proof.
  unfold escape. apply (replace_char_free LT (lit "&lt;")).
  vm_compute. intuition discriminate.
Qed.

Lemma escape_no_gt (s : str) : ~ In GT (escape s).
Proof.
  unfold escape.
  apply (@replace_char_keeps_free LT GT (lit "&lt;")).
  - vm_compute. intuition discriminate.
  - apply (replace_char_free GT (lit "&gt;")).
    vm_compute. intuition discriminate.
Qed.

(** *** Counting occurrences *)

Lemma startswith_app_l (a b pat : str) :
  startswith a pat = true -> startswith (a ++ b) pat = true.
Proof.
  intros H. apply startswith_iff in H as [t ->].
  rewrite <- app_assoc. apply startswith_app.
Qed.

Lemma startswith_app_inv (a b pat : str) :
  startswith (a ++ b) pat = true ->
  startswith a pat = true \/
  (startswith pat a = true /\ List.length a < List.length pat).
Proof.
  revert a. induction pat as [|p pat IH]; intros a H.
  - left. apply startswith_nil.
  - destruct a as [|c a].
    + right. split; [reflexivity|simpl; lia].
    + simpl in H. apply andb_true_iff in H as [Hc H].
      apply Ascii.eqb_eq in Hc. subst c.
      destruct (IH a H) as [Ha|[Ha Hl]].
      * left. simpl. now rewrite Ascii.eqb_refl.
      * right. simpl. rewrite Ascii.eqb_refl. split; [exact Ha|lia].
Qed.

(** *** Occurrences that a replacement leaves alone *)

Lemma startswith_app_same (x s r : str) :
  startswith (x ++ s) (x ++ r) = startswith s r.
Proof.
  induction x as [|c x IH]; simpl.
  - reflexivity.
  - now rewrite Ascii.eqb_refl.
Qed.

Lemma suffixes_app (x r : str) :
  r <> [] -> In r (suffixes (x ++ r)).
Proof.
  intros Hr. induction x as [|c x IH]; simpl.
  - destruct r; [congruence|]. now left.
  - now right.
Qed.

Lemma proper_suffix_in (c : ascii) (x r : str) :
  r <> [] -> In r (tl (suffixes ((c :: x) ++ r))).
Proof. intros Hr. simpl. now apply suffixes_app. Qed.

(** The search walks through a text inside which no occurrence starts. *)
Lemma replace_through (p : ascii) (pat new t y : str) :
  forallb (fun t' => negb (prefix_comparable t' (p :: pat))) (suffixes t) = true ->
  replace (p :: pat) new (t ++ y) = t ++ replace (p :: pat) new y.
Proof.
  induction t as [|c t IH]; intros H.
  - reflexivity.
  - cbn [suffixes forallb] in H. apply andb_true_iff in H as [Hc Ht].
    apply negb_true_iff in Hc. unfold prefix_comparable in Hc.
    apply orb_false_iff in Hc as [H1 H2].
    change ((c :: t) ++ y) with (c :: (t ++ y)). rewrite replace_cons.
    destruct (startswith (c :: t ++ y) (p :: pat)) eqn:E.
    + apply (startswith_app_inv (c :: t) y) in E as [E|[E _]]; congruence.
    + simpl. f_equal. now apply IH.
Qed.

(** A replacement of [old] keeps an occurrence of [tok] when the two
    cannot overlap. *)
Lemma replace_keeps_occurrence (p : ascii) (pat new tok : str) :
  apart (p :: pat) tok = true ->
  forall x y, exists x' y',
    replace (p :: pat) new (x ++ tok ++ y) = x' ++ tok ++ y'.
Proof.
  intros Hap. apply andb_true_iff in Hap as [Htok Hold].
  intros x. induction x as [x IH] using (induction_ltof1 _ (@List.length ascii)).
  unfold ltof in IH. intros y. destruct x as [|c x].
  - exists [], (replace (p :: pat) new y). simpl.
    now apply replace_through.
  - change ((c :: x) ++ tok ++ y) with (c :: (x ++ tok ++ y)).
    rewrite replace_cons.
    destruct (startswith (c :: x ++ tok ++ y) (p :: pat)) eqn:E.
    + apply (startswith_app_inv (c :: x) (tok ++ y)) in E as E'.
      destruct E' as [E'|[E' Hlen]].
      * apply startswith_inv in E'. cbn [List.length skipn app] in E'.
        injection E' as _ Hx.
        rewrite Hx, <- app_assoc, skipn_app, skipn_all, Nat.sub_diag.
        cbn [skipn app].
        destruct (IH (skipn (List.length pat) x)) with (y := y)
          as (x' & y' & Heq).
        { rewrite length_skipn. simpl. lia. }
        exists (new ++ x'), y'. rewrite Heq. now rewrite <- app_assoc.
      * exfalso. apply startswith_inv in E'.
        set (r := skipn (List.length (c :: x)) (p :: pat)) in E'.
        assert (Hr : r <> []).
        { intros Hr. rewrite Hr, app_nil_r in E'.
          rewrite E' in Hlen. lia. }
        assert (Hin : In r (tl (suffixes (p :: pat)))).
        { rewrite E'. now apply proper_suffix_in. }
        rewrite forallb_forall in Hold. specialize (Hold r Hin).
        apply negb_true_iff in Hold. unfold prefix_comparable in Hold.
        apply orb_false_iff in Hold as [H1 H2].
        change (c :: x ++ tok ++ y) with ((c :: x) ++ tok ++ y) in E.
        rewrite E' in E. rewrite startswith_app_same in E.
        apply startswith_app_inv in E as [E|[E _]]; congruence.
    + destruct (IH x) with (y := y) as (x' & y' & Heq).
      { simpl. lia. }
      exists (c :: x'), y'. rewrite Heq. reflexivity.
Qed.

Lemma replace_keeps_contains (p : ascii) (pat new tok s : str) :
  apart (p :: pat) tok = true ->
  contains tok s = true ->
  contains tok (replace (p :: pat) new s) = true.
Proof.
  intros Hap H. apply contains_iff in H as (x & y & ->).
  destruct (@replace_keeps_occurrence p pat new tok Hap x y) as (x' & y' & ->).
  apply contains_iff. now exists x', y'.
Qed.

(** A replaced occurrence brings the whole of [new] into the result. *)
Lemma replace_brings_new (p : ascii) (pat new tok s : str) :
  contains (p :: pat) s = true ->
  contains tok new = true ->
  contains tok (replace (p :: pat) new s) = true.
Proof.
  intros Hs Hnew. rewrite replace_split_first.
  destruct (split_first (p :: pat) s) as [[before after]|] eqn:E.
  - apply contains_iff in Hnew as (a & b & Hn).
    apply contains_iff.
    exists (before ++ a), (b ++ replace (p :: pat) new after).
    rewrite Hn at 1. now rewrite <- !app_assoc.
  - apply split_first_None in E. congruence.
Qed.

(* ================================================================= *)
(** ** The substitution of the placeholders *)

Lemma replacements_keys (d : draft) (reps : list (str * str)) :
  replacements d = Some reps -> map fst reps = PLACEHOLDERS.
Proof.
  unfold replacements, bind.
  destruct (d_title d), (d_desc d), (d_slug d), (d_date d), (d_thumb d),
    (d_content d); try discriminate.
  now intros [= <-].
Qed.

Lemma substitute_app (l1 l2 : list (str * str)) (s : str) :
  substitute (l1 ++ l2) s = substitute l2 (substitute l1 s).
Proof. apply fold_left_app. Qed.

Lemma ordered_pairs_split (R : str -> str -> bool) (l1 l2 : list str) (x : str) :
  ordered_pairs R (l1 ++ x :: l2) = true ->
  forall a b, In a (l1 ++ [x]) -> In b l2 -> R a b = true.
Proof.
  induction l1 as [|c l1 IH]; cbn [app ordered_pairs]; intros H a b Ha Hb;
    apply andb_true_iff in H as [H1 H2].
  - destruct Ha as [<-|[]]. rewrite forallb_forall in H1. now apply H1.
  - destruct Ha as [<-|Ha].
    + rewrite forallb_forall in H1. apply H1.
      apply in_or_app. right. now right.
    + now apply (IH H2).
Qed.

(** The placeholders are apart from each other: a pass leaves the tokens
    of the keys before it alone. *)
Lemma placeholders_apart :
  ordered_pairs survives_pass PLACEHOLDERS = true.
Proof. vm_compute. reflexivity. Qed.

Lemma substitute_keeps_contains (tok : str) (reps : list (str * str)) (s : str) :
  (forall kv, In kv reps -> survives_pass tok (fst kv) = true) ->
  contains tok s = true ->
  contains tok (substitute reps s) = true.
Proof.
  revert s. induction reps as [|[k v] reps IH]; intros s H Hs.
  - exact Hs.
  - cbn [substitute fold_left]. apply IH.
    + intros kv Hkv. apply H. now right.
    + specialize (H (k, v) (or_introl eq_refl)). cbn [fst snd] in *.
      destruct k as [|p pat]; [discriminate|].
      now apply replace_keeps_contains.
Qed.

(** C3, as amended.  The substitution of [build_article_html] is one pass
    per key, in the order of [PLACEHOLDERS]; a pass replaces every
    occurrence of its key in the document the passes before it have left,
    from left to right, and does not search the text it inserts.  A
    placeholder token within a replacement value survives in the output
    when its key is the key of that value or stands before it in the
    order.  (A token of a later key is open to the later pass.) *)
Theorem build_article_html_passes (template : str) (d : draft)
    (reps : list (str * str)) :
  replacements d = Some reps ->
  build_article_html template d = Some (substitute reps template)
  /\ map fst reps = PLACEHOLDERS
  /\ (forall before k v,
        In (k, v) reps ->
        substitute (before ++ [(k, v)]) template =
        match split_first k (substitute before template) with
        | Some (head, rest) => head ++ v ++ replace k v rest
        | None => substitute before template
        end)
  /\ (forall before k v after k',
        reps = before ++ (k, v) :: after ->
        In k' (map fst before ++ [k]) ->
        contains k (substitute before template) = true ->
        contains k' v = true ->
        contains k' (substitute reps template) = true).
Proof.
  intros Hreps. pose proof (replacements_keys d Hreps) as Hkeys.
  split; [|split; [|split]].
  - unfold build_article_html. now rewrite Hreps.
  - exact Hkeys.
  - intros before k v Hin. rewrite substitute_app.
    cbn [substitute fold_left fst snd].
    assert (Hk : In k PLACEHOLDERS).
    { rewrite <- Hkeys. now apply (in_map fst) in Hin. }
    destruct k as [|p pat].
    + exfalso. revert Hk. vm_compute. intuition discriminate.
    + apply replace_split_first.
  - intros before k v after k' -> Hk' Hk Hv.
    rewrite map_app in Hkeys. cbn [map fst] in Hkeys.
    pose proof placeholders_apart as Hap. rewrite <- Hkeys in Hap.
    pose proof (ordered_pairs_split _ _ _ _ Hap) as Hpairs.
    rewrite substitute_app. cbn [substitute fold_left fst snd].
    apply substitute_keeps_contains.
    + intros kv Hkv. apply Hpairs; [exact Hk'|]. now apply in_map.
    + destruct k as [|p pat].
      * exfalso.
        assert (Hin : In [] PLACEHOLDERS).
        { rewrite <- Hkeys. apply in_or_app. right. now left. }
        revert Hin. vm_compute. intuition discriminate.
      * now apply replace_brings_new.
Qed.

(** C3 at a template in which the content quotes the title placeholder:
    the content is the last value, and the token in it is left as it is. *)
Lemma build_article_html_passes_witness :
  let d := sample_draft "a.html" "T" "see {{TITLE}}" None in
  let template := lit "<h1>{{TITLE}}</h1>{{CONTENT}}" in
  exists reps,
    replacements d = Some reps
    /\ build_article_html template d = Some (lit "<h1>T</h1>see {{TITLE}}")
    /\ contains (lit "{{TITLE}}") (substitute reps template) = true.
Proof.
  intros d template.
  destruct (replacements d) as [reps|] eqn:E; [|discriminate E].
  exists reps.
  destruct (@build_article_html_passes template d reps E)
    as (Hhtml & _ & _ & Hkeep).
  split; [reflexivity|]. split.
  - rewrite Hhtml. vm_compute in E. injection E as <-. vm_compute. reflexivity.
  - vm_compute in E. injection E as <-.
    apply (Hkeep [ (lit "{{TITLE}}", lit "T"); (lit "{{DESCRIPTION}}", lit "D");
                   (lit "{{SLUG}}", lit "a.html"); (lit "{{DATE}}", lit "2025-01-01");
                   (lit "{{THUMB}}", lit "t.webp"); (lit "{{THUMB_OG}}", lit "t.webp");
                   (lit "{{TAGLINE}}", lit "Insight Chronicles") ]
                 (lit "{{CONTENT}}") (lit "see {{TITLE}}") []).
    + vm_compute. reflexivity.
    + vm_compute. tauto.
    + vm_compute. reflexivity.
    + vm_compute. reflexivity.
Defined.

(** C3, as the specification states it, fails: with the template
    [{{TITLE}}], the title [{{CONTENT}}] and the content [X], the title
    brings the token [{{CONTENT}}] into the document, the pass of the later
    key [{{CONTENT}}] replaces it, and the output is [X]. *)
Lemma build_article_html_resubstitutes :
  ~ (forall (template : str) (d : draft) (reps : list (str * str))
            (k v k' html : str),
        replacements d = Some reps ->
        In (k, v) reps -> In k' PLACEHOLDERS -> k' <> k ->
        contains k template = true ->
        contains k' v = true ->
        build_article_html template d = Some html ->
        contains k' html = true).
Proof.
  intros H.
  specialize (H (lit "{{TITLE}}") (sample_draft "a.html" "{{CONTENT}}" "X" None)
                _ (lit "{{TITLE}}") (lit "{{CONTENT}}") (lit "{{CONTENT}}") (lit "X")
                eq_refl).
  assert (E : contains (lit "{{CONTENT}}") (lit "X") = true).
  { apply H.
    - vm_compute. tauto.
    - vm_compute. tauto.
    - vm_compute. discriminate.
    - vm_compute. reflexivity.
    - vm_compute. reflexivity.
    - vm_compute. reflexivity. }
  vm_compute in E. discriminate E.
Qed.

(* ================================================================= *)
(** ** The publisher *)

Lemma slug_in_iff (slug : str) (slugs : list (option str)) :
  slug_in slug slugs = true <-> In (Some slug) slugs.
Proof.
  unfold slug_in. rewrite existsb_exists. split.
  - intros ([s|] & Hin & H); [|discriminate].
    apply str_eqb_eq in H. now subst s.
  - intros H. exists (Some slug). split; [exact H|apply str_eqb_refl].
Qed.

Lemma slug_in_false (slug : str) (slugs : list (option str)) :
  slug_in slug slugs = false <-> ~ In (Some slug) slugs.
Proof.
  rewrite <- slug_in_iff. destruct (slug_in slug slugs); split; congruence.
Qed.

Lemma write_file_same (path text : str) (fs : files) :
  write_file path text fs path = Some (encoded text).
Proof. unfold write_file. cbn [file]. now rewrite str_eqb_refl. Qed.

Lemma write_file_other (path text p : str) (fs : files) :
  p <> path -> write_file path text fs p = fs p.
Proof.
  intros H. unfold write_file. cbn [file]. apply str_eqb_neq in H.
  now rewrite H.
Qed.

(** Writes do not change which paths open. *)
Lemma apply_writes_can_open (writes : list (str * str)) (fs : files) :
  can_open (apply_writes writes fs) = can_open fs.
Proof.
  revert fs. induction writes as [|[path text] writes IH]; intros fs.
  - reflexivity.
  - cbn [apply_writes fold_left fst snd].
    change (can_open (apply_writes writes (write_file path text fs))
            = can_open fs).
    now rewrite IH.
Qed.

(** A path that no write names keeps its content. *)
Lemma apply_writes_other (writes : list (str * str)) (fs : files) (p : str) :
  ~ In p (map fst writes) -> apply_writes writes fs p = fs p.
Proof.
  revert fs. induction writes as [|[path content] writes IH]; intros fs H.
  - reflexivity.
  - cbn [apply_writes fold_left fst snd].
    change (apply_writes writes (write_file path content fs) p = fs p).
    rewrite IH.
    + apply write_file_other. intros ->. apply H. now left.
    + intros Hin. apply H. now right.
Qed.

Lemma publish_loop_app (opens : str -> bool) (template : str)
    (existing : list (option str))
    (l1 l2 : list draft) (st : pub_state) :
  publish_loop opens template existing (l1 ++ l2) st =
  match publish_loop opens template existing l1 st with
  | (true, st') => publish_loop opens template existing l2 st'
  | (false, st') => (false, st')
  end.
Proof.
  revert st. induction l1 as [|d l1 IH]; intros st; simpl.
  - reflexivity.
  - destruct (publish_step opens template existing d st); [apply IH|reflexivity].
Qed.

(** A turn of the loop on a draft whose slug is in [existing_slugs] changes
    nothing, whatever else the draft holds or lacks. *)
Lemma publish_step_existing (opens : str -> bool) (template : str)
    (existing : list (option str))
    (d : draft) (slug : str) (st : pub_state) :
  d_slug d = Some slug -> In (Some slug) existing ->
  publish_step opens template existing d st = Some st.
Proof.
  intros Hs Hin. unfold publish_step. rewrite Hs. cbn [bind].
  apply slug_in_iff in Hin. now rewrite Hin.
Qed.

(** What a turn of the loop does to the state: nothing, or one article and
    one write for a slug that is not in [existing_slugs]. *)
Lemma publish_step_inv (opens : str -> bool) (template : str)
    (existing : list (option str))
    (d : draft) (st st' : pub_state) :
  publish_step opens template existing d st = Some st' ->
  st' = st \/
  exists slug html record,
    d_slug d = Some slug /\ ~ In (Some slug) existing
    /\ build_article_html template d = Some html
    /\ article_of_draft d = Some record
    /\ a_slug record = Some slug
    /\ st' = {| st_articles := st_articles st ++ [record];
                st_writes := st_writes st ++ [(slug, html)];
                st_published := S (st_published st) |}.
Proof.
  unfold publish_step. destruct (d_slug d) as [slug|] eqn:Hs; [|discriminate].
  cbn [bind]. destruct (slug_in slug existing) eqn:Hin.
  - intros [= <-]. now left.
  - destruct (build_article_html template d) as [html|]; [|discriminate].
    cbn [bind]. destruct (opens slug); [|discriminate].
    destruct (article_of_draft d) as [record|] eqn:Hr; [|discriminate].
    cbn [bind]. intros [= <-]. right. exists slug, html, record.
    repeat split; try reflexivity.
    + now apply slug_in_false.
    + unfold article_of_draft in Hr. rewrite Hs in Hr.
      destruct (d_title d), (d_desc d), (d_date d), (d_thumb d);
        try discriminate.
      cbn [bind] in Hr. now injection Hr as <-.
Qed.

(** The writes of a run go to slugs that are not in [existing_slugs], and
    the articles it appends carry such slugs. *)
Lemma publish_loop_new_slugs (opens : str -> bool) (template : str)
    (existing : list (option str))
    (drafts : list draft) (st : pub_state) :
  exists records writes,
    st_articles (snd (publish_loop opens template existing drafts st))
      = st_articles st ++ records
    /\ st_writes (snd (publish_loop opens template existing drafts st))
      = st_writes st ++ writes
    /\ map a_slug records = map (fun w => Some (fst w)) writes
    /\ Forall (fun w => ~ In (Some (fst w)) existing) writes.
Proof.
  revert st. induction drafts as [|d drafts IH]; intros st.
  - exists [], []. simpl. rewrite !app_nil_r. repeat split. constructor.
  - cbn [publish_loop].
    destruct (publish_step opens template existing d st) as [st'|] eqn:E.
    + destruct (IH st') as (records & writes & Ha & Hw & Hs & Hn).
      apply publish_step_inv in E as [->|(slug & html & record & E)].
      * now exists records, writes.
      * destruct E as (_ & Hnew & _ & _ & Hslug & ->).
        cbn [st_articles st_writes] in Ha, Hw.
        exists (record :: records), ((slug, html) :: writes).
        rewrite Ha, Hw, <- !app_assoc. repeat split.
        -- cbn [map fst]. now rewrite Hslug, Hs.
        -- now constructor.
    + exists [], []. simpl. rewrite !app_nil_r. repeat split. constructor.
Qed.

(** C5.  A draft whose slug is in the store when the run starts is skipped:
    published alone it leaves the articles as they are, writes no file and
    the call returns 0; in any batch the run is the run of the batch
    without it; and no run writes the file of that slug, so that the file
    keeps its content. *)
Theorem publish_existing_slug_skipped (fs : files) (template : str)
    (articles : list article) (d : draft) (slug : str) :
  load_template fs = Some template ->
  d_slug d = Some slug ->
  In (Some slug) (existing_slugs articles) ->
  publish_drafts fs [d] articles
    = (true, {| st_articles := articles; st_writes := []; st_published := 0 |})
  /\ (forall before after,
        publish_drafts fs (before ++ d :: after) articles
        = publish_drafts fs (before ++ after) articles)
  /\ (forall drafts,
        ~ In slug (map fst (st_writes (snd (publish_drafts fs drafts articles))))
        /\ apply_writes (st_writes (snd (publish_drafts fs drafts articles))) fs slug
           = fs slug).
Proof.
  intros Ht Hs Hin. unfold publish_drafts. rewrite Ht.
  split; [|split].
  - cbn [publish_loop]. now rewrite (publish_step_existing _ _ _ _ _ Hs Hin).
  - intros before after. rewrite !publish_loop_app.
    destruct (publish_loop (can_open fs) template (existing_slugs articles) before _)
      as [[|] st']; [|reflexivity].
    cbn [publish_loop]. now rewrite (publish_step_existing _ _ _ _ _ Hs Hin).
  - intros drafts.
    assert (Hw : ~ In slug (map fst (st_writes (snd
              (publish_loop (can_open fs) template (existing_slugs articles) drafts
                 {| st_articles := articles; st_writes := [];
                    st_published := 0 |}))))).
    { destruct (publish_loop_new_slugs (can_open fs) template (existing_slugs articles) drafts
                  {| st_articles := articles; st_writes := [];
                     st_published := 0 |})
        as (records & writes & _ & Hw & _ & Hn).
      rewrite Hw. cbn [st_writes app]. intros H.
      apply in_map_iff in H as (w & <- & Hwin).
      rewrite Forall_forall in Hn. now apply (Hn w Hwin). }
    split; [exact Hw|]. now apply apply_writes_other.
Qed.

(** C5 on a store that holds the slug [a.html] and a draft of that slug,
    which lacks nothing. *)
Lemma publish_existing_slug_skipped_witness :
  let fs := only_template (lit "{{TITLE}}") in
  let articles := [sample_article "a.html" "2025-01-01" []] in
  let d := sample_draft "a.html" "New title" "<p>new</p>" None in
  publish_drafts fs [d] articles
    = (true, {| st_articles := articles; st_writes := []; st_published := 0 |})
  /\ fs (lit "a.html") = None.
Proof.
  intros fs articles d. split.
  - apply (@publish_existing_slug_skipped fs (lit "{{TITLE}}") articles d
             (lit "a.html")).
    + reflexivity.
    + reflexivity.
    + simpl. left. reflexivity.
  - reflexivity.
Defined.

(** The value of [{{TAGLINE}}]: the default whenever the joined tags are
    the empty string, the joined tags otherwise. *)
Lemma tagline_cases (d : draft) :
  (d_tags d = None \/ d_tags d = Some [] -> tagline d = lit "Insight Chronicles")
  /\ (join (lit ", ") (get (d_tags d) []) = [] ->
      tagline d = lit "Insight Chronicles")
  /\ (join (lit ", ") (get (d_tags d) []) <> [] ->
      tagline d = join (lit ", ") (get (d_tags d) [])).
Proof.
  unfold tagline. repeat split.
  - intros [-> | ->]; reflexivity.
  - intros ->. reflexivity.
  - intros H. destruct (join (lit ", ") (get (d_tags d) [])); [congruence|reflexivity].
Qed.

(** C4, as amended.  For a draft that has its six required keys, whose
    slug is not in the store when the run starts and names a file that
    [open(slug, "w")] opens, a turn of the loop appends one record and
    writes one file, whatever the state of the run; published alone, the
    draft makes the store one article longer and the call returns 1.  The
    template is the text of the template file as it is read, with its
    newlines translated.  The url of the record is the site base, a slash
    and the slug, and its [content_html] is the content of the draft.  The
    file has the path of the slug and holds the template after the eight
    passes, where the value of [{{TAGLINE}}] is the tags joined by a comma
    and a space, or the site default when that string is empty. *)
Theorem publish_new_draft (fs : files) (template : str)
    (articles : list article) (d : draft)
    (title desc slug date thumb content : str) :
  load_template fs = Some template ->
  d_title d = Some title -> d_desc d = Some desc -> d_slug d = Some slug ->
  d_date d = Some date -> d_thumb d = Some thumb ->
  d_content d = Some content ->
  ~ In (Some slug) (existing_slugs articles) ->
  can_open fs slug = true ->
  let html :=
    replace (lit "{{CONTENT}}") content
      (replace (lit "{{TAGLINE}}") (tagline d)
         (replace (lit "{{THUMB_OG}}") (get (d_thumb_og d) thumb)
            (replace (lit "{{THUMB}}") thumb
               (replace (lit "{{DATE}}") date
                  (replace (lit "{{SLUG}}") slug
                     (replace (lit "{{DESCRIPTION}}") desc
                        (replace (lit "{{TITLE}}") title template))))))) in
  let record :=
    {| a_title := Some title; a_slug := Some slug;
       a_url := Some (SITE_URL ++ lit "/" ++ slug);
       a_desc := Some desc; a_date := Some date; a_thumb := Some thumb;
       a_thumb_og := Some (get (d_thumb_og d) thumb);
       a_tags := Some (get (d_tags d) []);
       a_content_html := Some content |} in
  build_article_html template d = Some html
  /\ (forall st,
        publish_step (can_open fs) template (existing_slugs articles) d st
        = Some {| st_articles := st_articles st ++ [record];
                  st_writes := st_writes st ++ [(slug, html)];
                  st_published := S (st_published st) |})
  /\ publish_drafts fs [d] articles
     = (true, {| st_articles := articles ++ [record];
                 st_writes := [(slug, html)];
                 st_published := 1 |})
  /\ List.length (articles ++ [record]) = S (List.length articles)
  /\ apply_writes [(slug, html)] fs slug = Some (encoded html)
  /\ (join (lit ", ") (get (d_tags d) []) = [] ->
      tagline d = lit "Insight Chronicles")
  /\ (join (lit ", ") (get (d_tags d) []) <> [] ->
      tagline d = join (lit ", ") (get (d_tags d) [])).
Proof.
  intros Ht Htitle Hdesc Hslug Hdate Hthumb Hcontent Hnew Hopen html record.
  assert (Hhtml : build_article_html template d = Some html).
  { unfold build_article_html, replacements.
    rewrite Htitle, Hdesc, Hslug, Hdate, Hthumb, Hcontent. reflexivity. }
  assert (Hrec : article_of_draft d = Some record).
  { unfold article_of_draft.
    rewrite Htitle, Hdesc, Hslug, Hdate, Hthumb, Hcontent. reflexivity. }
  assert (Hstep : forall st,
             publish_step (can_open fs) template (existing_slugs articles) d st
             = Some {| st_articles := st_articles st ++ [record];
                       st_writes := st_writes st ++ [(slug, html)];
                       st_published := S (st_published st) |}).
  { intros st. unfold publish_step. rewrite Hslug. cbn [bind].
    apply slug_in_false in Hnew. rewrite Hnew, Hhtml. cbn [bind].
    rewrite Hopen, Hrec. reflexivity. }
  split; [exact Hhtml|]. split; [exact Hstep|]. split; [|split; [|split]].
  - unfold publish_drafts. rewrite Ht. cbn [publish_loop].
    rewrite Hstep. reflexivity.
  - rewrite length_app. simpl. lia.
  - cbn [apply_writes fold_left fst snd]. apply write_file_same.
  - split; apply tagline_cases.
Qed.

(** C4 on the scenario of the specification: an empty store and the draft
    [a.html]. *)
Lemma publish_new_draft_witness :
  let fs := only_template (lit "<h1>{{TITLE}}</h1>{{CONTENT}}") in
  let d := sample_draft "a.html" "T" "<p>x</p>" None in
  exists record,
    publish_drafts fs [d] []
    = (true, {| st_articles := [record];
                st_writes := [(lit "a.html", lit "<h1>T</h1><p>x</p>")];
                st_published := 1 |})
    /\ a_url record = Some (lit "https://insight-chronicles.com/a.html").
Proof.
  intros fs d.
  destruct (@publish_new_draft fs (lit "<h1>{{TITLE}}</h1>{{CONTENT}}") [] d
              (lit "T") (lit "D") (lit "a.html") (lit "2025-01-01")
              (lit "t.webp") (lit "<p>x</p>")
              eq_refl eq_refl eq_refl eq_refl eq_refl eq_refl eq_refl
              (fun H => H) eq_refl)
    as (_ & _ & Hrun & _).
  eexists. split.
  - rewrite Hrun. vm_compute. reflexivity.
  - reflexivity.
Defined.

(** C4, as the specification states it, fails on the tag line: a draft
    whose tags are one empty string has a tag, and its comma-joined tag
    list is the empty string, but the file holds the site default.  At the
    same input, the url of the record is not the site base followed by the
    slug: a slash stands between them.  It fails as well on a draft whose
    slug is the empty string, which is not in the store: [open] raises on
    the empty path, no file is made and no record is appended. *)
Lemma publish_tagline_of_empty_tag :
  let fs := only_template (lit "{{TAGLINE}}") in
  let d := sample_draft "a.html" "T" "x" (Some [ [] ]) in
  let unnamed := sample_draft "" "T" "x" None in
  draft_complete unnamed
  /\ ~ In (d_slug unnamed) (existing_slugs [])
  /\ publish_drafts fs [unnamed] [] = (false, pub_start [])
  /\ d_tags d <> None /\ d_tags d <> Some []
  /\ tagline_spec d = []
  /\ st_writes (snd (publish_drafts fs [d] []))
     = [(lit "a.html", lit "Insight Chronicles")]
  /\ st_writes (snd (publish_drafts fs [d] []))
     <> [(lit "a.html", replace (lit "{{TAGLINE}}") (tagline_spec d) (lit "{{TAGLINE}}"))]
  /\ map a_url (st_articles (snd (publish_drafts fs [d] [])))
     = [Some (lit "https://insight-chronicles.com/a.html")]
  /\ map a_url (st_articles (snd (publish_drafts fs [d] [])))
     <> [Some (SITE_URL ++ lit "a.html")].
Proof.
  intros fs d unnamed.
  split; [repeat split; discriminate|]. split; [intros []|].
  split; [reflexivity|].
  split; [discriminate|]. split; [discriminate|].
  split; [reflexivity|]. split; [vm_compute; reflexivity|].
  split; [vm_compute; discriminate|].
  split; [vm_compute; reflexivity|]. vm_compute. discriminate.
Qed.

(** C1 fails on the code.  [existing_slugs] is taken once, before the loop,
    and the loop does not add to it: of two drafts of a batch with the same
    new slug, neither is skipped.  From an empty store, the run ends with
    two records of the slug [a.html]. *)
Theorem publish_same_slug_twice :
  let fs := only_template (lit "{{TITLE}}") in
  let d1 := sample_draft "a.html" "First" "x" None in
  let d2 := sample_draft "a.html" "Second" "y" None in
  let run := publish_drafts fs [d1; d2] [] in
  fst run = true
  /\ st_published (snd run) = 2
  /\ map a_slug (st_articles (snd run)) = [Some (lit "a.html"); Some (lit "a.html")]
  /\ ~ NoDup (map a_slug (st_articles (snd run)))
  /\ st_writes (snd run) = [(lit "a.html", lit "First"); (lit "a.html", lit "Second")].
Proof.
  intros fs d1 d2 run. repeat split; try (vm_compute; reflexivity).
  intros H. vm_compute in H. inversion H as [|x l Hin _]. apply Hin. now left.
Qed.

(** The slugs of the records a run appends are slugs of its drafts, in
    the order of the drafts, and none is in [existing]. *)
Lemma publish_loop_records (opens : str -> bool) (template : str)
    (existing : list (option str))
    (drafts : list draft) (st : pub_state) :
  exists records,
    st_articles (snd (publish_loop opens template existing drafts st))
      = st_articles st ++ records
    /\ (forall s, In s (map a_slug records) ->
                  In s (map d_slug drafts) /\ ~ In s existing)
    /\ (NoDup (map d_slug drafts) -> NoDup (map a_slug records)).
Proof.
  revert st. induction drafts as [|d drafts IH]; intros st.
  - exists []. simpl. rewrite app_nil_r.
    split; [reflexivity|]. split; [intros s []|]. intros _. constructor.
  - cbn [publish_loop].
    destruct (publish_step opens template existing d st) as [st'|] eqn:E.
    + destruct (IH st') as (records & Ha & Hin & Hnd).
      apply publish_step_inv in E as [->|(slug & html & record & E)].
      * exists records. split; [exact Ha|]. split.
        -- intros s Hs. destruct (Hin s Hs). split; [now right|assumption].
        -- intros H. apply Hnd. now inversion H.
      * destruct E as (Hd & Hnew & _ & _ & Hslug & ->).
        cbn [st_articles] in Ha.
        exists (record :: records). rewrite Ha, <- app_assoc.
        split; [reflexivity|]. cbn [map]. rewrite Hslug, Hd. split.
        -- intros s [<-|Hs].
           ++ split; [now left|exact Hnew].
           ++ destruct (Hin s Hs). split; [now right|assumption].
        -- intros H. inversion H as [|x l Hx Hl]. subst. constructor.
           ++ intros Hs. apply Hx. now apply Hin.
           ++ now apply Hnd.
    + exists []. simpl. rewrite app_nil_r.
    split; [reflexivity|]. split; [intros s []|]. intros _. constructor.
Qed.

(** What the skip of [publish_drafts] does ensure: when the slugs of the
    store are distinct and the drafts of the batch have distinct slugs, the
    slugs of the store are distinct after the run. *)
Lemma publish_keeps_slugs_distinct (fs : files) (drafts : list draft)
    (articles : list article) :
  NoDup (map a_slug articles) ->
  NoDup (map d_slug drafts) ->
  NoDup (map a_slug (st_articles (snd (publish_drafts fs drafts articles)))).
Proof.
  intros Ha Hd. unfold publish_drafts.
  destruct (load_template fs) as [template|]; [|exact Ha].
  destruct (publish_loop_records (can_open fs) template (existing_slugs articles) drafts
              {| st_articles := articles; st_writes := []; st_published := 0 |})
    as (records & -> & Hin & Hnd).
  cbn [st_articles]. rewrite map_app.
  apply NoDup_app; [exact Ha|now apply Hnd|].
  intros s Hs Hr. now apply (Hin s Hr).
Qed.

(* ================================================================= *)
(** ** The order of strings and the sort *)

Lemma ascii_ltb_lt (x y : ascii) :
  Ascii.ltb x y = true <-> (N_of_ascii x < N_of_ascii y)%N.
Proof.
  unfold Ascii.ltb, Ascii.compare, N.lt.
  destruct (N_of_ascii x ?= N_of_ascii y)%N; split; congruence.
Qed.

Lemma ascii_ltb_cases (x y : ascii) :
  (Ascii.ltb x y = true /\ Ascii.ltb y x = false)
  \/ (x = y /\ Ascii.ltb x y = false /\ Ascii.ltb y x = false)
  \/ (Ascii.ltb x y = false /\ Ascii.ltb y x = true).
Proof.
  destruct (N.lt_trichotomy (N_of_ascii x) (N_of_ascii y)) as [H|[H|H]].
  - left. split; [now apply ascii_ltb_lt|].
    apply not_true_is_false. rewrite ascii_ltb_lt. lia.
  - right. left.
    assert (E : x = y).
    { rewrite <- (ascii_N_embedding x), <- (ascii_N_embedding y). now f_equal. }
    subst y. split; [reflexivity|].
    split; apply not_true_is_false; rewrite ascii_ltb_lt; lia.
  - right. right. split; [|now apply ascii_ltb_lt].
    apply not_true_is_false. rewrite ascii_ltb_lt. lia.
Qed.

Lemma ascii_ltb_trans (x y z : ascii) :
  Ascii.ltb x y = true -> Ascii.ltb y z = true -> Ascii.ltb x z = true.
Proof. rewrite !ascii_ltb_lt. lia. Qed.

Lemma str_ltb_irrefl (a : str) : str_ltb a a = false.
Proof.
  induction a as [|x a IH]; simpl; [reflexivity|].
  destruct (ascii_ltb_cases x x) as [[H1 H2]|[(_ & H & _)|[H1 H2]]];
    try congruence.
  now rewrite H.
Qed.

Lemma str_ltb_asym (a b : str) :
  str_ltb a b = true -> str_ltb b a = false.
Proof.
  revert b. induction a as [|x a IH]; intros [|y b]; simpl; try congruence.
  destruct (ascii_ltb_cases x y) as [[H1 H2]|[(_ & H1 & H2)|[H1 H2]]];
    rewrite H1, H2; try congruence.
  apply IH.
Qed.

(** The order is total in this sense: what is below [c] is below [b], or
    [b] is below [c]. *)
Lemma str_ltb_cotrans (a b c : str) :
  str_ltb a c = true -> str_ltb a b = true \/ str_ltb b c = true.
Proof.
  revert b c. induction a as [|x a IH]; intros [|y b] [|z c]; simpl;
    try congruence; try tauto.
  destruct (ascii_ltb_cases x z) as [[Hxz Hzx]|[(-> & Hxz & Hzx)|[Hxz Hzx]]].
  - intros _.
    destruct (ascii_ltb_cases x y) as [[Hxy Hyx]|[(-> & Hxy & Hyx)|[Hxy Hyx]]].
    + left. now rewrite Hxy.
    + right. now rewrite Hxz.
    + right. now rewrite (ascii_ltb_trans _ _ _ Hyx Hxz).
  - rewrite Hxz. intros H.
    destruct (ascii_ltb_cases z y) as [[Hxy Hyx]|[(-> & Hxy & Hyx)|[Hxy Hyx]]].
    + left. now rewrite Hxy.
    + rewrite Hxy. now apply IH.
    + right. now rewrite Hyx.
  - rewrite Hxz, Hzx. discriminate.
Qed.

Lemma str_ltb_trans (a b c : str) :
  str_ltb a b = true -> str_ltb b c = true -> str_ltb a c = true.
Proof.
  intros Hab Hbc.
  destruct (str_ltb_cotrans b a c Hbc) as [H|H]; [|exact H].
  apply str_ltb_asym in Hab. congruence.
Qed.

Section SortedProps.
Variable A : Type.
Variable key : A -> str.

Lemma insert_desc_perm (x : A) (l : list A) :
  Permutation (insert_desc key x l) (x :: l).
Proof.
  induction l as [|y l IH]; simpl.
  - apply Permutation_refl.
  - destruct (str_ltb (key x) (key y)).
    + rewrite IH. apply perm_swap.
    + apply Permutation_refl.
Qed.

Lemma sorted_desc_perm (l : list A) : Permutation (sorted_desc key l) l.
Proof.
  induction l as [|x l IH]; simpl.
  - apply perm_nil.
  - rewrite insert_desc_perm. now apply perm_skip.
Qed.

Lemma insert_desc_sorted (x : A) (l : list A) :
  StronglySorted (desc key) l -> StronglySorted (desc key) (insert_desc key x l).
Proof.
  induction l as [|y l IH]; intros Hl; simpl.
  - repeat constructor.
  - inversion Hl as [|y' l' Hs Hall]; subst.
    destruct (str_ltb (key x) (key y)) eqn:E.
    + constructor; [now apply IH|].
      apply (Permutation_Forall (Permutation_sym (insert_desc_perm x l))).
      constructor; [|exact Hall].
      unfold desc. now apply str_ltb_asym.
    + constructor; [exact Hl|].
      constructor; [exact E|].
      apply Forall_forall. intros z Hz. rewrite Forall_forall in Hall.
      specialize (Hall z Hz). unfold desc in *.
      destruct (str_ltb (key x) (key z)) eqn:Ez; [|reflexivity].
      destruct (str_ltb_cotrans _ (key y) _ Ez); congruence.
Qed.

Lemma sorted_desc_sorted (l : list A) : StronglySorted (desc key) (sorted_desc key l).
Proof.
  induction l as [|x l IH]; simpl.
  - constructor.
  - now apply insert_desc_sorted.
Qed.

(** The sort is stable: the elements of a given key stand in the order
    they have in the input. *)
Lemma insert_desc_stable (k : str) (x : A) (l : list A) :
  filter (fun a => str_eqb (key a) k) (insert_desc key x l)
  = filter (fun a => str_eqb (key a) k) (x :: l).
Proof.
  induction l as [|y l IH]; [reflexivity|].
  cbn [insert_desc]. destruct (str_ltb (key x) (key y)) eqn:E; [|reflexivity].
  cbn [filter] in *. rewrite IH.
  destruct (str_eqb (key x) k) eqn:Ex; [|reflexivity].
  destruct (str_eqb (key y) k) eqn:Ey; [|reflexivity].
  apply str_eqb_eq in Ex, Ey. rewrite Ex, Ey, str_ltb_irrefl in E. discriminate.
Qed.

Lemma sorted_desc_stable (k : str) (l : list A) :
  filter (fun a => str_eqb (key a) k) (sorted_desc key l)
  = filter (fun a => str_eqb (key a) k) l.
Proof.
  induction l as [|x l IH]; [reflexivity|].
  cbn [sorted_desc fold_right]. rewrite insert_desc_stable.
  cbn [filter]. fold (sorted_desc key l). now rewrite IH.
Qed.

Lemma strongly_sorted_nth (l : list A) (i j : nat) (a b : A) :
  StronglySorted (desc key) l ->
  nth_error l i = Some a -> nth_error l j = Some b -> i < j -> desc key a b.
Proof.
  intros Hl. revert i j. induction Hl as [|x l Hl IH Hall]; intros i j Hi Hj Hij.
  - destruct i; discriminate.
  - destruct j as [|j]; [lia|]. destruct i as [|i]; simpl in Hi, Hj.
    + injection Hi as <-. rewrite Forall_forall in Hall. apply Hall.
      now apply nth_error_In in Hj.
    + apply (IH i j Hi Hj). lia.
Qed.

(** In the sorted list, an element of a greater key stands before one of a
    smaller key. *)
Lemma sorted_desc_order (l : list A) (i j : nat) (a b : A) :
  nth_error (sorted_desc key l) i = Some a ->
  nth_error (sorted_desc key l) j = Some b ->
  str_ltb (key b) (key a) = true ->
  i < j.
Proof.
  intros Hi Hj Hlt.
  destruct (Nat.lt_trichotomy i j) as [H|[H|H]]; [exact H| |].
  - subst j. rewrite Hi in Hj. injection Hj as <-.
    rewrite str_ltb_irrefl in Hlt. discriminate.
  - pose proof (strongly_sorted_nth (sorted_desc_sorted l) Hj Hi H) as Hd.
    unfold desc in Hd. congruence.
Qed.
End SortedProps.

(* ================================================================= *)
(** ** Loops that may raise *)

Lemma traverse_Forall2 {A B : Type} (f : A -> option B) (l : list A)
    (ys : list B) :
  traverse f l = Some ys <-> Forall2 (fun x y => f x = Some y) l ys.
Proof.
  revert ys. induction l as [|x l IH]; intros ys; simpl.
  - split.
    + intros [= <-]. constructor.
    + intros H. now inversion H.
  - split.
    + destruct (f x) as [y|] eqn:E; [|discriminate]. cbn [bind].
      destruct (traverse f l) as [ys'|]; [|discriminate]. cbn [bind].
      intros [= <-]. constructor; [exact E|]. now apply IH.
    + intros H. inversion H as [|x' y l' ys' Hx Hl]; subst.
      rewrite Hx. cbn [bind]. apply IH in Hl. now rewrite Hl.
Qed.

Lemma traverse_total {A B : Type} (f : A -> option B) (l : list A) :
  Forall (fun x => f x <> None) l -> exists ys, traverse f l = Some ys.
Proof.
  induction 1 as [|x l Hx Hl [ys IH]]; simpl.
  - now exists [].
  - destruct (f x) as [y|]; [|congruence].
    exists (y :: ys). now rewrite IH.
Qed.

Lemma Forall2_nth_error {A B : Type} (R : A -> B -> Prop) (l : list A)
    (l' : list B) (i : nat) (a : A) :
  Forall2 R l l' -> nth_error l i = Some a ->
  exists b, nth_error l' i = Some b /\ R a b.
Proof.
  intros H. revert i. induction H as [|x y l l' Hxy Hl IH]; intros i Hi.
  - destruct i; discriminate.
  - destruct i as [|i]; simpl in *.
    + injection Hi as <-. now exists y.
    + now apply IH.
Qed.

Lemma Forall2_In_r {A B : Type} (R : A -> B -> Prop) (l : list A)
    (l' : list B) (b : B) :
  Forall2 R l l' -> In b l' -> exists a, In a l /\ R a b.
Proof.
  induction 1 as [|x y l l' Hxy Hl IH]; intros Hin.
  - destruct Hin.
  - destruct Hin as [<-|Hin].
    + exists x. split; [now left|exact Hxy].
    + destruct (IH Hin) as (a & Ha & HR). exists a. split; [now right|exact HR].
Qed.

Lemma In_firstn {A : Type} (n : nat) (l : list A) (x : A) :
  In x (firstn n l) -> In x l.
Proof.
  revert l. induction n as [|n IH]; intros [|y l]; simpl; try tauto.
  intros [H|H]; [now left|right; now apply IH].
Qed.

(** A list around two of its positions. *)
Lemma nth_error_two {A : Type} (l : list A) (i j : nat) (a b : A) :
  nth_error l i = Some a -> nth_error l j = Some b -> i < j ->
  exists l1 l2 l3,
    l = l1 ++ a :: l2 ++ b :: l3
    /\ List.length l1 = i /\ List.length l2 = j - S i.
Proof.
  intros Hi Hj Hij.
  destruct (nth_error_split l i Hi) as (l1 & l' & -> & Hl1).
  rewrite nth_error_app2 in Hj by lia. rewrite Hl1 in Hj.
  destruct (j - i) as [|k] eqn:Ek; [lia|]. simpl in Hj.
  destruct (nth_error_split l' k Hj) as (l2 & l3 & -> & Hl2).
  exists l1, l2, l3. repeat split; [exact Hl1|lia].
Qed.

(* ================================================================= *)
(** ** The category pages *)

Lemma has_tag_iff (tag_name : str) (a : article) :
  has_tag tag_name a = true <-> In tag_name (get (a_tags a) []).
Proof.
  unfold has_tag. rewrite existsb_exists. split.
  - intros (t & Hin & H). apply str_eqb_eq in H. now subst t.
  - intros H. exists tag_name. split; [exact H|apply str_eqb_refl].
Qed.

(** C2, as amended.  An article is on the page of a category exactly when
    the key of the category is one of its tags, as a whole string; the
    articles of the page are sorted by descending date, each as often as
    the store has it; and the page is the shell around the cards of these
    articles, or around the placeholder when there is none. *)
Theorem category_page_members (tag_name : str) (info : category)
    (articles : list article) :
  (forall a, In a (category_articles tag_name articles)
             <-> In a articles /\ In tag_name (get (a_tags a) []))
  /\ Permutation (category_articles tag_name articles)
       (filter (has_tag tag_name) articles)
  /\ StronglySorted (desc date_key) (category_articles tag_name articles)
  /\ (forall i j a b,
        nth_error (category_articles tag_name articles) i = Some a ->
        nth_error (category_articles tag_name articles) j = Some b ->
        str_ltb (date_key b) (date_key a) = true -> i < j)
  /\ (forall page,
        make_category_page tag_name info articles = Some page ->
        exists cards,
          Forall2 (fun a card => category_card a = Some card)
            (category_articles tag_name articles) cards
          /\ page = category_page_shell info (category_cards_html cards)
          /\ (category_articles tag_name articles = [] ->
              page = category_page_shell info NO_ARTICLES))
  /\ ((forall a, In a articles -> In tag_name (get (a_tags a) []) ->
                 has_title_slug a) ->
      make_category_page tag_name info articles <> None).
Proof.
  assert (Hperm : Permutation (category_articles tag_name articles)
                    (filter (has_tag tag_name) articles))
    by apply sorted_desc_perm.
  assert (Hmem : forall a, In a (category_articles tag_name articles)
                           <-> In a articles /\ In tag_name (get (a_tags a) [])).
  { intros a. rewrite <- has_tag_iff, <- filter_In. split.
    - apply Permutation_in. exact Hperm.
    - apply Permutation_in. now apply Permutation_sym. }
  split; [exact Hmem|]. split; [exact Hperm|].
  split; [apply sorted_desc_sorted|].
  split; [intros i j a b; apply sorted_desc_order|].
  split.
  - intros page H. unfold make_category_page in H.
    destruct (traverse category_card (category_articles tag_name articles))
      as [cards|] eqn:E; [|discriminate].
    injection H as <-. exists cards.
    apply traverse_Forall2 in E. split; [exact E|]. split; [reflexivity|].
    intros Hnil. rewrite Hnil in E. inversion E. reflexivity.
  - intros Hwf. unfold make_category_page.
    destruct (traverse_total category_card
                (l := category_articles tag_name articles)) as [cards ->].
    + apply Forall_forall. intros a Ha. apply Hmem in Ha as [Ha Ht].
      destruct (Hwf a Ha Ht) as [H1 H2]. unfold category_card.
      destruct (a_title a); [|congruence]. destruct (a_slug a); [|congruence].
      discriminate.
    + discriminate.
Qed.

(** C2, as the specification states it in its section 3, fails: the key
    [History] is a substring of the tag [World History], and the tag [Hist]
    is a substring of the key, but the article is not on the page, which
    shows the placeholder. *)
Lemma category_page_substring_counterexample :
  let a := sample_article "a.html" "2025-01-01" [lit "World History"; lit "Hist"] in
  existsb (contains (lit "History")) (get (a_tags a) []) = true
  /\ existsb (fun t => contains t (lit "History")) (get (a_tags a) []) = true
  /\ ~ In a (category_articles (lit "History") [a])
  /\ make_category_page (lit "History") HISTORY [a]
     = Some (category_page_shell HISTORY NO_ARTICLES).
Proof.
  intros a. split; [vm_compute; reflexivity|].
  split; [vm_compute; reflexivity|].
  split.
  - intros H. vm_compute in H. exact H.
  - vm_compute. reflexivity.
Qed.

(* ================================================================= *)
(** ** The articles page *)

Lemma articles_card_total (a : article) :
  has_title_slug a -> articles_card a <> None.
Proof.
  intros [H1 H2]. unfold articles_card.
  destruct (a_title a); [|congruence]. destruct (a_slug a); [|congruence].
  discriminate.
Qed.

(** C6.  The articles page of a store whose articles have a title and a
    slug is the head of the page, the cards of the articles in the order of
    the sort, and the tail.  Every article has its card, as often as it is
    in the store.  When the date of [A] is above the date of [B], the card of
    [A] is at an earlier position than the card of [B], and in the document
    the card of [A] ends before the card of [B] starts. *)
Theorem articles_page_order (articles : list article) :
  Forall has_title_slug articles ->
  exists cards,
    make_articles_page articles
    = Some (articles_page_head ++ List.concat cards ++ articles_page_tail)
    /\ Forall2 (fun a card => articles_card a = Some card)
         (sorted_by_date articles) cards
    /\ Permutation (sorted_by_date articles) articles
    /\ forall i j A B,
         nth_error (sorted_by_date articles) i = Some A ->
         nth_error (sorted_by_date articles) j = Some B ->
         str_ltb (date_key B) (date_key A) = true ->
         i < j
         /\ exists cardA cardB before between after,
              articles_card A = Some cardA /\ articles_card B = Some cardB
              /\ nth_error cards i = Some cardA
              /\ nth_error cards j = Some cardB
              /\ List.length before = i
              /\ cards = before ++ cardA :: between ++ cardB :: after
              /\ articles_page_head ++ List.concat cards ++ articles_page_tail
                 = (articles_page_head ++ List.concat before)
                   ++ cardA ++ List.concat between
                   ++ cardB ++ (List.concat after ++ articles_page_tail).
Proof.
  intros Hwf.
  assert (Hperm : Permutation (sorted_by_date articles) articles)
    by apply sorted_desc_perm.
  destruct (traverse_total articles_card (l := sorted_by_date articles))
    as [cards Hcards].
  { apply (Permutation_Forall (Permutation_sym Hperm)).
    apply Forall_forall. intros a Ha. apply articles_card_total.
    rewrite Forall_forall in Hwf. now apply Hwf. }
  exists cards. split.
  { unfold make_articles_page. rewrite Hcards. reflexivity. }
  apply traverse_Forall2 in Hcards.
  split; [exact Hcards|]. split; [exact Hperm|].
  intros i j A B Hi Hj Hlt.
  pose proof (sorted_desc_order _ _ _ _ Hi Hj Hlt) as Hij.
  split; [exact Hij|].
  destruct (Forall2_nth_error i Hcards Hi) as (cardA & HcA & HA).
  destruct (Forall2_nth_error j Hcards Hj) as (cardB & HcB & HB).
  destruct (@nth_error_two _ _ _ _ _ _ HcA HcB Hij) as (before & between & after & E & Hb & _).
  exists cardA, cardB, before, between, after.
  repeat (split; [assumption|]).
  rewrite E at 1. rewrite concat_app. cbn [List.concat].
  rewrite concat_app. cbn [List.concat].
  now rewrite <- !app_assoc.
Qed.

(** C6 on a store of two articles, the older one first in the store. *)
Lemma articles_page_order_witness :
  let older := sample_article "old.html" "2024-12-31" [] in
  let newer := sample_article "new.html" "2025-01-01" [] in
  Forall has_title_slug [older; newer]
  /\ sorted_by_date [older; newer] = [newer; older]
  /\ exists cards,
       make_articles_page [older; newer]
       = Some (articles_page_head ++ List.concat cards ++ articles_page_tail)
       /\ Forall2 (fun a card => articles_card a = Some card) [newer; older] cards.
Proof.
  intros older newer.
  assert (Hwf : Forall has_title_slug [older; newer]).
  { repeat constructor; discriminate. }
  split; [exact Hwf|]. split; [vm_compute; reflexivity|].
  destruct (articles_page_order Hwf) as (cards & Hpage & Hcards & _).
  exists cards. split; [exact Hpage|exact Hcards].
Defined.

(* ================================================================= *)
(** ** Counting the occurrences of a tag in a document *)

Lemma startswith_app_r (pat a b : str) :
  startswith pat (a ++ b) = true -> startswith pat a = true.
Proof.
  intros H. apply startswith_iff in H as [t ->].
  rewrite <- app_assoc. apply startswith_app.
Qed.

Lemma occurrences_app (pat a b : str) :
  no_straddle pat a = true ->
  occurrences pat (a ++ b) = occurrences pat a + occurrences pat b.
Proof.
  induction a as [|c a IH]; intros H.
  - reflexivity.
  - cbn [no_straddle] in H. apply andb_true_iff in H as [Hc Ha].
    apply negb_true_iff in Hc.
    change ((c :: a) ++ b) with (c :: (a ++ b)). cbn [occurrences].
    rewrite (IH Ha), Nat.add_assoc. f_equal.
    change (c :: a ++ b) with ((c :: a) ++ b).
    destruct (startswith (c :: a) pat) eqn:E.
    + now rewrite (startswith_app_l _ b _ E).
    + destruct (startswith ((c :: a) ++ b) pat) eqn:E'; [|reflexivity].
      apply startswith_app_inv in E' as [E'|[E' Hl]]; [congruence|].
      apply Nat.ltb_lt in Hl. rewrite E', Hl in Hc. discriminate.
Qed.

Lemma no_straddle_app (pat a b : str) :
  no_straddle pat a = true -> no_straddle pat b = true ->
  no_straddle pat (a ++ b) = true.
Proof.
  intros Ha Hb. induction a as [|c a IH]; [exact Hb|].
  cbn [no_straddle] in Ha. apply andb_true_iff in Ha as [Hc Ha].
  apply negb_true_iff in Hc.
  change ((c :: a) ++ b) with (c :: (a ++ b)). cbn [no_straddle].
  rewrite (IH Ha), andb_true_r. apply negb_true_iff.
  change (c :: a ++ b) with ((c :: a) ++ b).
  destruct (startswith pat ((c :: a) ++ b)) eqn:E; [|reflexivity].
  apply startswith_app_r in E. rewrite E in Hc. cbn [andb] in *.
  apply Nat.ltb_ge in Hc. apply Nat.ltb_ge. rewrite length_app. lia.
Qed.

Lemma counts_app (pat : str) (n m : nat) (a b : str) :
  counts pat n a -> counts pat m b -> counts pat (n + m) (a ++ b).
Proof.
  intros [Ha Hn] [Hb Hm]. split.
  - now apply no_straddle_app.
  - rewrite occurrences_app by exact Ha. now rewrite Hn, Hm.
Qed.

Lemma counts_nil (pat : str) : counts pat 0 [].
Proof. now split. Qed.

(** A closed text: both parts of [counts] are computed. *)
Lemma counts_literal (pat a : str) :
  no_straddle pat a = true -> counts pat (occurrences pat a) a.
Proof. now split. Qed.

(** A text without the first character of [pat]. *)
Lemma counts_free (p : ascii) (pat a : str) :
  ~ In p a -> counts (p :: pat) 0 a.
Proof.
  induction a as [|c a IH]; intros H; [apply counts_nil|].
  destruct IH as [IH1 IH2]; [intros Hin; apply H; now right|].
  assert (Hc : c <> p) by (intros ->; apply H; now left).
  split.
  - cbn [no_straddle]. rewrite IH1, andb_true_r. apply negb_true_iff.
    apply andb_false_iff. left. simpl.
    apply andb_false_iff. left. apply Ascii.eqb_neq. congruence.
  - cbn [occurrences]. rewrite IH2, (startswith_cons_neq _ _ Hc). reflexivity.
Qed.

(** An escaped text holds no tag. *)
Lemma counts_escape (pat s : str) :
  hd_error pat = Some LT -> counts pat 0 (escape s).
Proof.
  destruct pat as [|p pat]; [discriminate|]. intros [= ->].
  apply counts_free, escape_no_lt.
Qed.

Lemma counts_concat (pat : str) (n : nat) (l : list str) :
  Forall (counts pat n) l -> counts pat (n * List.length l) (List.concat l).
Proof.
  induction 1 as [|x l Hx Hl IH]; cbn [List.concat List.length].
  - rewrite Nat.mul_0_r. apply counts_nil.
  - rewrite Nat.mul_succ_r, Nat.add_comm. now apply counts_app.
Qed.

Lemma counts_join (pat sep : str) (n : nat) (l : list str) :
  counts pat 0 sep -> Forall (counts pat n) l ->
  counts pat (n * List.length l) (join sep l).
Proof.
  intros Hsep. induction 1 as [|x l Hx Hl IH].
  - rewrite Nat.mul_0_r. apply counts_nil.
  - cbn [List.length]. rewrite Nat.mul_succ_r, Nat.add_comm.
    destruct l as [|y l].
    + cbn [join List.length]. rewrite Nat.mul_0_r, Nat.add_0_r. exact Hx.
    + change (join sep (x :: y :: l)) with (x ++ sep ++ join sep (y :: l)).
      apply counts_app; [exact Hx|].
      change (n * List.length (y :: l)) with (0 + n * List.length (y :: l)).
      now apply counts_app.
Qed.

Lemma counts_eq (pat : str) (n k : nat) (a : str) :
  counts pat n a -> n = k -> counts pat k a.
Proof. now intros H <-. Qed.

Lemma counts_occurrences (pat : str) (n k : nat) (a : str) :
  counts pat n a -> n = k -> occurrences pat a = k.
Proof. intros [_ H] <-. exact H. Qed.

(** The count of a concatenation of closed texts, escaped texts and texts
    whose count is known. *)
Ltac counts_closed :=
  eapply counts_eq;
  [ apply counts_literal; vm_compute; reflexivity | vm_compute; reflexivity ].

Ltac counts_leaf :=
  lazymatch goal with
  | |- counts _ _ (escape _) => apply counts_escape; reflexivity
  | |- counts _ _ (lit _) => counts_closed
  | |- counts _ _ (qlit _) => counts_closed
  | |- _ => first [ eassumption | counts_closed ]
  end.

Ltac counts_tree :=
  lazymatch goal with
  | |- counts _ _ (_ ++ _) => eapply counts_app; [counts_tree|counts_tree]
  | |- _ => counts_leaf
  end.

(* ================================================================= *)
(** ** The sitemap *)

(** The terms of the documents stay as the definitions write them: the
    equation of two results is opened without computing in them. *)
Lemma Some_eq {A : Type} (x y : A) : Some x = Some y -> x = y.
Proof. congruence. Qed.

Lemma sitemap_article_counts (a : article) (entry : str) :
  sitemap_article a = Some entry -> counts URL_OPEN 1 entry.
Proof.
  unfold sitemap_article. destruct (a_url a) as [url|]; [|discriminate].
  cbn [bind]. intros H. apply Some_eq in H. subst entry.
  eapply counts_eq; [counts_tree|vm_compute; reflexivity].
Qed.

Lemma sitemap_static_counts :
  Forall (counts URL_OPEN 1) (sitemap_fixed ++ map sitemap_category CATEGORIES).
Proof.
  repeat constructor; vm_compute; reflexivity.
Qed.

(** C7.  The sitemap of a store whose articles have a url holds the three
    fixed entries, one entry per category and, after them, one entry per
    article, in the order of the sort by descending date; the tag [<url>]
    occurs in the document once per entry, that is 3 + the number of
    categories + the number of articles times. *)
Theorem make_sitemap_entries (articles : list article) :
  Forall has_url articles ->
  exists entries doc,
    sitemap_urls articles
    = Some (sitemap_fixed ++ map sitemap_category CATEGORIES ++ entries)
    /\ make_sitemap articles = Some doc
    /\ Forall2 (fun a entry => sitemap_article a = Some entry)
         (sorted_by_date articles) entries
    /\ Permutation (sorted_by_date articles) articles
    /\ StronglySorted (desc date_key) (sorted_by_date articles)
    /\ List.length sitemap_fixed = 3
    /\ List.length entries = List.length articles
    /\ occurrences URL_OPEN doc
       = 3 + List.length CATEGORIES + List.length articles.
Proof.
  intros Hwf.
  assert (Hperm : Permutation (sorted_by_date articles) articles)
    by apply sorted_desc_perm.
  destruct (traverse_total sitemap_article (l := sorted_by_date articles))
    as [entries Hentries].
  { apply (Permutation_Forall (Permutation_sym Hperm)).
    apply Forall_forall. intros a Ha. rewrite Forall_forall in Hwf.
    specialize (Hwf a Ha). unfold has_url in Hwf. unfold sitemap_article.
    destruct (a_url a); [discriminate|congruence]. }
  assert (Hurls : sitemap_urls articles
                  = Some (sitemap_fixed ++ map sitemap_category CATEGORIES ++ entries)).
  { unfold sitemap_urls. now rewrite Hentries. }
  pose proof Hentries as Hall. apply traverse_Forall2 in Hall.
  assert (Hlen : List.length entries = List.length articles).
  { rewrite <- (Forall2_length Hall). now apply Permutation_length. }
  eexists entries, _. split; [exact Hurls|].
  split; [unfold make_sitemap; rewrite Hurls; reflexivity|].
  split; [exact Hall|]. split; [exact Hperm|].
  split; [apply sorted_desc_sorted|]. split; [reflexivity|].
  split; [exact Hlen|].
  assert (Hcount : counts URL_OPEN
                     (1 * List.length (sitemap_fixed
                          ++ map sitemap_category CATEGORIES ++ entries))
                     (join nl (sitemap_fixed
                          ++ map sitemap_category CATEGORIES ++ entries))).
  { apply counts_join.
    - split; vm_compute; reflexivity.
    - rewrite app_assoc. apply Forall_app. split.
      + apply sitemap_static_counts.
      + apply Forall_forall. intros entry Hin.
        destruct (@Forall2_In_r _ _ _ _ _ _ Hall Hin) as (a & _ & Ha).
        now apply (sitemap_article_counts a). }
  eapply counts_occurrences.
  - counts_tree.
  - rewrite !length_app, length_map, Hlen.
    change (List.length sitemap_fixed) with 3.
    change (List.length CATEGORIES) with 4. lia.
Qed.

(** C7 on a store of two articles: nine entries. *)
Lemma make_sitemap_entries_witness :
  let articles := [ sample_article "a.html" "2025-01-01" [];
                    sample_article "b.html" "2025-02-01" [] ] in
  Forall has_url articles
  /\ exists doc,
       make_sitemap articles = Some doc
       /\ occurrences URL_OPEN doc = 9.
Proof.
  intros articles.
  assert (Hwf : Forall has_url articles) by (repeat constructor; discriminate).
  split; [exact Hwf|].
  destruct (make_sitemap_entries Hwf)
    as (entries & doc & _ & Hdoc & _ & _ & _ & _ & _ & Hcount).
  exists doc. split; [exact Hdoc|exact Hcount].
Defined.

(* ================================================================= *)
(** ** The homepage cards *)

Lemma counts_join_map {A : Type} (pat sep : str) (f : A -> nat)
    (l : list A) (blocks : list str) :
  counts pat 0 sep ->
  Forall2 (fun a block => counts pat (f a) block) l blocks ->
  counts pat (list_sum (map f l)) (join sep blocks).
Proof.
  intros Hsep. induction 1 as [|a block l blocks Hb Hl IH].
  - apply counts_nil.
  - change (list_sum (map f (a :: l))) with (f a + list_sum (map f l)).
    destruct Hl as [|a' block' l blocks Hb' Hl].
    + change (list_sum (map f [])) with 0. rewrite Nat.add_0_r. exact Hb.
    + change (join sep (block :: block' :: blocks))
        with (block ++ sep ++ join sep (block' :: blocks)).
      apply counts_app; [exact Hb|].
      change (list_sum (map f (a' :: l)))
        with (0 + list_sum (map f (a' :: l))).
      apply counts_app; [exact Hsep|exact IH].
Qed.

Lemma tag_span_counts (t : str) : counts TAG_OPEN 1 (tag_span t).
Proof.
  unfold tag_span, TAG_OPEN.
  eapply counts_eq; [counts_tree|vm_compute; reflexivity].
Qed.

(** The spans of a card are those of the first three tags. *)
Lemma homepage_tag_spans_counts (tags : list str) :
  counts TAG_OPEN (Nat.min 3 (List.length tags)) (homepage_tag_spans tags).
Proof.
  unfold homepage_tag_spans.
  eapply counts_eq.
  - apply counts_concat with (n := 1). apply Forall_forall.
    intros s Hs. apply in_map_iff in Hs as (t & <- & _). apply tag_span_counts.
  - rewrite length_map, length_firstn. lia.
Qed.

Lemma homepage_card_counts (a : article) (card : str) :
  homepage_card a = Some card ->
  counts TAG_OPEN (Nat.min 3 (List.length (tags_of a))) card
  /\ exists before after,
       card = before ++ List.concat (map tag_span (firstn 3 (tags_of a))) ++ after
       /\ occurrences TAG_OPEN before = 0
       /\ occurrences TAG_OPEN after = 0.
Proof.
  unfold homepage_card, tags_of.
  destruct (a_title a) as [title|]; [|discriminate].
  destruct (a_slug a) as [slug|]; [|discriminate].
  cbn [bind option_map]. cbv zeta. intros H. apply Some_eq in H. subst card.
  pose proof (homepage_tag_spans_counts (get (a_tags a) [])) as Hspans.
  assert (Hopen : counts TAG_OPEN 0
            (homepage_card_open (escape slug)
               (escape (get (a_thumb a) (lit "images/upi.webp"))) (escape title))).
  { unfold homepage_card_open. eapply counts_eq; [counts_tree|reflexivity]. }
  assert (Hclose : counts TAG_OPEN 0
            (homepage_card_close (escape slug) (escape title)
               (escape (get (a_date a) [])) (escape (get (a_desc a) [])))).
  { unfold homepage_card_close. eapply counts_eq; [counts_tree|reflexivity]. }
  split.
  - eapply counts_eq; [counts_tree|lia].
  - eexists _, _. split; [reflexivity|]. split.
    + apply Hopen.
    + apply Hclose.
Qed.

(** C10.  The homepage fragment of a store whose articles have a title and
    a slug is the blocks of the first [limit] articles of the sort, joined
    by newlines.  The block of an article holds the spans of the first three
    of its tags and no other tag span: the opening tag of a span occurs in
    it [min 3 n] times for an article of [n] tags. *)
Theorem homepage_cards_three_tags (articles : list article) (limit : nat) :
  Forall has_title_slug articles ->
  exists blocks,
    make_homepage_cards articles limit = Some (join nl blocks)
    /\ Forall2
         (fun a block =>
            homepage_card a = Some block
            /\ occurrences TAG_OPEN block = Nat.min 3 (List.length (tags_of a))
            /\ exists before after,
                 block = before
                         ++ List.concat (map tag_span (firstn 3 (tags_of a)))
                         ++ after
                 /\ occurrences TAG_OPEN before = 0
                 /\ occurrences TAG_OPEN after = 0)
         (firstn limit (sorted_by_date articles)) blocks
    /\ occurrences TAG_OPEN (join nl blocks)
       = list_sum (map (fun a => Nat.min 3 (List.length (tags_of a)))
                     (firstn limit (sorted_by_date articles))).
Proof.
  intros Hwf.
  assert (Hperm : Permutation (sorted_by_date articles) articles)
    by apply sorted_desc_perm.
  destruct (traverse_total homepage_card
              (l := firstn limit (sorted_by_date articles))) as [blocks Hblocks].
  { apply Forall_forall. intros a Ha.
    assert (Hin : In a articles).
    { apply (Permutation_in _ Hperm). now apply In_firstn in Ha. }
    rewrite Forall_forall in Hwf. destruct (Hwf a Hin) as [H1 H2].
    unfold homepage_card.
    destruct (a_title a); [|congruence]. destruct (a_slug a); [|congruence].
    discriminate. }
  exists blocks. split.
  { unfold make_homepage_cards. cbv zeta. now rewrite Hblocks. }
  apply traverse_Forall2 in Hblocks. split.
  - eapply Forall2_impl; [|exact Hblocks].
    intros a block H. split; [exact H|].
    destruct (homepage_card_counts a H) as [[_ Hn] Hsplit].
    split; [exact Hn|exact Hsplit].
  - eapply counts_occurrences; [|reflexivity].
    apply counts_join_map.
    + split; vm_compute; reflexivity.
    + eapply Forall2_impl; [|exact Hblocks].
      intros a block H. now apply homepage_card_counts.
Qed.

(** C10 on an article of four tags: three spans. *)
Lemma homepage_cards_three_tags_witness :
  let articles :=
    [sample_article "a.html" "2025-01-01" [lit "a"; lit "b"; lit "c"; lit "d"]] in
  Forall has_title_slug articles
  /\ exists fragment,
       make_homepage_cards articles 6 = Some fragment
       /\ occurrences TAG_OPEN fragment = 3.
Proof.
  intros articles.
  assert (Hwf : Forall has_title_slug articles).
  { repeat constructor; discriminate. }
  split; [exact Hwf|].
  destruct (homepage_cards_three_tags 6 Hwf) as (blocks & Hfrag & _ & Hcount).
  exists (join nl blocks). split; [exact Hfrag|].
  rewrite Hcount. vm_compute. reflexivity.
Defined.

(* ================================================================= *)
(** ** The RSS feed *)

Section RssProps.
Variable datetime : Type.
Variable strptime : str -> option datetime.
Variable strftime : datetime -> option str.
Variable now : str.

(** The date of an item is the formatted date when the date of the article
    parses and formats, and [now] when it does not parse. *)
Lemma pub_date_rss_cases (pub_date : str) :
  (forall d formatted,
      strptime pub_date = Some d -> strftime d = Some formatted ->
      pub_date_rss strptime strftime now pub_date = formatted)
  /\ (strptime pub_date = None ->
      pub_date_rss strptime strftime now pub_date = now)
  /\ (forall d,
      strptime pub_date = Some d -> strftime d = None ->
      pub_date_rss strptime strftime now pub_date = now).
Proof.
  unfold pub_date_rss. repeat split.
  - intros d formatted -> . cbn [bind]. now intros ->.
  - now intros ->.
  - intros d ->. cbn [bind]. now intros ->.
Qed.

Lemma rss_item_total (a : article) :
  has_title_url a ->
  rss_item strptime strftime now a
  = Some (rss_item_open (escape (get (a_title a) [])) (escape (get (a_url a) []))
            (escape (get (a_desc a) (lit "New article on Insight Chronicles.")))
          ++ pub_date_rss strptime strftime now (date_key a)
          ++ RSS_ITEM_CLOSE).
Proof.
  intros [H1 H2]. unfold rss_item, date_key.
  destruct (a_title a); [|congruence]. destruct (a_url a); [|congruence].
  reflexivity.
Qed.

(** C8.  The feed of a store whose articles have a title and a url is
    produced whatever their dates are: no date makes [make_rss] raise.  It
    is the head of the feed, the items of the articles in the order of the
    sort, and the tail.  The text between [<pubDate>] and [</pubDate>] of an
    item is the date of the article, parsed by [strptime] and formatted by
    [strftime], and it is [now], the time in [<lastBuildDate>], when the
    date does not parse. *)
Theorem make_rss_pub_dates (articles : list article) :
  Forall has_title_url articles ->
  exists items,
    make_rss strptime strftime now articles
    = Some (rss_head now ++ List.concat items ++ RSS_TAIL)
    /\ Forall2
         (fun a item =>
            rss_item strptime strftime now a = Some item
            /\ (exists title link desc,
                  item = rss_item_open title link desc
                         ++ pub_date_rss strptime strftime now (date_key a)
                         ++ RSS_ITEM_CLOSE)
            /\ (forall d formatted,
                  strptime (date_key a) = Some d ->
                  strftime d = Some formatted ->
                  pub_date_rss strptime strftime now (date_key a) = formatted)
            /\ (strptime (date_key a) = None ->
                pub_date_rss strptime strftime now (date_key a) = now))
         (sorted_by_date articles) items
    /\ Permutation (sorted_by_date articles) articles.
Proof.
  intros Hwf.
  assert (Hperm : Permutation (sorted_by_date articles) articles)
    by apply sorted_desc_perm.
  assert (Hsorted : Forall has_title_url (sorted_by_date articles)).
  { now apply (Permutation_Forall (Permutation_sym Hperm)). }
  destruct (traverse_total (rss_item strptime strftime now)
              (l := sorted_by_date articles)) as [items Hitems].
  { apply Forall_forall. intros a Ha. rewrite Forall_forall in Hsorted.
    rewrite (rss_item_total (Hsorted a Ha)). discriminate. }
  exists items. split.
  { unfold make_rss. now rewrite Hitems. }
  apply traverse_Forall2 in Hitems. split; [|exact Hperm].
  clear Hperm Hwf. induction Hitems as [|a item l items Ha Hl IH].
  - constructor.
  - inversion Hsorted as [|a' l' Hwa Hwl]; subst.
    constructor; [|now apply IH].
    split; [exact Ha|]. split.
    + rewrite (rss_item_total Hwa) in Ha. apply Some_eq in Ha.
      eexists _, _, _. symmetry. exact Ha.
    + split; apply pub_date_rss_cases.
Qed.
End RssProps.

(** C8 on a store of two articles, one with a date that parses and one
    with a date that does not. *)
Lemma make_rss_pub_dates_witness :
  let good := sample_article "a.html" "2025-01-01" [] in
  let bad := sample_article "b.html" "yesterday" [] in
  Forall has_title_url [good; bad]
  /\ pub_date_rss sample_strptime sample_strftime (lit "NOW") (date_key good)
     = lit "Wed, 01 Jan 2025 00:00:00 +0000"
  /\ pub_date_rss sample_strptime sample_strftime (lit "NOW") (date_key bad)
     = lit "NOW"
  /\ exists items,
       make_rss sample_strptime sample_strftime (lit "NOW") [good; bad]
       = Some (rss_head (lit "NOW") ++ List.concat items ++ RSS_TAIL).
Proof.
  intros good bad.
  assert (Hwf : Forall has_title_url [good; bad]).
  { repeat constructor; discriminate. }
  split; [exact Hwf|]. split; [reflexivity|]. split; [reflexivity|].
  destruct (make_rss_pub_dates sample_strptime sample_strftime (lit "NOW") Hwf)
    as (items & Hfeed & _).
  exists items. exact Hfeed.
Defined.

(* ================================================================= *)
(** ** Files read in text mode *)

Lemma newlines_cons (b : bool) (c : ascii) (s : str) :
  Ascii.eqb c CR = false -> Ascii.eqb c LF = false ->
  newlines b (c :: s) = c :: newlines false s.
Proof. intros H1 H2. cbn [newlines]. now rewrite H1, H2. Qed.

(** The text that is read holds no carriage return. *)
Lemma newlines_no_cr (b : bool) (s : str) : ~ In CR (newlines b s).
Proof.
  revert b. induction s as [|c s IH]; intros b; cbn [newlines]; [tauto|].
  destruct (Ascii.eqb c CR) eqn:E1.
  - intros [H|H]; [discriminate H|exact (IH _ H)].
  - destruct (Ascii.eqb c LF) eqn:E2.
    + destruct b; [apply IH|]. intros [H|H]; [discriminate H|exact (IH _ H)].
    + intros [H|H]; [|exact (IH _ H)].
      subst c. now rewrite Ascii.eqb_refl in E1.
Qed.

(** A text without carriage return is read as it is. *)
Lemma newlines_app_free (a s : str) :
  ~ In CR a -> newlines false (a ++ s) = a ++ newlines false s.
Proof.
  induction a as [|c a IH]; intros H; [reflexivity|].
  cbn [app newlines].
  destruct (Ascii.eqb c CR) eqn:E1.
  - apply Ascii.eqb_eq in E1. subst c. exfalso. apply H. now left.
  - rewrite IH; [|intros Hin; apply H; now right].
    destruct (Ascii.eqb c LF) eqn:E2; [|reflexivity].
    apply Ascii.eqb_eq in E2. now subst c.
Qed.

Lemma newlines_id (s : str) : ~ In CR s -> newlines false s = s.
Proof.
  intros H. rewrite <- (app_nil_r s) at 1.
  rewrite (@newlines_app_free s [] H). cbn [newlines]. apply app_nil_r.
Qed.

Lemma newlines_free (s : str) : ~ In CR s -> universal_newlines s = s.
Proof. apply newlines_id. Qed.

(** The translation of a text goes through a line feed. *)
Lemma newlines_app_nl (b : bool) (x y : str) :
  newlines b (x ++ nl ++ y) = newlines b (x ++ nl) ++ newlines false y.
Proof.
  revert b. induction x as [|c x IH]; intros b.
  - destruct b; reflexivity.
  - cbn [app newlines]. destruct (Ascii.eqb c CR).
    + now rewrite IH.
    + destruct (Ascii.eqb c LF); [destruct b|]; now rewrite IH.
Qed.

Lemma newline_free_cons (p : ascii) (pat : str) :
  newline_free (p :: pat) = true ->
  Ascii.eqb p CR = false /\ Ascii.eqb p LF = false
  /\ newline_free pat = true.
Proof.
  cbn [newline_free forallb]. intros H.
  apply andb_true_iff in H as [H1 H2]. apply andb_true_iff in H1 as [H1 H3].
  apply negb_true_iff in H1, H3. now repeat split.
Qed.

Lemma eqb_newline (p c : ascii) :
  Ascii.eqb p CR = false -> Ascii.eqb p LF = false ->
  Ascii.eqb c CR = true \/ Ascii.eqb c LF = true ->
  Ascii.eqb p c = false.
Proof.
  intros H1 H2 [H|H]; apply Ascii.eqb_eq in H; subst c; assumption.
Qed.

(** A pattern without newline starts the text that is read where it
    starts the text of the file. *)
Lemma startswith_newlines (pat : str) :
  newline_free pat = true ->
  forall s, startswith (newlines false s) pat = startswith s pat.
Proof.
  induction pat as [|p pat IH]; intros Hp s.
  - now rewrite !startswith_nil.
  - apply newline_free_cons in Hp as (H1 & H2 & Hp).
    destruct s as [|c s]; [reflexivity|].
    cbn [newlines]. destruct (Ascii.eqb c CR) eqn:E1.
    + apply Ascii.eqb_eq in E1. subst c. cbn [startswith].
      now rewrite H1, H2.
    + destruct (Ascii.eqb c LF) eqn:E2.
      * apply Ascii.eqb_eq in E2. subst c. cbn [startswith]. now rewrite H2.
      * cbn [startswith]. now rewrite (IH Hp).
Qed.

Lemma startswith_newline_head (p c : ascii) (pat s : str) :
  Ascii.eqb p CR = false -> Ascii.eqb p LF = false ->
  Ascii.eqb c CR = true \/ Ascii.eqb c LF = true ->
  startswith (c :: s) (p :: pat) = false.
Proof.
  intros H1 H2 Hc. cbn [startswith]. now rewrite (@eqb_newline p c H1 H2 Hc).
Qed.

(** A pattern without newline occurs in the text that is read as often as
    in the text of the file. *)
Lemma occurrences_newlines (pat : str) (b : bool) (s : str) :
  newline_free pat = true -> pat <> [] ->
  occurrences pat (newlines b s) = occurrences pat s.
Proof.
  intros Hp Hne. destruct pat as [|p pat]; [congruence|].
  pose proof (newline_free_cons _ _ Hp) as (H1 & H2 & _).
  revert b. induction s as [|c s IH]; intros b; [reflexivity|].
  cbn [newlines]. destruct (Ascii.eqb c CR) eqn:E1.
  - cbn [occurrences]. rewrite IH.
    rewrite (@startswith_newline_head p c pat s H1 H2 (or_introl E1)).
    now rewrite (@startswith_newline_head p LF pat (newlines true s) H1 H2
                   (or_intror eq_refl)).
  - destruct (Ascii.eqb c LF) eqn:E2.
    + cbn [occurrences].
      rewrite (@startswith_newline_head p c pat s H1 H2 (or_intror E2)).
      destruct b; [apply IH|]. cbn [occurrences]. rewrite IH.
      now rewrite (@startswith_newline_head p LF pat (newlines false s) H1 H2
                     (or_intror eq_refl)).
    + cbn [occurrences]. rewrite IH. f_equal.
      rewrite <- (@newlines_cons false c s E1 E2).
      now rewrite (@startswith_newlines (p :: pat) Hp (c :: s)).
Qed.

Lemma contains_occurrences (pat s : str) :
  pat <> [] -> contains pat s = negb (occurrences pat s =? 0).
Proof.
  intros Hne. induction s as [|c s IH].
  - destruct pat; [congruence|reflexivity].
  - cbn [contains occurrences]. rewrite IH.
    destruct (startswith (c :: s) pat); [reflexivity|].
    reflexivity.
Qed.

Lemma contains_newlines (pat : str) (b : bool) (s : str) :
  newline_free pat = true -> pat <> [] ->
  contains pat (newlines b s) = contains pat s.
Proof.
  intros Hp Hne. rewrite !contains_occurrences by exact Hne.
  now rewrite occurrences_newlines.
Qed.

Lemma startswith_newline_free (pat a : str) :
  newline_free pat = true -> a <> [] -> startswith pat a = true ->
  exists c a', a = c :: a' /\ Ascii.eqb c CR = false /\ Ascii.eqb c LF = false.
Proof.
  intros Hp Hne H. destruct a as [|c a']; [congruence|].
  destruct pat as [|p pat]; [discriminate|].
  apply newline_free_cons in Hp as (H1 & H2 & _).
  cbn [startswith] in H. apply andb_true_iff in H as [H _].
  apply Ascii.eqb_eq in H. subst c. now exists p, a'.
Qed.

Lemma newline_free_prefix (pat a : str) :
  newline_free pat = true -> startswith pat a = true -> ~ In CR a.
Proof.
  revert pat. induction a as [|c a IH]; intros pat Hp H; [tauto|].
  destruct pat as [|p pat]; [discriminate|].
  apply newline_free_cons in Hp as (H1 & H2 & Hp).
  cbn [startswith] in H. apply andb_true_iff in H as [Hc H].
  apply Ascii.eqb_eq in Hc. subst c.
  intros [E|E]; [subst p; discriminate H1|exact (IH pat Hp H E)].
Qed.

Lemma newline_free_prefix_lf (pat a : str) :
  newline_free pat = true -> startswith pat a = true -> ~ In LF a.
Proof.
  revert pat. induction a as [|c a IH]; intros pat Hp H; [tauto|].
  destruct pat as [|p pat]; [discriminate|].
  apply newline_free_cons in Hp as (H1 & H2 & Hp).
  cbn [startswith] in H. apply andb_true_iff in H as [Hc H].
  apply Ascii.eqb_eq in Hc. subst c.
  intros [E|E]; [subst p; discriminate H2|exact (IH pat Hp H E)].
Qed.

(** A text whose translation has no line feed has no newline at all. *)
Lemma newlines_no_lf (s : str) :
  ~ In LF (newlines false s) -> newlines false s = s.
Proof.
  induction s as [|c s IH]; [reflexivity|]. cbn [newlines].
  destruct (Ascii.eqb c CR); [intros H; exfalso; apply H; now left|].
  destruct (Ascii.eqb c LF); [intros H; exfalso; apply H; now left|].
  intros H. f_equal. apply IH. intros Hin. apply H. now right.
Qed.

Lemma no_straddle_newlines (pat : str) (b : bool) (s : str) :
  newline_free pat = true ->
  no_straddle pat s = true -> no_straddle pat (newlines b s) = true.
Proof.
  intros Hp. revert b. induction s as [|c s IH]; intros b H; [reflexivity|].
  cbn [no_straddle] in H. apply andb_true_iff in H as [Hc Hs].
  assert (Hlf : forall t, no_straddle pat t = true ->
                          no_straddle pat (LF :: t) = true).
  { intros t Ht. cbn [no_straddle]. rewrite Ht, andb_true_r.
    destruct (startswith pat (LF :: t)) eqn:E; [|reflexivity].
    exfalso. apply (@newline_free_prefix_lf pat (LF :: t) Hp E). now left. }
  cbn [newlines]. destruct (Ascii.eqb c CR) eqn:E1; [now apply Hlf, IH|].
  destruct (Ascii.eqb c LF) eqn:E2.
  - destruct b; [now apply IH|now apply Hlf, IH].
  - cbn [no_straddle]. rewrite (IH false Hs), andb_true_r.
    destruct (startswith pat (c :: newlines false s)) eqn:E; [|reflexivity].
    assert (Hsame : newlines false s = s).
    { apply newlines_no_lf. intros Hin.
      apply (@newline_free_prefix_lf pat (c :: newlines false s) Hp E).
      now right. }
    rewrite Hsame in *. rewrite E in Hc. exact Hc.
Qed.

Lemma counts_newlines (pat : str) (n : nat) (b : bool) (s : str) :
  newline_free pat = true -> pat <> [] ->
  counts pat n s -> counts pat n (newlines b s).
Proof.
  intros Hp Hne [Hs Ho]. split.
  - now apply no_straddle_newlines.
  - now rewrite occurrences_newlines.
Qed.

(* ================================================================= *)
(** ** The update of the homepage *)

Lemma split_first_length (pat s before after : str) :
  split_first pat s = Some (before, after) ->
  List.length s = List.length before + List.length pat + List.length after.
Proof.
  intros H. apply split_first_Some in H. subst s.
  rewrite !length_app. lia.
Qed.

Lemma split_first_contains (pat s before after : str) :
  split_first pat s = Some (before, after) -> contains pat s = true.
Proof.
  intros H. destruct (contains pat s) eqn:E; [reflexivity|].
  apply split_first_None in E. congruence.
Qed.

Section MarkerRegionProps.
Variable replacement : str -> str.

(** Enough fuel is as good as more: the fuel of [pattern_sub], the length of
    the document, never runs out. *)
Lemma sub_markers_fuel (n m : nat) (s : str) :
  List.length s <= n -> List.length s <= m ->
  sub_markers replacement n s = sub_markers replacement m s.
Proof.
  revert m s. induction n as [|n IH]; intros m s Hn Hm.
  - destruct s; [|simpl in Hn; lia].
    destruct m; reflexivity.
  - destruct m as [|m].
    + destruct s; [reflexivity|simpl in Hm; lia].
    + cbn [sub_markers].
      destruct (split_first AUTO_START s) as [[before rest]|] eqn:E1;
        [|reflexivity].
      destruct (split_first AUTO_END rest) as [[region after]|] eqn:E2;
        [|reflexivity].
      apply split_first_length in E1, E2.
      change (List.length AUTO_START) with 35 in E1.
      do 2 f_equal. apply IH; lia.
Qed.

Lemma sub_markers_no_start (n : nat) (s : str) :
  contains AUTO_START s = false -> sub_markers replacement n s = s.
Proof.
  intros H. apply split_first_None in H.
  destruct n; [reflexivity|]. cbn [sub_markers]. now rewrite H.
Qed.

Lemma sub_markers_no_end (n : nat) (s before rest : str) :
  split_first AUTO_START s = Some (before, rest) ->
  contains AUTO_END rest = false ->
  sub_markers replacement n s = s.
Proof.
  intros H1 H2. apply split_first_None in H2.
  destruct n; [reflexivity|]. cbn [sub_markers]. now rewrite H1, H2.
Qed.

(** The first region is replaced, the text before it is kept, and the
    text after it is treated in the same way. *)
Lemma sub_markers_region (s before rest region after : str) :
  split_first AUTO_START s = Some (before, rest) ->
  split_first AUTO_END rest = Some (region, after) ->
  sub_markers replacement (List.length s) s
  = before ++ replacement region
    ++ sub_markers replacement (List.length after) after.
Proof.
  intros H1 H2.
  pose proof (@split_first_length _ _ _ _ H1) as L1.
  pose proof (@split_first_length _ _ _ _ H2) as L2.
  change (List.length AUTO_START) with 35 in L1.
  destruct (List.length s) as [|n] eqn:E; [lia|].
  cbn [sub_markers]. rewrite H1, H2. do 2 f_equal.
  apply sub_markers_fuel; lia.
Qed.
End MarkerRegionProps.

Lemma markers_newline_free :
  newline_free AUTO_START = true /\ newline_free AUTO_END = true
  /\ AUTO_START <> [] /\ AUTO_END <> [].
Proof. repeat split; try reflexivity; discriminate. Qed.

(** The markers are in the text that is read exactly when they are in the
    file. *)
Lemma contains_markers_read (raw : str) :
  contains AUTO_START (universal_newlines raw) = contains AUTO_START raw
  /\ contains AUTO_END (universal_newlines raw) = contains AUTO_END raw.
Proof.
  destruct markers_newline_free as (H1 & H2 & H3 & H4).
  unfold universal_newlines. split; now apply contains_newlines.
Qed.

(** C9, as amended.  Without a homepage file, and with a homepage that
    lacks one of the two markers, [update_index_html] returns without a
    write and without an exception, whatever the articles are; a homepage
    that is not UTF-8 makes it raise.  No call writes a file other than the
    homepage.  When the homepage has the two markers, the call works on
    [html], the text of the file with its newlines translated, which is the
    file itself when the file has no carriage return.  With the first
    [AUTO_START] of [html] at [before] and the first [AUTO_END] after it at
    [region], and the cards and the replacement template in order, the
    homepage becomes the text [before], the replacement of the markers and
    the region between them, and the text [after], in which further
    regions are replaced in the same way and which is unchanged when it
    has no further [AUTO_START].  With a replacement that is taken
    literally, the replacement is the two markers around the new cards.
    When no [AUTO_END] follows the first [AUTO_START], the homepage is
    written back as [html]. *)
Theorem update_index_html_frame (expand_template : str -> option (str -> str))
    (fs : files) (articles : list article) :
  (fs INDEX_FILE = None ->
   update_index_html expand_template fs articles = Some [])
  /\ (fs INDEX_FILE = Some undecodable ->
      update_index_html expand_template fs articles = None)
  /\ (forall raw,
        fs INDEX_FILE = Some (encoded raw) ->
        contains AUTO_START raw = false \/ contains AUTO_END raw = false ->
        update_index_html expand_template fs articles = Some [])
  /\ (forall writes path,
        update_index_html expand_template fs articles = Some writes ->
        path <> INDEX_FILE ->
        apply_writes writes fs path = fs path)
  /\ (forall raw before rest new_cards replacement,
        fs INDEX_FILE = Some (encoded raw) ->
        let html := universal_newlines raw in
        contains AUTO_END raw = true ->
        split_first AUTO_START html = Some (before, rest) ->
        make_homepage_cards articles 6 = Some new_cards ->
        expand_template (AUTO_START ++ nl ++ new_cards ++ nl ++ AUTO_END)
        = Some replacement ->
        html = before ++ AUTO_START ++ rest
        /\ (~ In CR raw -> html = raw)
        /\ ~ In CR html
        /\ (contains AUTO_END rest = false ->
            update_index_html expand_template fs articles
            = Some [(INDEX_FILE, html)])
        /\ (forall region after,
              split_first AUTO_END rest = Some (region, after) ->
              html = before ++ AUTO_START ++ region ++ AUTO_END ++ after
              /\ update_index_html expand_template fs articles
                 = Some [(INDEX_FILE,
                          before ++ replacement region
                          ++ sub_markers replacement (List.length after) after)]
              /\ (contains AUTO_START after = false ->
                  sub_markers replacement (List.length after) after = after)
              /\ (replacement region
                  = AUTO_START ++ nl ++ new_cards ++ nl ++ AUTO_END ->
                  contains AUTO_START after = false ->
                  update_index_html expand_template fs articles
                  = Some [(INDEX_FILE,
                           before
                           ++ (AUTO_START ++ nl ++ new_cards ++ nl ++ AUTO_END)
                           ++ after)]))).
Proof.
  split; [|split; [|split; [|split]]].
  - intros H. unfold update_index_html. now rewrite H.
  - intros H. unfold update_index_html. now rewrite H.
  - intros raw H Hm. unfold update_index_html. rewrite H. cbn [read_text bind].
    destruct (contains_markers_read raw) as [-> ->].
    destruct Hm as [-> | ->]; [reflexivity|].
    now rewrite orb_true_r.
  - intros writes path H Hp. apply apply_writes_other.
    unfold update_index_html in H.
    destruct (fs INDEX_FILE) as [c|]; [|now injection H as <-].
    destruct (read_text c) as [html|]; [|discriminate]. cbn [bind] in H.
    destruct (negb (contains AUTO_START html) || negb (contains AUTO_END html));
      [now injection H as <-|].
    destruct (make_homepage_cards articles 6) as [new_cards|]; [|discriminate].
    cbn [bind] in H.
    destruct (pattern_sub expand_template _ html) as [html2|]; [|discriminate].
    cbn [bind] in H. apply Some_eq in H. subst writes.
    cbn [map fst]. intros [E|[]]. congruence.
  - intros raw before rest new_cards replacement Hfs html Hend H1 Hcards Hexp.
    assert (Hend' : contains AUTO_END html = true).
    { unfold html. now rewrite (proj2 (contains_markers_read raw)). }
    assert (Hstart : contains AUTO_START html = true)
      by exact (@split_first_contains _ _ _ _ H1).
    assert (Hupd : update_index_html expand_template fs articles
                   = Some [(INDEX_FILE,
                            sub_markers replacement (List.length html) html)]).
    { unfold update_index_html. rewrite Hfs. cbn [read_text bind].
      fold html. rewrite Hstart, Hend'. cbn [negb orb].
      rewrite Hcards. cbn [bind]. unfold pattern_sub. rewrite Hexp.
      reflexivity. }
    split; [exact (@split_first_Some _ _ _ _ H1)|].
    split; [exact (@newlines_free raw)|].
    split; [apply newlines_no_cr|]. split.
    + intros Hno. rewrite Hupd.
      now rewrite (@sub_markers_no_end replacement _ _ _ _ H1 Hno).
    + intros region after H2.
      assert (Hsub : sub_markers replacement (List.length html) html
                     = before ++ replacement region
                       ++ sub_markers replacement (List.length after) after)
        by exact (@sub_markers_region replacement _ _ _ _ _ H1 H2).
      split.
      { rewrite (@split_first_Some _ _ _ _ H1), (@split_first_Some _ _ _ _ H2).
        reflexivity. }
      split; [now rewrite Hupd, Hsub|]. split.
      * apply sub_markers_no_start.
      * intros Hlit Hno. rewrite Hupd, Hsub, Hlit.
        now rewrite (@sub_markers_no_start replacement _ _ Hno).
Qed.

(** C9 on a homepage with one marked region and no carriage return, an
    empty store, and a replacement that is taken literally: the region
    becomes the two newlines around the empty fragment, and the rest is as
    it was. *)
Lemma update_index_html_frame_witness :
  let html := lit "<h1>Home</h1>" ++ AUTO_START ++ lit "old cards" ++ AUTO_END
              ++ lit "<footer/>" in
  let fs := only_homepage html in
  fs INDEX_FILE = Some (encoded html)
  /\ update_index_html literal_template fs []
     = Some [(INDEX_FILE,
              lit "<h1>Home</h1>" ++ (AUTO_START ++ nl ++ [] ++ nl ++ AUTO_END)
              ++ lit "<footer/>")].
Proof.
  intros html fs. split; [reflexivity|].
  destruct (update_index_html_frame literal_template fs [])
    as (_ & _ & _ & _ & Hregion).
  destruct (Hregion html (lit "<h1>Home</h1>")
              (lit "old cards" ++ AUTO_END ++ lit "<footer/>") []
              (fun _ => AUTO_START ++ nl ++ [] ++ nl ++ AUTO_END))
    as (_ & _ & _ & _ & Hsplit).
  - reflexivity.
  - vm_compute. reflexivity.
  - vm_compute. reflexivity.
  - reflexivity.
  - reflexivity.
  - destruct (Hsplit (lit "old cards") (lit "<footer/>")) as (_ & _ & _ & Hlit).
    + vm_compute. reflexivity.
    + apply Hlit; [reflexivity|vm_compute; reflexivity].
Defined.

(** C9, as the specification states it, fails on a homepage with DOS line
    ends: the file is read in text mode, so that the text before the first
    marker and the text after the last one are written back with a line
    feed for each carriage return and line feed, and the surrounding
    content is not unchanged.  It fails as well on a homepage that is not
    UTF-8, with or without markers: the call raises before it looks for
    them. *)
Lemma update_index_html_crlf_counterexample :
  let before := lit "<h1>Home</h1>" ++ [CR; LF] in
  let after := [CR; LF] ++ lit "<footer/>" in
  crlf_homepage = before ++ AUTO_START ++ lit "old cards" ++ AUTO_END ++ after
  /\ update_index_html literal_template (only_homepage crlf_homepage) []
     = Some [(INDEX_FILE,
              (lit "<h1>Home</h1>" ++ nl)
              ++ (AUTO_START ++ nl ++ [] ++ nl ++ AUTO_END)
              ++ (nl ++ lit "<footer/>"))]
  /\ update_index_html literal_template (only_homepage crlf_homepage) []
     <> Some [(INDEX_FILE,
               before ++ (AUTO_START ++ nl ++ [] ++ nl ++ AUTO_END) ++ after)]
  /\ lit "<h1>Home</h1>" ++ nl <> before
  /\ update_index_html literal_template undecodable_homepage [] = None.
Proof.
  intros before after. split; [reflexivity|].
  split; [vm_compute; reflexivity|]. split; [vm_compute; discriminate|].
  split; [discriminate|reflexivity].
Qed.

(* ================================================================= *)
(** ** More on the publisher *)

Lemma replacements_total (d : draft) :
  replacements d <> None <-> draft_complete d.
Proof.
  unfold replacements, draft_complete, bind.
  destruct (d_title d), (d_desc d), (d_slug d), (d_date d), (d_thumb d),
    (d_content d); split; intros H; try discriminate; try congruence;
    try (repeat split; discriminate); try (exfalso; tauto).
Qed.

Lemma substitute_absent (reps : list (str * str)) (s : str) :
  (forall kv, In kv reps -> fst kv <> [] /\ contains (fst kv) s = false) ->
  substitute reps s = s.
Proof.
  induction reps as [|[k v] reps IH]; intros H; [reflexivity|].
  cbn [substitute fold_left fst snd].
  destruct (H (k, v) (or_introl eq_refl)) as [Hk Hc]. cbn [fst] in Hk, Hc.
  destruct k as [|p pat]; [congruence|].
  rewrite (replace_absent _ _ _ _ Hc). apply IH.
  intros kv Hkv. apply H. now right.
Qed.

(** A template that holds none of the eight placeholders is the document
    of every draft that has the required keys: no pass finds anything, and
    the values of the draft do not show.  A draft that lacks a required key
    raises all the same, whether the template asks for the key or not. *)
Theorem build_article_html_plain_template (template : str) (d : draft) :
  (forall k, In k PLACEHOLDERS -> contains k template = false) ->
  (draft_complete d -> build_article_html template d = Some template)
  /\ (~ draft_complete d -> build_article_html template d = None).
Proof.
  intros Hfree. split.
  - intros Hd. apply replacements_total in Hd.
    destruct (replacements d) as [reps|] eqn:E; [|congruence].
    unfold build_article_html. rewrite E. cbn [bind]. f_equal.
    apply substitute_absent. intros kv Hkv.
    assert (Hk : In (fst kv) PLACEHOLDERS).
    { rewrite <- (replacements_keys d E). now apply in_map. }
    split; [|now apply Hfree].
    intros Hnil. rewrite Hnil in Hk. revert Hk. vm_compute. intuition discriminate.
  - intros Hd. unfold build_article_html.
    destruct (replacements d) as [reps|] eqn:E; [|reflexivity].
    exfalso. apply Hd. apply replacements_total. congruence.
Qed.

(** A page without placeholders goes through as it is. *)
Lemma build_article_html_plain_template_witness :
  let template := lit "<html><body>static page</body></html>" in
  let d := sample_draft "a.html" "T" "<p>x</p>" None in
  (forall k, In k PLACEHOLDERS -> contains k template = false)
  /\ build_article_html template d = Some template.
Proof.
  intros template d.
  assert (Hfree : forall k, In k PLACEHOLDERS -> contains k template = false).
  { intros k Hk. vm_compute in Hk.
    repeat (destruct Hk as [<-|Hk]; [vm_compute; reflexivity|]). destruct Hk. }
  split; [exact Hfree|].
  apply (@build_article_html_plain_template template d Hfree).
  repeat split; discriminate.
Defined.

Lemma article_of_draft_complete (d : draft) (record : article) :
  article_of_draft d = Some record -> article_complete record.
Proof.
  unfold article_of_draft, bind.
  destruct (d_title d), (d_slug d), (d_desc d), (d_date d), (d_thumb d);
    try discriminate.
  intros H. apply Some_eq in H. subst record.
  repeat split; discriminate.
Qed.

(** What a run does to the state, whether it returns or raises: it appends
    records, one write each, and counts them. *)
Lemma publish_loop_effects (opens : str -> bool) (template : str)
    (existing : list (option str))
    (drafts : list draft) (st : pub_state) :
  exists records writes,
    st_articles (snd (publish_loop opens template existing drafts st))
      = st_articles st ++ records
    /\ st_writes (snd (publish_loop opens template existing drafts st))
      = st_writes st ++ writes
    /\ st_published (snd (publish_loop opens template existing drafts st))
      = st_published st + List.length records
    /\ List.length writes = List.length records
    /\ Forall article_complete records.
Proof.
  revert st. induction drafts as [|d drafts IH]; intros st.
  - exists [], []. simpl. rewrite !app_nil_r, Nat.add_0_r.
    repeat split. constructor.
  - cbn [publish_loop].
    destruct (publish_step opens template existing d st) as [st'|] eqn:E.
    + destruct (IH st') as (records & writes & Ha & Hw & Hp & Hl & Hc).
      apply publish_step_inv in E as [->|(slug & html & record & E)].
      * now exists records, writes.
      * destruct E as (_ & _ & Hhtml & Hrec & _ & ->).
        cbn [st_articles st_writes st_published] in Ha, Hw, Hp.
        exists (record :: records), ((slug, html) :: writes).
        rewrite Ha, Hw, Hp, <- !app_assoc. cbn [List.length app].
        repeat split; try lia.
        constructor; [|exact Hc].
        exact (article_of_draft_complete d Hrec).
    + exists [], []. simpl. rewrite !app_nil_r, Nat.add_0_r.
      repeat split. constructor.
Qed.

(** A run of [publish_drafts] only appends to the store: the articles it
    was given stay where they are, as they are.  The number it counts is the
    number of records it has appended and the number of files it has
    written, also when it raises halfway, and every record it appends has
    the nine keys of a record. *)
Theorem publish_drafts_appends (fs : files) (drafts : list draft)
    (articles : list article) :
  exists records,
    st_articles (snd (publish_drafts fs drafts articles)) = articles ++ records
    /\ st_published (snd (publish_drafts fs drafts articles))
       = List.length records
    /\ List.length (st_writes (snd (publish_drafts fs drafts articles)))
       = List.length records
    /\ Forall article_complete records
    /\ (Forall article_complete articles ->
        Forall article_complete
          (st_articles (snd (publish_drafts fs drafts articles)))).
Proof.
  unfold publish_drafts.
  destruct (load_template fs) as [template|].
  - destruct (publish_loop_effects (can_open fs) template (existing_slugs articles) drafts
                {| st_articles := articles; st_writes := [];
                   st_published := 0 |})
      as (records & writes & Ha & Hw & Hp & Hl & Hc).
    cbn [st_articles st_writes st_published] in Ha, Hw, Hp.
    exists records. rewrite Ha, Hw, Hp. cbn [app].
    repeat split; try assumption.
    intros Hall. apply Forall_app. now split.
  - exists []. cbn [snd st_articles st_writes st_published List.length].
    rewrite app_nil_r. repeat split; try constructor. tauto.
Qed.

Lemma apply_writes_exists (writes : list (str * str)) (fs : files) (p : str) :
  fs p <> None -> apply_writes writes fs p <> None.
Proof.
  revert fs. induction writes as [|[path text] writes IH]; intros fs H.
  - exact H.
  - cbn [apply_writes fold_left fst snd].
    change (apply_writes writes (write_file path text fs) p <> None).
    apply IH. unfold write_file. cbn [file].
    destruct (str_eqb p path); [discriminate|exact H].
Qed.

(** A file that can be read as text can be read as text after any
    writes: what the program writes is text. *)
Lemma apply_writes_readable (writes : list (str * str)) (fs : files) (p : str) :
  (exists s, fs p = Some (encoded s)) ->
  exists s, apply_writes writes fs p = Some (encoded s).
Proof.
  revert fs. induction writes as [|[path text] writes IH]; intros fs H.
  - exact H.
  - cbn [apply_writes fold_left fst snd].
    change (exists s, apply_writes writes (write_file path text fs) p
                      = Some (encoded s)).
    apply IH. unfold write_file. cbn [file].
    destruct (str_eqb p path); [now exists text|exact H].
Qed.

(** A file that the program has written is text. *)
Lemma apply_writes_written (writes : list (str * str)) (fs : files) (p : str) :
  In p (map fst writes) ->
  exists s, apply_writes writes fs p = Some (encoded s).
Proof.
  revert fs. induction writes as [|[path text] writes IH]; intros fs H.
  - destruct H.
  - cbn [apply_writes fold_left fst snd].
    change (exists s, apply_writes writes (write_file path text fs) p
                      = Some (encoded s)).
    destruct (str_eqb p path) eqn:E.
    + apply apply_writes_readable. exists text.
      apply str_eqb_eq in E. subst p. apply write_file_same.
    + apply IH. destruct H as [H|H]; [|exact H].
      cbn [fst] in H. subst p. now rewrite str_eqb_refl in E.
Qed.

(** No write makes a file that is not text. *)
Lemma apply_writes_text (writes : list (str * str)) (fs : files) (p : str) :
  fs p <> Some undecodable -> apply_writes writes fs p <> Some undecodable.
Proof.
  revert fs. induction writes as [|[path text] writes IH]; intros fs H.
  - exact H.
  - cbn [apply_writes fold_left fst snd].
    change (apply_writes writes (write_file path text fs) p
            <> Some undecodable).
    apply IH. unfold write_file. cbn [file].
    destruct (str_eqb p path); [discriminate|exact H].
Qed.

Lemma load_template_readable (fs : files) :
  load_template fs <> None <-> exists s, fs TEMPLATE_FILE = Some (encoded s).
Proof.
  unfold load_template. destruct (fs TEMPLATE_FILE) as [[s|]|]; cbn [bind read_text].
  - split; [now exists s|discriminate].
  - split; [congruence|intros [s H]; discriminate H].
  - split; [congruence|intros [s H]; discriminate H].
Qed.

Lemma load_template_after_writes (writes : list (str * str)) (fs : files) :
  load_template fs <> None -> load_template (apply_writes writes fs) <> None.
Proof.
  rewrite !load_template_readable. apply apply_writes_readable.
Qed.

Lemma publish_step_inv_new (opens : str -> bool) (template : str) (d : draft)
    (slug : str) (st st' : pub_state) :
  (html <- build_article_html template d ;;
   if opens slug then
     record <- article_of_draft d ;;
     Some {| st_articles := st_articles st ++ [record];
             st_writes := st_writes st ++ [(slug, html)];
             st_published := S (st_published st) |}
   else None) = Some st' ->
  d_slug d = Some slug ->
  In (Some slug) (map a_slug (st_articles st')).
Proof.
  destruct (build_article_html template d) as [html|]; [|discriminate].
  cbn [bind]. destruct (opens slug); [|discriminate].
  destruct (article_of_draft d) as [record|] eqn:Hr; [|discriminate].
  cbn [bind]. intros H Hs. apply Some_eq in H. subst st'.
  cbn [st_articles]. rewrite map_app. apply in_or_app. right. left.
  unfold article_of_draft in Hr. rewrite Hs in Hr.
  destruct (d_title d), (d_desc d), (d_date d), (d_thumb d); try discriminate.
  cbn [bind] in Hr. apply Some_eq in Hr. now subst record.
Qed.

(** After a run that returns, every draft of the batch has its slug in the
    store. *)
Lemma publish_loop_slugs_stored (opens : str -> bool) (template : str)
    (existing : list (option str))
    (drafts : list draft) (st : pub_state) :
  fst (publish_loop opens template existing drafts st) = true ->
  Forall (fun d => exists slug,
            d_slug d = Some slug
            /\ (In (Some slug) existing
                \/ In (Some slug)
                     (map a_slug
                        (st_articles (snd (publish_loop opens template existing drafts st))))))
    drafts.
Proof.
  revert st. induction drafts as [|d drafts IH]; intros st Hok.
  - constructor.
  - cbn [publish_loop] in *.
    destruct (publish_step opens template existing d st) as [st'|] eqn:E;
      [|discriminate].
    constructor; [|now apply IH].
    destruct (publish_loop_effects opens template existing drafts st')
      as (records & _ & Ha & _).
    unfold publish_step in E.
    destruct (d_slug d) as [slug|] eqn:Hs; [|discriminate]. cbn [bind] in E.
    exists slug. split; [reflexivity|].
    destruct (slug_in slug existing) eqn:Hin.
    + left. now apply slug_in_iff.
    + right. apply (publish_step_inv_new _ _ _ _ E) in Hs.
      rewrite Ha, map_app. apply in_or_app. left. exact Hs.
Qed.

Lemma publish_loop_all_skipped (opens : str -> bool) (template : str)
    (existing : list (option str))
    (drafts : list draft) (st : pub_state) :
  Forall (fun d => exists slug, d_slug d = Some slug /\ In (Some slug) existing)
    drafts ->
  publish_loop opens template existing drafts st = (true, st).
Proof.
  induction 1 as [|d drafts (slug & Hs & Hin) Hall IH]; [reflexivity|].
  cbn [publish_loop]. now rewrite (publish_step_existing _ _ _ _ _ Hs Hin).
Qed.

(** A second run on the result of a run that returned publishes nothing:
    with the files of the first run on disk, the store of the first run and
    the same drafts, [publish_drafts] returns 0, appends nothing and writes
    nothing. *)
Theorem publish_drafts_rerun (fs : files) (drafts : list draft)
    (articles : list article) :
  fst (publish_drafts fs drafts articles) = true ->
  let st := snd (publish_drafts fs drafts articles) in
  publish_drafts (apply_writes (st_writes st) fs) drafts (st_articles st)
  = (true, pub_start (st_articles st)).
Proof.
  intros Hok st. subst st. unfold publish_drafts in *.
  destruct (load_template fs) as [template|] eqn:Ht; [|discriminate].
  set (run := publish_loop (can_open fs) template (existing_slugs articles) drafts _) in *.
  destruct (load_template (apply_writes (st_writes (snd run)) fs))
    as [template'|] eqn:Ht'.
  - apply publish_loop_all_skipped.
    pose proof (publish_loop_slugs_stored _ _ _ _ _ Hok) as Hall.
    fold run in Hall.
    destruct (publish_loop_effects (can_open fs) template (existing_slugs articles) drafts
                {| st_articles := articles; st_writes := [];
                   st_published := 0 |}) as (records & _ & Ha & _).
    fold run in Ha. cbn [st_articles] in Ha.
    eapply Forall_impl; [|exact Hall].
    intros d (slug & Hs & Hin). exists slug. split; [exact Hs|].
    unfold existing_slugs in *. destruct Hin as [Hin|Hin]; [|exact Hin].
    rewrite Ha, map_app. apply in_or_app. now left.
  - exfalso. revert Ht'. apply load_template_after_writes. congruence.
Qed.

(** The rerun of the scenario of the specification: the second run finds
    the slug [a.html] in the store. *)
Lemma publish_drafts_rerun_witness :
  let fs := only_template (lit "<h1>{{TITLE}}</h1>{{CONTENT}}") in
  let d := sample_draft "a.html" "T" "<p>x</p>" None in
  let st := snd (publish_drafts fs [d] []) in
  fst (publish_drafts fs [d] []) = true
  /\ st_published st = 1
  /\ publish_drafts (apply_writes (st_writes st) fs) [d] (st_articles st)
     = (true, pub_start (st_articles st)).
Proof.
  intros fs d st.
  assert (Hok : fst (publish_drafts fs [d] []) = true) by reflexivity.
  split; [exact Hok|]. split; [reflexivity|].
  exact (@publish_drafts_rerun fs [d] [] Hok).
Defined.

(** A draft that cannot be published stops the run: one without a slug, or
    one with a new slug that lacks a required key or whose slug names a
    file that does not open.  The drafts before it are published, their
    files written and their records in the list; the drafts after it are
    not looked at; the call raises. *)
Theorem publish_drafts_stops (fs : files) (template : str)
    (good rest : list draft) (bad : draft) (articles : list article) :
  load_template fs = Some template ->
  fst (publish_drafts fs good articles) = true ->
  (d_slug bad = None
   \/ exists slug, d_slug bad = Some slug
                   /\ ~ In (Some slug) (existing_slugs articles)
                   /\ (~ draft_complete bad \/ can_open fs slug = false)) ->
  publish_drafts fs (good ++ bad :: rest) articles
  = (false, snd (publish_drafts fs good articles)).
Proof.
  intros Ht Hok Hbad. unfold publish_drafts in *. rewrite Ht in *.
  rewrite publish_loop_app.
  destruct (publish_loop (can_open fs) template (existing_slugs articles) good _)
    as [ok st] eqn:E.
  cbn [fst snd] in *. subst ok. cbn [publish_loop].
  assert (Hstep : publish_step (can_open fs) template (existing_slugs articles) bad st = None).
  { unfold publish_step. destruct Hbad as [->|(slug & -> & Hnew & Hinc)];
      [reflexivity|].
    cbn [bind]. apply slug_in_false in Hnew. rewrite Hnew.
    destruct (build_article_html template bad) as [html|] eqn:Hb; [|reflexivity].
    cbn [bind]. destruct Hinc as [Hinc|Hclosed]; [|now rewrite Hclosed].
    exfalso. apply Hinc. apply replacements_total.
    unfold build_article_html in Hb.
    destruct (replacements bad); [discriminate|discriminate]. }
  now rewrite Hstep.
Qed.

(** A batch of a good draft, a draft without content and another good
    draft: the first one is published, the third one is not. *)
Lemma publish_drafts_stops_witness :
  let fs := only_template (lit "{{TITLE}}") in
  let good := sample_draft "a.html" "A" "x" None in
  let bad := {| d_title := Some (lit "B"); d_desc := Some (lit "D");
                d_slug := Some (lit "b.html"); d_date := Some (lit "2025-01-02");
                d_thumb := Some (lit "t.webp"); d_thumb_og := None;
                d_tags := None; d_content := None |} in
  let late := sample_draft "c.html" "C" "z" None in
  fst (publish_drafts fs [good; bad; late] []) = false
  /\ st_writes (snd (publish_drafts fs [good; bad; late] []))
     = [(lit "a.html", lit "A")]
  /\ map a_slug (st_articles (snd (publish_drafts fs [good; bad; late] [])))
     = [Some (lit "a.html")].
Proof.
  intros fs good bad late.
  assert (H : publish_drafts fs ([good] ++ bad :: [late]) []
              = (false, snd (publish_drafts fs [good] []))).
  { apply (@publish_drafts_stops fs (lit "{{TITLE}}") [good] [late] bad []).
    - reflexivity.
    - reflexivity.
    - right. exists (lit "b.html"). split; [reflexivity|].
      split; [intros []|]. left.
      intros (_ & _ & _ & _ & _ & Hc). now apply Hc. }
  change ([good] ++ bad :: [late]) with [good; bad; late] in H.
  rewrite H. repeat split.
Defined.

(** The distinct slugs of a store stay distinct with a batch of distinct
    slugs. *)
Lemma publish_keeps_slugs_distinct_witness :
  let fs := only_template (lit "{{TITLE}}") in
  let articles := [sample_article "a.html" "2025-01-01" []] in
  let drafts := [ sample_draft "a.html" "A" "x" None;
                  sample_draft "b.html" "B" "y" None ] in
  NoDup (map a_slug articles) /\ NoDup (map d_slug drafts)
  /\ NoDup (map a_slug (st_articles (snd (publish_drafts fs drafts articles)))).
Proof.
  intros fs articles drafts.
  assert (Ha : NoDup (map a_slug articles)).
  { repeat constructor. intros []. }
  assert (Hd : NoDup (map d_slug drafts)).
  { repeat constructor; [|intros []].
    intros [H|[]]. vm_compute in H. discriminate. }
  split; [exact Ha|]. split; [exact Hd|].
  exact (@publish_keeps_slugs_distinct fs drafts articles Ha Hd).
Defined.

(* ================================================================= *)
(** ** The text of the search index *)

Lemma in_split_first {A : Type} (dec : forall x y : A, {x = y} + {x <> y})
    (c : A) (l : list A) :
  In c l -> exists l1 l2, l = l1 ++ c :: l2 /\ ~ In c l1.
Proof.
  induction l as [|x l IH]; intros H; [destruct H|].
  destruct (dec x c) as [->|Hx].
  - exists [], l. split; [reflexivity|intros []].
  - destruct H as [H|H]; [congruence|].
    destruct (IH H) as (l1 & l2 & -> & Hn).
    exists (x :: l1), l2. split; [reflexivity|].
    intros [E|E]; [congruence|tauto].
Qed.

Lemma existsb_gt (s : str) : existsb (Ascii.eqb GT) s = true <-> In GT s.
Proof.
  rewrite existsb_exists. split.
  - intros (x & Hx & E). apply Ascii.eqb_eq in E. now subst x.
  - intros H. exists GT. split; [exact H|apply Ascii.eqb_refl].
Qed.

Lemma tag_follows_no_gt (s : str) : ~ In GT s -> tag_follows s = false.
Proof.
  intros H. destruct s as [|x t]; [reflexivity|]. cbn [tag_follows].
  apply andb_false_iff. right. apply not_true_is_false.
  rewrite existsb_gt. intros Hin. apply H. now right.
Qed.

(** [tag_at] is the match of the pattern at the head of the text, and
    [has_markup] a match somewhere: a [<], one character or more other
    than [>], and a [>]. *)
Lemma tag_at_iff (s : str) :
  tag_at s = true <->
  exists x b, s = LT :: x ++ GT :: b /\ x <> [] /\ ~ In GT x.
Proof.
  split.
  - destruct s as [|c [|y t]]; try discriminate.
    + cbn [tag_at tag_follows]. rewrite andb_false_r. discriminate.
    + cbn [tag_at tag_follows]. intros H.
      apply andb_true_iff in H as [Hc H]. apply andb_true_iff in H as [Hy Ht].
      apply Ascii.eqb_eq in Hc. subst c. apply negb_true_iff in Hy.
      apply Ascii.eqb_neq in Hy. apply existsb_gt in Ht.
      destruct (in_split_first ascii_dec GT t Ht) as (t1 & t2 & -> & Hn).
      exists (y :: t1), t2. split; [reflexivity|]. split; [discriminate|].
      intros [E|E]; [congruence|tauto].
  - intros (x & b & -> & Hx & Hn). destruct x as [|y x]; [congruence|].
    cbn [tag_at tag_follows app]. rewrite Ascii.eqb_refl. cbn [andb].
    apply andb_true_iff. split.
    + apply negb_true_iff, Ascii.eqb_neq. intros E. apply Hn. now left.
    + apply existsb_gt. apply in_or_app. right. now left.
Qed.

Lemma has_markup_iff (s : str) :
  has_markup s = true <->
  exists a x b, s = a ++ LT :: x ++ GT :: b /\ x <> [] /\ ~ In GT x.
Proof.
  induction s as [|c s IH].
  - split; [discriminate|]. intros (a & x & b & H & _). now destruct a.
  - cbn [has_markup]. rewrite orb_true_iff, IH, tag_at_iff. split.
    + intros [(x & b & H)|(a & x & b & H & Hx)].
      * now exists [], x, b.
      * exists (c :: a), x, b. split; [now rewrite H|exact Hx].
    + intros (a & x & b & H & Hx). destruct a as [|c' a].
      * left. now exists x, b.
      * right. injection H as _ H. now exists a, x, b.
Qed.

Lemma sub_tags_no_gt (in_tag : bool) (s : str) :
  ~ In GT s -> ~ In GT (sub_tags in_tag s).
Proof.
  revert in_tag. induction s as [|c s IH]; intros in_tag H; [exact H|].
  assert (Hs : ~ In GT s) by (intros E; apply H; now right).
  cbn [sub_tags]. destruct in_tag.
  - destruct (Ascii.eqb c GT); now apply IH.
  - destruct (Ascii.eqb c LT && tag_follows s).
    + intros [E|E]; [vm_compute in E; discriminate|]. now apply (IH true).
    + intros [E|E]; [apply H; now left|]. now apply (IH false).
Qed.

Lemma sub_tags_head_gt (s : str) :
  sub_tags false (GT :: s) = GT :: sub_tags false s.
Proof. reflexivity. Qed.

(** The first pass leaves no tag. *)
Lemma sub_tags_no_markup (in_tag : bool) (s : str) :
  has_markup (sub_tags in_tag s) = false.
Proof.
  revert in_tag. induction s as [|c s IH]; intros in_tag; [reflexivity|].
  cbn [sub_tags]. destruct in_tag.
  - destruct (Ascii.eqb c GT); apply IH.
  - destruct (Ascii.eqb c LT && tag_follows s) eqn:E.
    + change (lit " " ++ sub_tags true s) with (" "%char :: sub_tags true s).
      cbn [has_markup tag_at]. rewrite IH.
      change (Ascii.eqb " " LT) with false. reflexivity.
    + cbn [has_markup tag_at]. rewrite IH, orb_false_r.
      destruct (Ascii.eqb c LT) eqn:Ec; [|reflexivity]. cbn [andb] in *.
      destruct s as [|x t]; [reflexivity|].
      destruct (Ascii.eqb_spec x GT) as [->|Hx].
      * rewrite sub_tags_head_gt. cbn [tag_follows].
        now rewrite Ascii.eqb_refl.
      * apply tag_follows_no_gt, sub_tags_no_gt.
        cbn [tag_follows] in E. apply andb_false_iff in E as [E|E].
        -- apply negb_false_iff, Ascii.eqb_eq in E. congruence.
        -- intros [H|H]; [congruence|].
           apply existsb_gt in H. congruence.
Qed.

Lemma space_len_gt (s : str) : space_len (GT :: s) = 0.
Proof. destruct s as [|b1 [|b2 s]]; reflexivity. Qed.

Lemma collapse_spaces_no_gt (skip : nat) (in_run : bool) (s : str) :
  ~ In GT s -> ~ In GT (collapse_spaces skip in_run s).
Proof.
  revert skip in_run. induction s as [|c s IH]; intros skip in_run H;
    [exact H|].
  assert (Hs : ~ In GT s) by (intros E; apply H; now right).
  cbn [collapse_spaces]. destruct skip as [|k]; [|now apply IH].
  destruct (space_len (c :: s)) as [|n].
  - intros [E|E]; [apply H; now left|]. now apply (IH 0 false).
  - destruct in_run; cbn [app].
    + now apply IH.
    + change (lit " " ++ collapse_spaces n true s)
        with (" "%char :: collapse_spaces n true s).
      intros [E|E]; [vm_compute in E; discriminate|]. now apply (IH n true).
Qed.

Lemma has_markup_space (s : str) :
  has_markup (lit " " ++ s) = has_markup s.
Proof. reflexivity. Qed.

(** The second pass makes no tag. *)
Lemma collapse_spaces_no_markup (skip : nat) (in_run : bool) (s : str) :
  has_markup s = false ->
  has_markup (collapse_spaces skip in_run s) = false.
Proof.
  revert skip in_run. induction s as [|c s IH]; intros skip in_run H;
    [reflexivity|].
  cbn [has_markup] in H. apply orb_false_iff in H as [Hc Hs].
  cbn [collapse_spaces]. destruct skip as [|k]; [|now apply IH].
  destruct (space_len (c :: s)) as [|n] eqn:El.
  - cbn [has_markup tag_at]. rewrite (IH 0 false Hs), orb_false_r.
    cbn [tag_at] in Hc.
    destruct (Ascii.eqb c LT); [|reflexivity]. cbn [andb] in *.
    destruct s as [|x t]; [reflexivity|].
    destruct (Ascii.eqb_spec x GT) as [->|Hx].
    + cbn [collapse_spaces]. rewrite space_len_gt. cbn [tag_follows].
      now rewrite Ascii.eqb_refl.
    + apply tag_follows_no_gt, collapse_spaces_no_gt.
      cbn [tag_follows] in Hc. apply andb_false_iff in Hc as [E|E].
      * apply negb_false_iff, Ascii.eqb_eq in E. congruence.
      * intros [H|H]; [congruence|]. apply existsb_gt in H. congruence.
  - destruct in_run; cbn [app].
    + now apply IH.
    + rewrite has_markup_space. now apply IH.
Qed.

Lemma tag_follows_app (a b : str) :
  tag_follows a = true -> tag_follows (a ++ b) = true.
Proof.
  destruct a as [|x t]; [discriminate|]. cbn [tag_follows app].
  intros H. apply andb_true_iff in H as [Hx Ht]. rewrite Hx. cbn [andb].
  rewrite existsb_app, Ht. reflexivity.
Qed.

Lemma has_markup_app_l (a b : str) :
  has_markup (a ++ b) = false -> has_markup a = false.
Proof.
  induction a as [|c a IH]; [reflexivity|].
  cbn [app has_markup]. intros H. apply orb_false_iff in H as [Hc Ha].
  rewrite (IH Ha), orb_false_r.
  destruct (tag_at (c :: a)) eqn:E; [|reflexivity].
  cbn [tag_at] in *. apply andb_true_iff in E as [E1 E2].
  rewrite E1, (tag_follows_app _ b E2) in Hc. discriminate.
Qed.

Lemma has_markup_app_r (a b : str) :
  has_markup (a ++ b) = false -> has_markup b = false.
Proof.
  induction a as [|c a IH]; [tauto|].
  cbn [app has_markup]. intros H. apply orb_false_iff in H as [_ Ha].
  now apply IH.
Qed.

(** What [lstrip] leaves is the end of the text, and what [rstrip] leaves
    is its start. *)
Lemma lstrip_suffix (skip : nat) (s : str) :
  exists a, s = a ++ lstrip skip s.
Proof.
  revert skip. induction s as [|c s IH]; intros skip.
  - now exists [].
  - cbn [lstrip]. destruct skip as [|k].
    + destruct (space_len (c :: s)) as [|n]; [now exists []|].
      destruct (IH n) as [a Ha]. exists (c :: a). simpl. now f_equal.
    + destruct (IH k) as [a Ha]. exists (c :: a). simpl. now f_equal.
Qed.

Lemma rstrip_prefix (s : str) : exists b, s = rstrip s ++ b.
Proof.
  induction s as [|c s [b IH]].
  - now exists [].
  - cbn [rstrip]. destruct (all_space 0 (c :: s)).
    + now exists (c :: s).
    + exists b. simpl. now f_equal.
Qed.

Lemma strip_no_markup (s : str) :
  has_markup s = false -> has_markup (strip s) = false.
Proof.
  intros H. unfold strip.
  destruct (lstrip_suffix 0 s) as [a Ha].
  destruct (rstrip_prefix (lstrip 0 s)) as [b Hb].
  rewrite Ha in H. apply has_markup_app_r in H.
  rewrite Hb in H. now apply has_markup_app_l in H.
Qed.

(** The three steps never make the text longer. *)
Lemma sub_tags_length (in_tag : bool) (s : str) :
  List.length (sub_tags in_tag s) <= List.length s.
Proof.
  revert in_tag. induction s as [|c s IH]; intros in_tag; [reflexivity|].
  cbn [sub_tags]. destruct in_tag.
  - destruct (Ascii.eqb c GT); [specialize (IH false)|specialize (IH true)];
      simpl; lia.
  - destruct (Ascii.eqb c LT && tag_follows s);
      [specialize (IH true)|specialize (IH false)]; simpl; lia.
Qed.

Lemma collapse_spaces_length (skip : nat) (in_run : bool) (s : str) :
  List.length (collapse_spaces skip in_run s) <= List.length s.
Proof.
  revert skip in_run. induction s as [|c s IH]; intros skip in_run;
    [reflexivity|].
  cbn [collapse_spaces]. destruct skip as [|k].
  - destruct (space_len (c :: s)) as [|n].
    + specialize (IH 0 false). simpl. lia.
    + specialize (IH n true). destruct in_run; simpl; lia.
  - specialize (IH k in_run). simpl. lia.
Qed.

Lemma strip_length (s : str) : List.length (strip s) <= List.length s.
Proof.
  unfold strip.
  destruct (lstrip_suffix 0 s) as [a Ha].
  destruct (rstrip_prefix (lstrip 0 s)) as [b Hb].
  rewrite Ha at 2. rewrite length_app. rewrite Hb at 2. rewrite length_app. lia.
Qed.

(** The text that [strip_html] returns holds no tag: it has no [<] that is
    followed by one character or more other than [>] and then by a [>].
    It is not longer than the markup it was made from. *)
Theorem strip_html_no_markup (html : str) :
  has_markup (strip_html html) = false
  /\ (forall a x b,
        strip_html html = a ++ LT :: x ++ GT :: b -> x = [] \/ In GT x)
  /\ List.length (strip_html html) <= List.length html.
Proof.
  assert (H : has_markup (strip_html html) = false).
  { unfold strip_html. apply strip_no_markup, collapse_spaces_no_markup,
      sub_tags_no_markup. }
  split; [exact H|]. split.
  - intros a x b E.
    destruct x as [|y x]; [now left|]. right.
    destruct (in_dec ascii_dec GT (y :: x)) as [Hin|Hn]; [exact Hin|].
    exfalso. apply not_true_iff_false in H. apply H.
    apply has_markup_iff. exists a, (y :: x), b.
    split; [exact E|]. split; [discriminate|exact Hn].
  - unfold strip_html.
    pose proof (strip_length (collapse_spaces 0 false (sub_tags false html))).
    pose proof (collapse_spaces_length 0 false (sub_tags false html)).
    pose proof (sub_tags_length false html). lia.
Qed.

(** *** The whitespace of the text *)

Lemma space_len_space (s : str) : space_len (" "%char :: s) = 1.
Proof. reflexivity. Qed.

(** A character that is no whitespace does not become one when a space
    takes the place of its second or third neighbour. *)
Lemma space_len_second_space (c c1 : ascii) (s1 x : str) :
  space_len (c :: c1 :: s1) = 0 -> space_len (c :: " "%char :: x) = 0.
Proof.
  unfold space_len. cbn [map].
  change (nat_of_ascii " ") with 32.
  set (b := nat_of_ascii c). set (b1 := nat_of_ascii c1).
  destruct (((9 <=? b) && (b <=? 13)) || ((28 <=? b) && (b <=? 32)));
    [discriminate|]. intros _.
  destruct (b =? 194), (b =? 225), (b =? 226), (b =? 227);
    destruct x as [|x2 x]; reflexivity.
Qed.

Lemma space_len_third_space (c c1 c2 : ascii) (s2 x : str) :
  space_len (c :: c1 :: c2 :: s2) = 0 ->
  space_len (c :: c1 :: " "%char :: x) = 0.
Proof.
  unfold space_len. cbn [map].
  change (nat_of_ascii " ") with 32.
  set (b := nat_of_ascii c). set (b1 := nat_of_ascii c1).
  set (b2 := nat_of_ascii c2).
  destruct (((9 <=? b) && (b <=? 13)) || ((28 <=? b) && (b <=? 32)));
    [discriminate|].
  destruct ((b =? 194) && ((b1 =? 133) || (b1 =? 160))); [discriminate|].
  intros _.
  destruct (b =? 225), (b =? 226), (b =? 227), (b1 =? 154), (b1 =? 128),
    (b1 =? 129); reflexivity.
Qed.

(** Nor when the text after it ends earlier. *)
Lemma space_len_cut (a b : str) : space_len (a ++ b) = 0 -> space_len a = 0.
Proof.
  destruct a as [|c [|c1 [|c2 a]]]; try reflexivity.
  - unfold space_len. cbn [map app].
    destruct (((9 <=? nat_of_ascii c) && (nat_of_ascii c <=? 13))
              || ((28 <=? nat_of_ascii c) && (nat_of_ascii c <=? 32)));
      [|reflexivity].
    destruct b as [|x b]; [tauto|]. cbn [map]. tauto.
  - unfold space_len. cbn [map app].
    destruct (((9 <=? nat_of_ascii c) && (nat_of_ascii c <=? 13))
              || ((28 <=? nat_of_ascii c) && (nat_of_ascii c <=? 32)));
      [tauto|].
    destruct ((nat_of_ascii c =? 194)
              && ((nat_of_ascii c1 =? 133) || (nat_of_ascii c1 =? 160)));
      [tauto|reflexivity].
  - tauto.
Qed.

(** A kept character is no whitespace in the result of the second pass. *)
Lemma space_len_collapse_head (c : ascii) (s : str) :
  space_len (c :: s) = 0 ->
  space_len (c :: collapse_spaces 0 false s) = 0.
Proof.
  intros H. destruct s as [|c1 s1]; [exact H|].
  cbn [collapse_spaces]. destruct (space_len (c1 :: s1)) as [|n].
  - destruct s1 as [|c2 s2]; [exact H|].
    cbn [collapse_spaces]. destruct (space_len (c2 :: s2)) as [|m].
    + exact H.
    + change (lit " " ++ collapse_spaces m true s2)
        with (" "%char :: collapse_spaces m true s2).
      exact (space_len_third_space _ _ _ _ _ H).
  - change (lit " " ++ collapse_spaces n true s1)
      with (" "%char :: collapse_spaces n true s1).
    exact (space_len_second_space _ _ _ _ H).
Qed.

(** Within a run, the second pass goes on to a character that is no
    whitespace. *)
Lemma space_len_collapse_run (skip : nat) (s : str) :
  space_len (collapse_spaces skip true s) = 0.
Proof.
  revert skip. induction s as [|c s IH]; intros skip; [reflexivity|].
  cbn [collapse_spaces]. destruct skip as [|k]; [|apply IH].
  destruct (space_len (c :: s)) as [|n] eqn:E.
  - now apply space_len_collapse_head.
  - cbn [app]. apply IH.
Qed.

Lemma collapse_spaces_single (skip : nat) (in_run : bool) (s : str) :
  spaces_single (collapse_spaces skip in_run s) = true.
Proof.
  revert skip in_run. induction s as [|c s IH]; intros skip in_run;
    [reflexivity|].
  cbn [collapse_spaces]. destruct skip as [|k]; [|apply IH].
  destruct (space_len (c :: s)) as [|n] eqn:E.
  - cbn [spaces_single]. rewrite (space_len_collapse_head _ _ E). apply IH.
  - destruct in_run; cbn [app]; [apply IH|].
    change (lit " " ++ collapse_spaces n true s)
      with (" "%char :: collapse_spaces n true s).
    cbn [spaces_single]. rewrite space_len_space, space_len_collapse_run, IH.
    reflexivity.
Qed.

Lemma spaces_single_inv (c : ascii) (s : str) (n : nat) :
  spaces_single (c :: s) = true -> space_len (c :: s) = S n ->
  c = " "%char /\ n = 0 /\ space_len s = 0 /\ spaces_single s = true.
Proof.
  cbn [spaces_single]. intros H E. rewrite E in H.
  apply andb_true_iff in H as [H Hs]. apply andb_true_iff in H as [Hc Hl].
  apply Ascii.eqb_eq in Hc. subst c. apply Nat.eqb_eq in Hl.
  rewrite space_len_space in E. repeat split; [congruence|assumption..].
Qed.

Lemma spaces_single_tail (c : ascii) (s : str) :
  spaces_single (c :: s) = true -> spaces_single s = true.
Proof.
  intros H. destruct (space_len (c :: s)) as [|n] eqn:E.
  - cbn [spaces_single] in H. now rewrite E in H.
  - now destruct (spaces_single_inv _ _ H E) as (_ & _ & _ & Hs).
Qed.

Lemma lstrip_single (s : str) :
  spaces_single s = true ->
  space_len (lstrip 0 s) = 0 /\ spaces_single (lstrip 0 s) = true.
Proof.
  intros H. destruct s as [|c s]; [now split|].
  cbn [lstrip]. destruct (space_len (c :: s)) as [|n] eqn:E; [now split|].
  destruct (spaces_single_inv _ _ H E) as (_ & -> & Hl & Hs).
  destruct s as [|c' s]; [now split|].
  cbn [lstrip]. rewrite Hl. now split.
Qed.

Lemma spaces_single_prefix (a b : str) :
  spaces_single (a ++ b) = true -> spaces_single a = true.
Proof.
  induction a as [|c a IH]; [reflexivity|]. intros H.
  change ((c :: a) ++ b) with (c :: (a ++ b)) in H.
  destruct (space_len (c :: a ++ b)) as [|n] eqn:E.
  - cbn [spaces_single] in *. rewrite E in H.
    rewrite (space_len_cut (c :: a) b E). now apply IH.
  - destruct (spaces_single_inv _ _ H E) as (-> & _ & Hl & Hs).
    cbn [spaces_single]. rewrite space_len_space, Ascii.eqb_refl.
    rewrite (space_len_cut a b Hl), (IH Hs). reflexivity.
Qed.

Lemma all_space_space (s : str) :
  all_space 0 (" "%char :: s) = all_space 0 s.
Proof. reflexivity. Qed.

Lemma rstrip_nil (s : str) :
  rstrip s = [] -> s = [] \/ all_space 0 s = true.
Proof.
  destruct s as [|c s]; [now left|]. cbn [rstrip].
  destruct (all_space 0 (c :: s)); [now right|discriminate].
Qed.

Lemma rstrip_no_final_space (s : str) : no_final_space (rstrip s) = true.
Proof.
  induction s as [|c s IH]; [reflexivity|].
  cbn [rstrip]. destruct (all_space 0 (c :: s)) eqn:E; [reflexivity|].
  destruct (rstrip s) as [|x y] eqn:Er.
  - cbn [no_final_space]. apply negb_true_iff, Ascii.eqb_neq. intros ->.
    rewrite all_space_space in E.
    destruct (rstrip_nil _ Er) as [->|H]; [discriminate|congruence].
  - exact IH.
Qed.

(** The whitespace of the result of [strip] after the second pass: the
    text starts with no whitespace, ends with none, and holds single spaces
    only. *)
Lemma strip_single (s : str) :
  spaces_single s = true ->
  space_len (strip s) = 0 /\ spaces_single (strip s) = true
  /\ no_final_space (strip s) = true.
Proof.
  intros H. unfold strip.
  destruct (lstrip_single _ H) as [Hl Hs].
  destruct (rstrip_prefix (lstrip 0 s)) as [b Hb].
  split; [|split].
  - rewrite Hb in Hl. exact (space_len_cut _ _ Hl).
  - rewrite Hb in Hs. exact (spaces_single_prefix _ _ Hs).
  - apply rstrip_no_final_space.
Qed.

Lemma no_final_space_app (a : str) :
  no_final_space (a ++ [" "%char]) = false.
Proof.
  induction a as [|c a IH]; [reflexivity|].
  destruct a as [|c' a]; [reflexivity|]. exact IH.
Qed.

Lemma spaces_single_suffix (a t : str) :
  spaces_single (a ++ t) = true -> spaces_single t = true.
Proof.
  induction a as [|c a IH]; [tauto|]. intros H.
  apply IH. exact (spaces_single_tail _ _ H).
Qed.

(** The whitespace of the text of [strip_html] is normal: wherever a
    whitespace character stands in it, it is a space, it is not the first
    and not the last character, and the character after it is no
    whitespace. *)
Theorem strip_html_spaces (html : str) (a t : str) :
  strip_html html = a ++ t ->
  space_len t <> 0 ->
  a <> [] /\ exists t', t = " "%char :: t' /\ t' <> [] /\ space_len t' = 0.
Proof.
  intros E Ht.
  destruct (strip_single (collapse_spaces 0 false (sub_tags false html))
              (collapse_spaces_single 0 false _)) as (H0 & Hs & Hf).
  fold (strip_html html) in H0, Hs, Hf. rewrite E in H0, Hs, Hf.
  split.
  - intros ->. now apply Ht.
  - apply spaces_single_suffix in Hs.
    destruct t as [|c t']; [now elim Ht|].
    destruct (space_len (c :: t')) as [|n] eqn:El; [now elim Ht|].
    destruct (spaces_single_inv _ _ Hs El) as (-> & _ & Hl & _).
    exists t'. split; [reflexivity|]. split; [|exact Hl].
    intros ->. now rewrite no_final_space_app in Hf.
Qed.

(** A text with an indented line and a tab: the spaces of the result stand
    alone and inside. *)
Lemma strip_html_spaces_witness :
  let html := lit "<p>a
	 b</p>  " in
  strip_html html = lit "a" ++ lit " b"
  /\ space_len (lit " b") <> 0
  /\ exists t', lit " b" = " "%char :: t' /\ t' <> [] /\ space_len t' = 0.
Proof.
  intros html.
  assert (E : strip_html html = lit "a" ++ lit " b") by (vm_compute; reflexivity).
  assert (Ht : space_len (lit " b") <> 0) by (vm_compute; discriminate).
  split; [exact E|]. split; [exact Ht|].
  exact (proj2 (@strip_html_spaces html (lit "a") (lit " b") E Ht)).
Defined.

Lemma sub_tags_plain (s : str) :
  has_markup s = false -> sub_tags false s = s.
Proof.
  induction s as [|c s IH]; [reflexivity|].
  cbn [has_markup tag_at sub_tags]. intros H.
  apply orb_false_iff in H as [Hc Hs]. rewrite Hc. f_equal. now apply IH.
Qed.

Lemma collapse_spaces_plain (in_run : bool) (s : str) :
  spaces_single s = true ->
  (in_run = true -> space_len s = 0) ->
  collapse_spaces 0 in_run s = s.
Proof.
  revert in_run. induction s as [|c s IH]; intros in_run H Hrun;
    [reflexivity|].
  cbn [collapse_spaces]. destruct (space_len (c :: s)) as [|n] eqn:E.
  - f_equal. apply IH; [exact (spaces_single_tail _ _ H)|discriminate].
  - destruct in_run; [specialize (Hrun eq_refl); discriminate|].
    destruct (spaces_single_inv _ _ H E) as (-> & -> & Hl & Hs).
    change (lit " " ++ collapse_spaces 0 true s)
      with (" "%char :: collapse_spaces 0 true s).
    f_equal. apply IH; [exact Hs|now intros _].
Qed.

Lemma all_space_single (s : str) :
  s <> [] -> spaces_single s = true -> no_final_space s = true ->
  all_space 0 s = false.
Proof.
  destruct s as [|c s]; [congruence|]. intros _ H Hf.
  cbn [all_space]. destruct (space_len (c :: s)) as [|n] eqn:E; [reflexivity|].
  destruct (spaces_single_inv _ _ H E) as (-> & -> & Hl & Hs).
  destruct s as [|c' s]; [discriminate Hf|].
  cbn [all_space]. now rewrite Hl.
Qed.

Lemma rstrip_plain (s : str) :
  spaces_single s = true -> no_final_space s = true -> rstrip s = s.
Proof.
  induction s as [|c s IH]; intros H Hf; [reflexivity|].
  cbn [rstrip]. rewrite all_space_single by (assumption || discriminate).
  f_equal. destruct s as [|c' s]; [reflexivity|].
  apply IH; [exact (spaces_single_tail _ _ H)|exact Hf].
Qed.

Lemma lstrip_plain (s : str) : space_len s = 0 -> lstrip 0 s = s.
Proof.
  intros H. destruct s as [|c s]; [reflexivity|]. cbn [lstrip]. now rewrite H.
Qed.

(** [strip_html] is idempotent: the text it returns is a text it returns
    as it is. *)
Theorem strip_html_idempotent (html : str) :
  strip_html (strip_html html) = strip_html html.
Proof.
  destruct (strip_single (collapse_spaces 0 false (sub_tags false html))
              (collapse_spaces_single 0 false _)) as (H0 & Hs & Hf).
  assert (Hm : has_markup (strip_html html) = false).
  { unfold strip_html. apply strip_no_markup, collapse_spaces_no_markup,
      sub_tags_no_markup. }
  fold (strip_html html) in H0, Hs, Hf.
  unfold strip_html at 1. cbv zeta.
  rewrite (@sub_tags_plain _ Hm).
  rewrite (@collapse_spaces_plain false _ Hs) by discriminate.
  unfold strip. rewrite (@lstrip_plain _ H0). now apply rstrip_plain.
Qed.

(** The bodies of the search index hold no tag, whatever the articles
    are, and the index has one entry per article, in the order of the sort
    by descending date; an article without content, or with an empty one,
    has an empty body. *)
Theorem search_entries_bodies (articles : list article) :
  List.length (search_entries articles) = List.length articles
  /\ map e_date (search_entries articles)
     = map date_key (sorted_by_date articles)
  /\ Forall (fun e => has_markup (e_body e) = false) (search_entries articles)
  /\ (forall a, In a articles -> get (a_content_html a) [] = [] ->
                In (search_entry_of a) (search_entries articles)
                /\ e_body (search_entry_of a) = []).
Proof.
  assert (Hperm : Permutation (sorted_by_date articles) articles)
    by apply sorted_desc_perm.
  unfold search_entries. split; [|split; [|split]].
  - rewrite length_map. now apply Permutation_length.
  - rewrite map_map. reflexivity.
  - apply Forall_forall. intros e He.
    apply in_map_iff in He as (a & <- & _).
    unfold search_entry_of. cbn [e_body].
    destruct (get (a_content_html a) []) as [|c s]; [reflexivity|].
    unfold strip_html. apply strip_no_markup, collapse_spaces_no_markup,
      sub_tags_no_markup.
  - intros a Ha Hc. split.
    + apply in_map. now apply (Permutation_in _ (Permutation_sym Hperm)).
    + unfold search_entry_of. cbn [e_body]. now rewrite Hc.
Qed.

(* ================================================================= *)
(** ** The cards of the pages *)

Lemma traverse_some_iff {A B : Type} (f : A -> option B) (l : list A) :
  traverse f l <> None <-> Forall (fun x => f x <> None) l.
Proof.
  split.
  - intros H. destruct (traverse f l) as [ys|] eqn:E; [|congruence].
    apply traverse_Forall2 in E. clear H.
    induction E as [|x y l ys Hx Hl IH]; constructor; [congruence|exact IH].
  - intros H. destruct (traverse_total f H) as [ys ->]. discriminate.
Qed.

Lemma Forall_iff {A : Type} (P Q : A -> Prop) (l : list A) :
  (forall x, P x <-> Q x) -> (Forall P l <-> Forall Q l).
Proof.
  intros H. split; apply Forall_impl; intros x; apply H.
Qed.

Lemma strongly_sorted_app {A : Type} (R : A -> A -> Prop) (l1 l2 : list A) :
  StronglySorted R (l1 ++ l2) ->
  forall a b, In a l1 -> In b l2 -> R a b.
Proof.
  induction l1 as [|x l1 IH]; intros H a b Ha Hb; [destruct Ha|].
  inversion H as [|x' l' Hs Hall]; subst.
  destruct Ha as [<-|Ha].
  - rewrite Forall_forall in Hall. apply Hall. apply in_or_app. now right.
  - now apply IH.
Qed.

Lemma homepage_card_some (a : article) :
  homepage_card a <> None <-> has_title_slug a.
Proof.
  unfold homepage_card, has_title_slug.
  destruct (a_title a), (a_slug a); cbn [bind option_map]; split;
    try discriminate; try tauto; try (intros _; split; discriminate).
Qed.

Lemma homepage_card_one (a : article) (card : str) :
  homepage_card a = Some card -> counts ARTICLE_OPEN 1 card.
Proof.
  unfold homepage_card.
  destruct (a_title a) as [title|]; [|discriminate].
  destruct (a_slug a) as [slug|]; [|discriminate].
  cbn [bind option_map]. cbv zeta. intros H. apply Some_eq in H. subst card.
  assert (Hspans : counts ARTICLE_OPEN 0
                     (homepage_tag_spans (get (a_tags a) []))).
  { unfold homepage_tag_spans. eapply counts_eq.
    - apply counts_concat with (n := 0). apply Forall_forall.
      intros s Hs. apply in_map_iff in Hs as (t & <- & _).
      unfold tag_span. eapply counts_eq; [counts_tree|reflexivity].
    - reflexivity. }
  unfold homepage_card_open, homepage_card_close.
  eapply counts_eq; [counts_tree|reflexivity].
Qed.

(** The homepage fragment is produced exactly when the articles it shows,
    the first [limit] of the sort, have a title and a slug; an article
    further down may lack them.  The fragment holds [min limit n] cards for
    a store of [n] articles, and no article it leaves out has a date above
    the date of an article it shows. *)
Theorem make_homepage_cards_limit (articles : list article) (limit : nat) :
  (make_homepage_cards articles limit <> None
   <-> Forall has_title_slug (firstn limit (sorted_by_date articles)))
  /\ (forall fragment,
        make_homepage_cards articles limit = Some fragment ->
        occurrences ARTICLE_OPEN fragment
        = Nat.min limit (List.length articles))
  /\ (forall shown hidden,
        In shown (firstn limit (sorted_by_date articles)) ->
        In hidden (skipn limit (sorted_by_date articles)) ->
        str_ltb (date_key shown) (date_key hidden) = false)
  /\ make_homepage_cards [] limit = Some [].
Proof.
  split; [|split; [|split]].
  - unfold make_homepage_cards. cbv zeta.
    rewrite <- (Forall_iff _ _ _ homepage_card_some).
    rewrite <- traverse_some_iff.
    destruct (traverse homepage_card _); cbn [bind]; split; congruence.
  - intros fragment H. unfold make_homepage_cards in H. cbv zeta in H.
    destruct (traverse homepage_card _) as [blocks|] eqn:E; [|discriminate].
    cbn [bind] in H. apply Some_eq in H. subst fragment.
    apply traverse_Forall2 in E.
    eapply counts_occurrences.
    + apply counts_join with (n := 1).
      * split; vm_compute; reflexivity.
      * apply Forall_forall. intros block Hb.
        destruct (@Forall2_In_r _ _ _ _ _ _ E Hb) as (a & _ & Ha).
        exact (homepage_card_one a Ha).
    + rewrite <- (Forall2_length E), length_firstn, Nat.mul_1_l.
      unfold sorted_by_date.
      now rewrite (Permutation_length (sorted_desc_perm date_key articles)).
  - intros shown hidden Hs Hh.
    pose proof (sorted_desc_sorted date_key articles) as Hsorted.
    fold (sorted_by_date articles) in Hsorted.
    rewrite <- (firstn_skipn limit (sorted_by_date articles)) in Hsorted.
    exact (@strongly_sorted_app _ _ _ _ Hsorted _ _ Hs Hh).
  - destruct limit; reflexivity.
Qed.

Lemma articles_card_some (a : article) :
  articles_card a <> None <-> has_title_slug a.
Proof.
  unfold articles_card, has_title_slug.
  destruct (a_title a), (a_slug a); cbn [bind option_map]; split;
    try discriminate; try tauto; try (intros _; split; discriminate).
Qed.

Lemma articles_card_one (a : article) (card : str) :
  articles_card a = Some card -> counts CARD_OPEN 1 card.
Proof.
  unfold articles_card.
  destruct (a_title a) as [title|]; [|discriminate].
  destruct (a_slug a) as [slug|]; [|discriminate].
  cbn [bind option_map]. cbv zeta. intros H. apply Some_eq in H. subst card.
  assert (Htags : counts CARD_OPEN 0
                    (join (lit " ") (map tag_html (get (a_tags a) [])))).
  { eapply counts_eq.
    - apply counts_join with (n := 0).
      + split; vm_compute; reflexivity.
      + apply Forall_forall. intros s Hs.
        apply in_map_iff in Hs as (t & <- & _).
        unfold tag_html. eapply counts_eq; [counts_tree|reflexivity].
    - reflexivity. }
  eapply counts_eq; [counts_tree|reflexivity].
Qed.

(** The articles page is produced exactly when every article of the store
    has a title and a slug, and it holds one card per article: the opening
    tag of a card occurs in it as often as the store has articles.  The
    page of an empty store is the head and the tail of the page. *)
Theorem make_articles_page_cards (articles : list article) :
  (make_articles_page articles <> None <-> Forall has_title_slug articles)
  /\ (forall page,
        make_articles_page articles = Some page ->
        occurrences CARD_OPEN page = List.length articles)
  /\ make_articles_page [] = Some (articles_page_head ++ articles_page_tail).
Proof.
  assert (Hperm : Permutation (sorted_by_date articles) articles)
    by apply sorted_desc_perm.
  split; [|split].
  - unfold make_articles_page. cbv zeta.
    rewrite <- (Forall_iff _ _ _ articles_card_some).
    transitivity (Forall (fun a => articles_card a <> None)
                    (sorted_by_date articles)).
    + rewrite <- traverse_some_iff.
      destruct (traverse articles_card _); cbn [bind]; split; congruence.
    + split; apply Permutation_Forall;
        [exact Hperm|exact (Permutation_sym Hperm)].
  - intros page H. unfold make_articles_page in H. cbv zeta in H.
    destruct (traverse articles_card _) as [cards|] eqn:E; [|discriminate].
    cbn [bind] in H. apply Some_eq in H. subst page.
    apply traverse_Forall2 in E. unfold articles_page_shell.
    assert (Hcards : counts CARD_OPEN (1 * List.length cards)
                       (List.concat cards)).
    { apply counts_concat. apply Forall_forall. intros card Hc.
      destruct (@Forall2_In_r _ _ _ _ _ _ E Hc) as (a & _ & Ha).
      exact (articles_card_one a Ha). }
    assert (Hhead : counts CARD_OPEN 0 articles_page_head).
    { unfold articles_page_head.
      eapply counts_eq; [counts_tree|reflexivity]. }
    assert (Htail : counts CARD_OPEN 0 articles_page_tail).
    { unfold articles_page_tail.
      eapply counts_eq; [counts_tree|reflexivity]. }
    eapply counts_occurrences; [counts_tree|].
    rewrite <- (Forall2_length E), (Permutation_length Hperm). lia.
  - reflexivity.
Qed.

Lemma category_card_some (a : article) :
  category_card a <> None <-> has_title_slug a.
Proof.
  unfold category_card, has_title_slug.
  destruct (a_title a), (a_slug a); cbn [bind option_map]; split;
    try discriminate; try tauto; try (intros _; split; discriminate).
Qed.

Lemma category_card_one (a : article) (card : str) :
  category_card a = Some card -> counts ARTICLE_OPEN 1 card.
Proof.
  unfold category_card.
  destruct (a_title a) as [title|]; [|discriminate].
  destruct (a_slug a) as [slug|]; [|discriminate].
  cbn [bind option_map]. cbv zeta. intros H. apply Some_eq in H. subst card.
  eapply counts_eq; [counts_tree|reflexivity].
Qed.

Lemma category_page_shell_counts (info : category) (n : nat) (cards_html : str) :
  counts ARTICLE_OPEN n cards_html ->
  occurrences ARTICLE_OPEN (category_page_shell info cards_html) = n.
Proof.
  intros H. unfold category_page_shell.
  eapply counts_occurrences; [counts_tree|lia].
Qed.

(** The page of a category is produced exactly when the articles that
    carry the key of the category as a tag have a title and a slug; the
    other articles may lack them.  It holds one card per such article, and
    for a category without articles it is the shell around the placeholder,
    with no card. *)
Theorem make_category_page_cards (tag_name : str) (info : category)
    (articles : list article) :
  (make_category_page tag_name info articles <> None
   <-> Forall has_title_slug (filter (has_tag tag_name) articles))
  /\ (forall page,
        make_category_page tag_name info articles = Some page ->
        occurrences ARTICLE_OPEN page
        = List.length (filter (has_tag tag_name) articles))
  /\ (filter (has_tag tag_name) articles = [] ->
      make_category_page tag_name info articles
      = Some (category_page_shell info NO_ARTICLES)
      /\ occurrences ARTICLE_OPEN (category_page_shell info NO_ARTICLES) = 0).
Proof.
  assert (Hperm : Permutation (category_articles tag_name articles)
                    (filter (has_tag tag_name) articles))
    by apply sorted_desc_perm.
  split; [|split].
  - unfold make_category_page.
    rewrite <- (Forall_iff _ _ _ category_card_some).
    transitivity (Forall (fun a => category_card a <> None)
                    (category_articles tag_name articles)).
    + rewrite <- traverse_some_iff.
      destruct (traverse category_card _); cbn [bind]; split; congruence.
    + split; apply Permutation_Forall;
        [exact Hperm|exact (Permutation_sym Hperm)].
  - intros page H. unfold make_category_page in H.
    destruct (traverse category_card _) as [cards|] eqn:E; [|discriminate].
    cbn [bind] in H. apply Some_eq in H. subst page.
    apply traverse_Forall2 in E.
    rewrite <- (Permutation_length Hperm), (Forall2_length E).
    apply category_page_shell_counts.
    destruct cards as [|card cards].
    + split; vm_compute; reflexivity.
    + unfold category_cards_html. eapply counts_eq.
      * apply counts_join with (n := 1).
        -- split; vm_compute; reflexivity.
        -- apply Forall_forall. intros c Hc.
           destruct (@Forall2_In_r _ _ _ _ _ _ E Hc) as (a & _ & Ha).
           exact (category_card_one a Ha).
      * lia.
  - intros Hnil. split.
    + unfold make_category_page, category_articles. rewrite Hnil. reflexivity.
    + apply category_page_shell_counts. split; vm_compute; reflexivity.
Qed.

(* ================================================================= *)
(** ** A second update of the homepage *)

Lemma startswith_long (x b pat : str) :
  List.length pat <= List.length x ->
  startswith (x ++ b) pat = startswith x pat.
Proof.
  revert x. induction pat as [|p pat IH]; intros x H.
  - now rewrite !startswith_nil.
  - destruct x as [|c x]; [simpl in H; lia|].
    cbn [app startswith]. f_equal. apply IH. simpl in H. lia.
Qed.

(** The place of the first occurrence does not depend on the text after
    it. *)
Lemma split_first_same_prefix (pat a b b' : str) :
  split_first pat (a ++ pat ++ b) = Some (a, b) ->
  split_first pat (a ++ pat ++ b') = Some (a, b').
Proof.
  induction a as [|c a IH]; intros H.
  - cbn [app]. rewrite split_first_eq, startswith_app.
    now rewrite skipn_app, skipn_all, Nat.sub_diag.
  - rewrite split_first_eq in H. rewrite split_first_eq.
    assert (E : startswith ((c :: a) ++ pat ++ b') pat
                = startswith ((c :: a) ++ pat ++ b) pat).
    { rewrite !app_assoc.
      rewrite !(startswith_long ((c :: a) ++ pat)); [reflexivity| |];
        rewrite length_app; lia. }
    rewrite E.
    destruct (startswith ((c :: a) ++ pat ++ b) pat); [discriminate|].
    cbn [app] in *.
    destruct (split_first pat (a ++ pat ++ b)) as [[x y]|] eqn:Es;
      [|discriminate].
    injection H as Hx Hy. subst x y. now rewrite (IH eq_refl).
Qed.

(** The first occurrence after a text that holds none and lets none start
    in it. *)
Lemma split_first_counts (pat a b : str) :
  pat <> [] -> counts pat 0 a ->
  split_first pat (a ++ pat ++ b) = Some (a, b).
Proof.
  intros Hpat. induction a as [|c a IH]; intros [Hs Ho].
  - cbn [app]. rewrite split_first_eq, startswith_app.
    now rewrite skipn_app, skipn_all, Nat.sub_diag.
  - cbn [no_straddle] in Hs. apply andb_true_iff in Hs as [Hc Hs].
    apply negb_true_iff in Hc. cbn [occurrences] in Ho.
    destruct (startswith (c :: a) pat) eqn:E1; [discriminate|].
    assert (E2 : startswith ((c :: a) ++ pat ++ b) pat = false).
    { destruct (startswith ((c :: a) ++ pat ++ b) pat) eqn:E2;
        [|reflexivity].
      apply startswith_app_inv in E2 as [E2|[E2 Hl]]; [congruence|].
      apply Nat.ltb_lt in Hl. rewrite E2, Hl in Hc. discriminate. }
    rewrite split_first_eq, E2.
    change ((c :: a) ++ pat ++ b) with (c :: (a ++ pat ++ b)).
    cbv beta iota.
    rewrite IH; [reflexivity|]. split; [exact Hs|exact Ho].
Qed.

Lemma homepage_cards_no_end (articles : list article) (limit : nat)
    (new_cards : str) :
  make_homepage_cards articles limit = Some new_cards ->
  counts AUTO_END 0 (nl ++ new_cards ++ nl).
Proof.
  unfold make_homepage_cards. cbv zeta.
  destruct (traverse homepage_card _) as [blocks|] eqn:E; [|discriminate].
  cbn [bind]. intros H. apply Some_eq in H. subst new_cards.
  apply traverse_Forall2 in E.
  assert (Hnl : counts AUTO_END 0 nl) by (split; vm_compute; reflexivity).
  assert (Hjoin : counts AUTO_END 0 (join nl blocks)).
  { eapply counts_eq.
    - apply counts_join with (n := 0); [exact Hnl|].
      apply Forall_forall. intros block Hb.
      destruct (@Forall2_In_r _ _ _ _ _ _ E Hb) as (a & _ & Ha).
      unfold homepage_card in Ha.
      destruct (a_title a) as [title|]; [|discriminate].
      destruct (a_slug a) as [slug|]; [|discriminate].
      cbn [bind option_map] in Ha. cbv zeta in Ha.
      apply Some_eq in Ha. subst block.
      assert (Hspans : counts AUTO_END 0
                         (homepage_tag_spans (get (a_tags a) []))).
      { unfold homepage_tag_spans. eapply counts_eq.
        - apply counts_concat with (n := 0). apply Forall_forall.
          intros s Hs. apply in_map_iff in Hs as (t & <- & _).
          unfold tag_span. eapply counts_eq; [counts_tree|reflexivity].
        - reflexivity. }
      unfold homepage_card_open, homepage_card_close.
      eapply counts_eq; [counts_tree|reflexivity].
    - reflexivity. }
  eapply counts_eq; [counts_tree|reflexivity].
Qed.

(** An update of a homepage with one marked region keeps the two markers,
    and a second update with the same articles writes the same homepage
    again: the region is replaced by the same cards, and the markers the
    first update has written are the ones the second one finds.  The
    region is the one of the text that is read, the file with its newlines
    translated; the second update reads what the first has written, in
    which the cards may hold carriage returns.  (The replacement is taken
    literally, as it is when the cards hold no backslash.) *)
Theorem update_index_html_twice (expand_template : str -> option (str -> str))
    (fs : files) (articles : list article)
    (raw before rest region after new_cards : str) :
  fs INDEX_FILE = Some (encoded raw) ->
  split_first AUTO_START (universal_newlines raw) = Some (before, rest) ->
  split_first AUTO_END rest = Some (region, after) ->
  contains AUTO_START after = false ->
  make_homepage_cards articles 6 = Some new_cards ->
  expand_template (AUTO_START ++ nl ++ new_cards ++ nl ++ AUTO_END)
  = Some (fun _ => AUTO_START ++ nl ++ new_cards ++ nl ++ AUTO_END) ->
  let html2 := before ++ (AUTO_START ++ nl ++ new_cards ++ nl ++ AUTO_END)
               ++ after in
  update_index_html expand_template fs articles = Some [(INDEX_FILE, html2)]
  /\ contains AUTO_START html2 = true
  /\ contains AUTO_END html2 = true
  /\ update_index_html expand_template
       (apply_writes [(INDEX_FILE, html2)] fs) articles
     = Some [(INDEX_FILE, html2)].
Proof.
  intros Hfs H1 H2 Hafter Hcards Hexp html2.
  set (repl := AUTO_START ++ nl ++ new_cards ++ nl ++ AUTO_END) in *.
  pose proof (@split_first_Some _ _ _ _ H1) as E1.
  pose proof (@split_first_Some _ _ _ _ H2) as E2.
  assert (Hrun : forall (fs' : files) doc b r a,
             fs' INDEX_FILE = Some (encoded doc) ->
             split_first AUTO_START (universal_newlines doc) = Some (b, r) ->
             split_first AUTO_END r = Some (a, after) ->
             update_index_html expand_template fs' articles
             = Some [(INDEX_FILE, b ++ repl ++ after)]).
  { intros fs' doc b r a Hf Hs He.
    unfold update_index_html. rewrite Hf. cbn [read_text bind].
    rewrite (@split_first_contains _ _ _ _ Hs).
    assert (Hend : contains AUTO_END (universal_newlines doc) = true).
    { apply contains_iff. exists (b ++ AUTO_START ++ a), after.
      rewrite (@split_first_Some _ _ _ _ Hs), (@split_first_Some _ _ _ _ He).
      now rewrite <- !app_assoc. }
    rewrite Hend. cbn [negb orb]. rewrite Hcards. cbn [bind].
    unfold pattern_sub. fold repl. rewrite Hexp. cbn [bind].
    rewrite (@sub_markers_region _ _ _ _ _ _ Hs He).
    now rewrite (@sub_markers_no_start _ _ _ Hafter). }
  assert (Hcr : ~ In CR (before ++ AUTO_START ++ region ++ AUTO_END ++ after)).
  { rewrite <- E2, <- E1. apply newlines_no_cr. }
  assert (Hbefore : ~ In CR (before ++ AUTO_START)).
  { intros Hin. apply Hcr. rewrite app_assoc. apply in_or_app. now left. }
  assert (Htail : ~ In CR (AUTO_END ++ after)).
  { intros Hin. apply Hcr. rewrite !app_assoc, <- app_assoc.
    apply in_or_app. now right. }
  set (middle := newlines false ((nl ++ new_cards) ++ nl)).
  assert (Hread : universal_newlines html2
                  = before ++ AUTO_START ++ middle ++ AUTO_END ++ after).
  { unfold html2, repl, universal_newlines.
    replace (before ++ (AUTO_START ++ nl ++ new_cards ++ nl ++ AUTO_END) ++ after)
      with ((before ++ AUTO_START)
            ++ ((nl ++ new_cards) ++ nl ++ (AUTO_END ++ after)))
      by now rewrite <- !app_assoc.
    rewrite (@newlines_app_free (before ++ AUTO_START) _ Hbefore).
    rewrite newlines_app_nl. fold middle.
    rewrite (@newlines_id _ Htail). rewrite <- app_assoc. reflexivity. }
  assert (Hmiddle : counts AUTO_END 0 middle).
  { destruct markers_newline_free as (_ & Hfree & _ & Hne).
    apply counts_newlines; [exact Hfree|exact Hne|].
    rewrite <- app_assoc. exact (@homepage_cards_no_end _ _ _ Hcards). }
  assert (Hs2 : split_first AUTO_START (universal_newlines html2)
                = Some (before, middle ++ AUTO_END ++ after)).
  { rewrite Hread.
    apply (@split_first_same_prefix AUTO_START before rest).
    rewrite <- E1. exact H1. }
  assert (He2 : split_first AUTO_END (middle ++ AUTO_END ++ after)
                = Some (middle, after)).
  { apply split_first_counts; [discriminate|exact Hmiddle]. }
  split; [exact (Hrun fs raw before rest region Hfs H1 H2)|].
  split.
  { apply contains_iff. exists before, (nl ++ new_cards ++ nl ++ AUTO_END ++ after).
    unfold html2, repl. now rewrite <- !app_assoc. }
  split.
  - apply contains_iff. exists (before ++ AUTO_START ++ nl ++ new_cards ++ nl), after.
    unfold html2, repl. now rewrite <- !app_assoc.
  - apply (Hrun _ html2 before (middle ++ AUTO_END ++ after) middle);
      [|exact Hs2|exact He2].
    cbn [apply_writes fold_left fst snd]. apply write_file_same.
Qed.

(** The second update of a homepage with DOS line ends, one region and an
    empty store: the first update writes the line ends as line feeds, the
    second writes the same file. *)
Lemma update_index_html_twice_witness :
  let html2 := (lit "<h1>Home</h1>" ++ nl)
               ++ (AUTO_START ++ nl ++ [] ++ nl ++ AUTO_END)
               ++ (nl ++ lit "<footer/>") in
  update_index_html literal_template (only_homepage crlf_homepage) []
  = Some [(INDEX_FILE, html2)]
  /\ update_index_html literal_template
       (apply_writes [(INDEX_FILE, html2)] (only_homepage crlf_homepage)) []
     = Some [(INDEX_FILE, html2)].
Proof.
  intros html2.
  destruct (@update_index_html_twice literal_template
              (only_homepage crlf_homepage) []
              crlf_homepage (lit "<h1>Home</h1>" ++ nl)
              (lit "old cards" ++ AUTO_END ++ nl ++ lit "<footer/>")
              (lit "old cards") (nl ++ lit "<footer/>") [])
    as (H1 & _ & _ & H2).
  - reflexivity.
  - vm_compute. reflexivity.
  - vm_compute. reflexivity.
  - vm_compute. reflexivity.
  - reflexivity.
  - reflexivity.
  - split; [exact H1|exact H2].
Defined.

(* ================================================================= *)
(** ** The whole run *)

Lemma open_write_ok (path : str) (content : option str) :
  fst (open_write path content) = true <-> content <> None.
Proof.
  destruct content; cbn [open_write fst]; split; congruence.
Qed.

Lemma run_steps_ok (steps : list outcome) :
  fst (run_steps steps) = true <-> Forall (fun s => fst s = true) steps.
Proof.
  induction steps as [|step steps IH]; cbn [run_steps].
  - split; [constructor|reflexivity].
  - destruct (fst step) eqn:E; cbn [fst].
    + rewrite IH. split.
      * intros H. now constructor.
      * intros H. now inversion H.
    + split; [discriminate|]. intros H. inversion H. congruence.
Qed.

Lemma run_steps_writes (steps : list outcome) :
  fst (run_steps steps) = true ->
  snd (run_steps steps) = List.concat (map snd steps).
Proof.
  induction steps as [|step steps IH]; cbn [run_steps]; [reflexivity|].
  destruct (fst step); cbn [fst snd]; [|discriminate].
  intros H. cbn [map List.concat]. now rewrite IH.
Qed.

(** The two models of a loop of [with open] statements agree on a run that
    returns. *)
Lemma run_steps_traverse {A : Type} (path : A -> str) (f : A -> option str)
    (l : list A) (w : list (str * str)) :
  traverse (fun x => page <- f x ;; Some (path x, page)) l = Some w ->
  run_steps (map (fun x => open_write (path x) (f x)) l) = (true, w).
Proof.
  revert w. induction l as [|x l IH]; intros w; cbn [traverse map run_steps].
  - intros H. apply Some_eq in H. now subst w.
  - destruct (f x) as [page|]; cbn [bind open_write fst snd]; [|discriminate].
    destruct (traverse _ l) as [ws|]; cbn [bind]; [|discriminate].
    intros H. apply Some_eq in H. subst w.
    now rewrite (IH ws eq_refl).
Qed.

Lemma traverse_sorted_some {B : Type} (f : article -> option B)
    (P : article -> Prop) (articles : list article) :
  (forall a, f a <> None <-> P a) ->
  (traverse f (sorted_by_date articles) <> None <-> Forall P articles).
Proof.
  intros Hf.
  assert (Hperm : Permutation (sorted_by_date articles) articles)
    by apply sorted_desc_perm.
  rewrite traverse_some_iff, (Forall_iff _ _ _ Hf).
  split; apply Permutation_Forall;
    [exact Hperm|exact (Permutation_sym Hperm)].
Qed.

Lemma bind_some {A B : Type} (m : option A) (k : A -> B) :
  (x <- m ;; Some (k x)) <> None <-> m <> None.
Proof.
  destruct m; cbn [bind]; split; congruence.
Qed.

Lemma make_sitemap_some (articles : list article) :
  make_sitemap articles <> None <-> Forall has_url articles.
Proof.
  unfold make_sitemap, sitemap_urls.
  rewrite <- (@traverse_sorted_some _ sitemap_article has_url articles).
  - unfold sitemap_urls. now rewrite !bind_some.
  - intros a. unfold sitemap_article, has_url. apply bind_some.
Qed.

Lemma make_articles_page_some (articles : list article) :
  make_articles_page articles <> None <-> Forall has_title_slug articles.
Proof.
  unfold make_articles_page. cbv zeta.
  rewrite <- (@traverse_sorted_some _ articles_card has_title_slug articles
                articles_card_some).
  now rewrite bind_some.
Qed.

Lemma make_category_page_total (tag_name : str) (info : category)
    (articles : list article) :
  Forall has_title_slug articles ->
  make_category_page tag_name info articles <> None.
Proof.
  intros Hall. unfold make_category_page.
  assert (H : traverse category_card (category_articles tag_name articles)
              <> None).
  { apply traverse_some_iff.
    apply (Permutation_Forall
             (Permutation_sym (sorted_desc_perm date_key
                                 (filter (has_tag tag_name) articles)))).
    apply Forall_forall. intros a Ha. apply category_card_some.
    apply filter_In in Ha. rewrite Forall_forall in Hall.
    now apply Hall. }
  destruct (traverse category_card _); cbn [bind]; congruence.
Qed.

Lemma write_category_pages_total (articles : list article) :
  Forall has_title_slug articles ->
  exists pages,
    write_category_pages articles = Some pages
    /\ write_category_pages_run articles = (true, pages)
    /\ map fst pages = map cat_file CATEGORIES.
Proof.
  intros Hall.
  destruct (traverse_total
              (fun info => page <- make_category_page (cat_key info) info articles ;;
                           Some (cat_file info, page)) (l := CATEGORIES))
    as [pages Hpages].
  { apply Forall_forall. intros info _.
    pose proof (@make_category_page_total (cat_key info) info articles Hall).
    destruct (make_category_page _ _ _); cbn [bind]; congruence. }
  exists pages. split; [exact Hpages|]. split.
  - unfold write_category_pages_run. now apply run_steps_traverse.
  - apply traverse_Forall2 in Hpages.
    induction Hpages as [|info w l ws Hw _ IH]; [reflexivity|].
    cbn [map]. rewrite IH. f_equal.
    destruct (make_category_page _ _ _); cbn [bind] in Hw; [|discriminate].
    apply Some_eq in Hw. now subst w.
Qed.

Lemma apply_writes_app (w1 w2 : list (str * str)) (fs : files) :
  apply_writes (w1 ++ w2) fs = apply_writes w2 (apply_writes w1 fs).
Proof. unfold apply_writes. apply fold_left_app. Qed.

Lemma apply_writes_last (writes : list (str * str)) (path text : str)
    (fs : files) :
  apply_writes (writes ++ [(path, text)]) fs path = Some (encoded text).
Proof.
  rewrite apply_writes_app. cbn [apply_writes fold_left fst snd].
  apply write_file_same.
Qed.

(** Every file that the loop of [publish_drafts] writes is named by the
    slug of a draft. *)
Lemma publish_loop_write_paths (opens : str -> bool) (template : str)
    (existing : list (option str))
    (drafts : list draft) (st : pub_state) :
  exists writes,
    st_writes (snd (publish_loop opens template existing drafts st))
    = st_writes st ++ writes
    /\ Forall (fun w => In (Some (fst w)) (map d_slug drafts)) writes.
Proof.
  revert st. induction drafts as [|d drafts IH]; intros st.
  - exists []. cbn [publish_loop snd]. rewrite app_nil_r.
    split; [reflexivity|constructor].
  - cbn [publish_loop].
    destruct (publish_step opens template existing d st) as [st'|] eqn:E.
    + destruct (IH st') as (writes & Hw & Hall).
      assert (Hrest : Forall (fun w => In (Some (fst w)) (map d_slug (d :: drafts)))
                        writes).
      { eapply Forall_impl; [|exact Hall]. intros w Hin. now right. }
      apply publish_step_inv in E as [->|(slug & html & record & E)].
      * now exists writes.
      * destruct E as (Hd & _ & _ & _ & _ & ->). cbn [st_writes] in Hw.
        exists ((slug, html) :: writes). rewrite Hw, <- app_assoc.
        split; [reflexivity|]. constructor; [|exact Hrest].
        cbn [fst map]. left. now rewrite Hd.
    + exists []. cbn [snd]. rewrite app_nil_r. split; [reflexivity|constructor].
Qed.

Lemma publish_drafts_write_paths (fs : files) (drafts : list draft)
    (articles : list article) :
  Forall (fun w => In (Some (fst w)) (map d_slug drafts))
    (st_writes (snd (publish_drafts fs drafts articles))).
Proof.
  unfold publish_drafts. destruct (load_template fs) as [template|].
  - destruct (publish_loop_write_paths (can_open fs) template (existing_slugs articles)
                drafts {| st_articles := articles; st_writes := [];
                          st_published := 0 |}) as (writes & -> & Hall).
    exact Hall.
  - constructor.
Qed.

Lemma run_steps_paths (paths : list str) (steps : list outcome) :
  Forall (fun s => Forall (fun w => In (fst w) paths) (snd s)) steps ->
  Forall (fun w => In (fst w) paths) (snd (run_steps steps)).
Proof.
  induction 1 as [|step steps Hs _ IH]; cbn [run_steps snd]; [constructor|].
  destruct (fst step); cbn [snd]; [|exact Hs].
  apply Forall_app. now split.
Qed.

Lemma open_write_paths (paths : list str) (path : str) (content : option str) :
  In path paths ->
  Forall (fun w => In (fst w) paths) (snd (open_write path content)).
Proof.
  intros H. destruct content; cbn [open_write snd]; now repeat constructor.
Qed.

Lemma run_steps_leaves_empty (paths : list str) (steps : list outcome) :
  Forall (leaves_empty paths) steps -> leaves_empty paths (run_steps steps).
Proof.
  induction 1 as [|step steps Hs _ IH]; cbn [run_steps]; [now left|].
  destruct (fst step) eqn:E.
  - destruct IH as [IH|(before & p & Hw & Hp)]; [left; exact IH|].
    right. exists (snd step ++ before), p. cbn [snd].
    rewrite Hw, app_assoc. now split.
  - destruct Hs as [Hs|Hs]; [congruence|]. right. exact Hs.
Qed.

Lemma open_write_leaves_empty (paths : list str) (path : str)
    (content : option str) :
  (content = None -> In path paths) ->
  leaves_empty paths (open_write path content).
Proof.
  intros H. destruct content; [now left|]. right.
  exists [], path. split; [reflexivity|now apply H].
Qed.

(** One goal per statement of a sequence, and membership in a list of
    literals. *)
Ltac steps_each :=
  repeat match goal with
         | |- Forall _ (_ :: _) => apply Forall_cons
         | |- Forall _ [] => apply Forall_nil
         end.

Ltac in_list := repeat (first [left; reflexivity | right]).

Lemma cat_file_rendered (info : category) :
  In info CATEGORIES -> In (cat_file info) RENDERED_FILES.
Proof.
  intros H. unfold RENDERED_FILES. apply in_or_app. right. now apply in_map.
Qed.

Lemma cat_file_output (info : category) :
  In info CATEGORIES -> In (cat_file info) OUTPUT_FILES.
Proof.
  intros H. unfold OUTPUT_FILES. apply in_or_app. right.
  apply in_or_app. left. now apply in_map.
Qed.

(** The file that [update_index_html] writes, if any, is the homepage. *)
Lemma update_index_html_paths (expand_template : str -> option (str -> str))
    (fs : files) (articles : list article) (index : list (str * str)) :
  update_index_html expand_template fs articles = Some index ->
  index = [] \/ exists html2, index = [(INDEX_FILE, html2)].
Proof.
  unfold update_index_html. destruct (fs INDEX_FILE) as [c|].
  - destruct (read_text c) as [html|]; [|discriminate]. cbn [bind].
    destruct (negb (contains AUTO_START html) || negb (contains AUTO_END html)).
    + intros H. apply Some_eq in H. now left.
    + destruct (make_homepage_cards articles 6) as [cards|]; [|discriminate].
      cbn [bind]. destruct (pattern_sub _ _ _) as [html2|]; [|discriminate].
      cbn [bind]. intros H. apply Some_eq in H. right. now exists html2.
  - intros H. apply Some_eq in H. now left.
Qed.

Lemma store_not_output : ~ In ARTICLES_FILE (INDEX_FILE :: OUTPUT_FILES).
Proof.
  intros H. vm_compute in H.
  repeat (destruct H as [H|H]; [discriminate H|]). exact H.
Qed.

Lemma index_not_output : ~ In INDEX_FILE (ARTICLES_FILE :: OUTPUT_FILES).
Proof.
  intros H. vm_compute in H.
  repeat (destruct H as [H|H]; [discriminate H|]). exact H.
Qed.

(** With the store that a run of [publish_drafts] has left, the same
    drafts are all skipped, whatever the template now is. *)
Lemma publish_drafts_all_stored (fs fs' : files) (drafts : list draft)
    (articles : list article) :
  fst (publish_drafts fs drafts articles) = true ->
  load_template fs' <> None ->
  publish_drafts fs' drafts (st_articles (snd (publish_drafts fs drafts articles)))
  = (true, pub_start (st_articles (snd (publish_drafts fs drafts articles)))).
Proof.
  intros Hok Ht'. unfold publish_drafts in *.
  destruct (load_template fs) as [template|] eqn:Ht; [|discriminate].
  set (run := publish_loop (can_open fs) template (existing_slugs articles) drafts _) in *.
  destruct (load_template fs') as [template'|]; [|congruence].
  apply publish_loop_all_skipped.
  pose proof (publish_loop_slugs_stored _ _ _ _ _ Hok) as Hall.
  fold run in Hall.
  destruct (publish_loop_effects (can_open fs) template (existing_slugs articles) drafts
              {| st_articles := articles; st_writes := [];
                 st_published := 0 |}) as (records & _ & Ha & _).
  fold run in Ha. cbn [st_articles] in Ha.
  eapply Forall_impl; [|exact Hall].
  intros d (slug & Hs & Hin). exists slug. split; [exact Hs|].
  unfold existing_slugs in *. destruct Hin as [Hin|Hin]; [|exact Hin].
  rewrite Ha, map_app. apply in_or_app. now left.
Qed.

(** An update that has returned returns again on any homepage that is
    text, and on the same homepage when it has written nothing. *)
Lemma update_index_html_again (expand_template : str -> option (str -> str))
    (fsA fsB : files) (articles : list article) (index : list (str * str)) :
  update_index_html expand_template fsA articles = Some index ->
  (index = [] -> fsB INDEX_FILE = fsA INDEX_FILE) ->
  (index <> [] -> fsB INDEX_FILE <> Some undecodable) ->
  update_index_html expand_template fsB articles <> None.
Proof.
  unfold update_index_html. destruct (fsA INDEX_FILE) as [cA|] eqn:EA.
  - destruct (read_text cA) as [html|] eqn:ER; [|discriminate]. cbn [bind].
    destruct (negb (contains AUTO_START html) || negb (contains AUTO_END html))
      eqn:C.
    + intros H Hsame _. apply Some_eq in H. rewrite (Hsame (eq_sym H)), ER.
      cbn [bind]. rewrite C. discriminate.
    + destruct (make_homepage_cards articles 6) as [cards|]; [|discriminate].
      cbn [bind]. unfold pattern_sub.
      destruct (expand_template _) as [f|] eqn:Ex; [|discriminate].
      cbn [bind]. intros H _ Htext. apply Some_eq in H.
      assert (Hne : index <> []) by (rewrite <- H; discriminate).
      specialize (Htext Hne).
      destruct (fsB INDEX_FILE) as [[html'|]|]; [|congruence|discriminate].
      cbn [read_text bind].
      destruct (negb (contains AUTO_START (universal_newlines html'))
                || negb (contains AUTO_END (universal_newlines html')));
        [discriminate|].
      cbn [bind]. discriminate.
  - intros H Hsame _. apply Some_eq in H. rewrite (Hsame (eq_sym H)).
    discriminate.
Qed.

(** A batch of complete drafts whose slugs are not in the store and name
    files that open is published whole, duplicates included: the run
    returns, with one record and one page per draft, in the order of the
    batch. *)
Lemma publish_loop_all_new (opens : str -> bool) (template : str)
    (existing : list (option str))
    (drafts : list draft) (st : pub_state) :
  Forall draft_complete drafts ->
  Forall (fun d => forall slug, d_slug d = Some slug ->
                                ~ In (Some slug) existing) drafts ->
  Forall (fun d => forall slug, d_slug d = Some slug -> opens slug = true)
    drafts ->
  exists records pages,
    traverse article_of_draft drafts = Some records
    /\ Forall2 (fun d w => d_slug d = Some (fst w)
                           /\ build_article_html template d = Some (snd w))
         drafts pages
    /\ publish_loop opens template existing drafts st
       = (true, {| st_articles := st_articles st ++ records;
                   st_writes := st_writes st ++ pages;
                   st_published := st_published st + List.length drafts |}).
Proof.
  intros Hc. revert st.
  induction Hc as [|d drafts Hd _ IH]; intros st Hnew Hopens.
  - exists [], []. split; [reflexivity|]. split; [constructor|].
    cbn [publish_loop List.length]. rewrite !app_nil_r, Nat.add_0_r.
    now destruct st.
  - inversion Hnew as [|d' l' Hslug Hrest]; subst.
    inversion Hopens as [|d' l' Hopen Hopens']; subst.
    assert (Hreps : replacements d <> None) by now apply replacements_total.
    destruct Hd as (Ht & Hde & Hs & Hda & Hth & Hco).
    destruct (d_slug d) as [slug|] eqn:Es; [|congruence].
    assert (Hstep : exists html record,
               build_article_html template d = Some html
               /\ article_of_draft d = Some record
               /\ publish_step opens template existing d st
                  = Some {| st_articles := st_articles st ++ [record];
                            st_writes := st_writes st ++ [(slug, html)];
                            st_published := S (st_published st) |}).
    { unfold publish_step, build_article_html, article_of_draft.
      rewrite Es. cbn [bind].
      rewrite (proj2 (slug_in_false slug existing) (Hslug slug eq_refl)).
      destruct (replacements d) as [reps|]; [|congruence].
      destruct (d_title d), (d_desc d), (d_date d), (d_thumb d);
        try congruence.
      cbn [bind]. rewrite (Hopen slug eq_refl). cbn [bind].
      eexists _, _. repeat split. }
    destruct Hstep as (html & record & Hhtml & Hrecord & Hstep).
    destruct (IH {| st_articles := st_articles st ++ [record];
                    st_writes := st_writes st ++ [(slug, html)];
                    st_published := S (st_published st) |} Hrest Hopens')
      as (records & pages & Hrecords & Hpages & Hloop).
    exists (record :: records), ((slug, html) :: pages).
    split; [cbn [traverse]; rewrite Hrecord, Hrecords; reflexivity|].
    split; [constructor; [now split|exact Hpages]|].
    cbn [publish_loop]. rewrite Hstep, Hloop.
    cbn [st_articles st_writes st_published List.length].
    rewrite <- !app_assoc. cbn [app]. do 2 f_equal. lia.
Qed.

Lemma make_sitemap_count (articles : list article) (doc : str) :
  make_sitemap articles = Some doc ->
  occurrences URL_OPEN doc = 7 + List.length articles.
Proof.
  unfold make_sitemap, sitemap_urls.
  destruct (traverse sitemap_article (sorted_by_date articles))
    as [entries|] eqn:Hentries; [|discriminate].
  cbn [bind]. intros H. apply Some_eq in H. subst doc.
  apply traverse_Forall2 in Hentries.
  assert (Hlen : List.length entries = List.length articles).
  { rewrite <- (Forall2_length Hentries).
    apply Permutation_length, sorted_desc_perm. }
  assert (Hcount : counts URL_OPEN
                     (1 * List.length (sitemap_fixed
                          ++ map sitemap_category CATEGORIES ++ entries))
                     (join nl (sitemap_fixed
                          ++ map sitemap_category CATEGORIES ++ entries))).
  { apply counts_join.
    - split; vm_compute; reflexivity.
    - rewrite app_assoc. apply Forall_app. split.
      + apply sitemap_static_counts.
      + apply Forall_forall. intros entry Hin.
        destruct (@Forall2_In_r _ _ _ _ _ _ Hentries Hin) as (a & _ & Ha).
        now apply (sitemap_article_counts a). }
  eapply counts_occurrences.
  - counts_tree.
  - rewrite !length_app, length_map, Hlen.
    change (List.length sitemap_fixed) with 3.
    change (List.length CATEGORIES) with 4. lia.
Qed.

(** When the homepage, if there is one, is text and the replacement
    template made of the cards compiles, the update of the homepage returns
    on a store whose articles have a title and a slug. *)
Lemma update_index_html_total (expand_template : str -> option (str -> str))
    (fs : files) (articles : list article) :
  fs INDEX_FILE <> Some undecodable ->
  (forall cards,
      make_homepage_cards articles 6 = Some cards ->
      expand_template (AUTO_START ++ nl ++ cards ++ nl ++ AUTO_END) <> None) ->
  Forall has_title_slug articles ->
  update_index_html expand_template fs articles <> None.
Proof.
  intros Htext Hexp Hall. unfold update_index_html.
  destruct (fs INDEX_FILE) as [[raw|]|]; [|congruence|discriminate].
  cbn [read_text bind].
  destruct (negb (contains AUTO_START (universal_newlines raw))
            || negb (contains AUTO_END (universal_newlines raw)));
    [discriminate|].
  revert Hexp. unfold make_homepage_cards. cbv zeta. intros Hexp.
  assert (H : traverse homepage_card (firstn 6 (sorted_by_date articles))
              <> None).
  { apply traverse_some_iff. apply Forall_forall. intros a Ha.
    apply homepage_card_some. apply In_firstn in Ha.
    apply (Permutation_in _ (sorted_desc_perm date_key articles)) in Ha.
    rewrite Forall_forall in Hall. now apply Hall. }
  destruct (traverse homepage_card _) as [blocks|]; [|congruence].
  cbn [bind] in *. unfold pattern_sub.
  specialize (Hexp (join nl blocks) eq_refl).
  destruct (expand_template _); [|congruence]. cbn [bind]. discriminate.
Qed.

Section MainProps.
Variable json_load_articles : str -> option (list article).
Variable json_dump_articles : list article -> str.
Variable json_load_draft : str -> option draft.
Variable json_dumps_index : list search_entry -> str.
Variable json_dumps_site : site_doc -> str.
Variable datetime : Type.
Variable strptime : str -> option datetime.
Variable strftime : datetime -> option str.
Variable now : str.
Variable expand_template : str -> option (str -> str).

Local Abbreviation run_main :=
  (main json_load_articles json_dump_articles json_load_draft
     json_dumps_index json_dumps_site strptime strftime now expand_template).

Local Abbreviation run_outputs :=
  (main_outputs json_dumps_index json_dumps_site strptime strftime now).

Lemma make_rss_some (articles : list article) :
  make_rss strptime strftime now articles <> None
  <-> Forall has_title_url articles.
Proof.
  unfold make_rss.
  rewrite <- (@traverse_sorted_some _ (rss_item strptime strftime now)
                has_title_url articles).
  - now rewrite bind_some.
  - intros a. unfold rss_item, has_title_url.
    destruct (a_title a), (a_url a); cbn [bind option_map]; split;
      try congruence; try tauto; intros _; split; congruence.
Qed.

Lemma main_outputs_ok (articles : list article) :
  fst (main_outputs json_dumps_index json_dumps_site strptime strftime now
         articles) = true
  <-> Forall has_title_slug_url articles.
Proof.
  unfold main_outputs. rewrite run_steps_ok. split.
  - intros H.
    inversion H as [|s1 l1 H1 T1]; subst. inversion T1 as [|s2 l2 H2 T2]; subst.
    inversion T2 as [|s3 l3 _ T3]; subst. inversion T3 as [|s4 l4 H4 _]; subst.
    apply open_write_ok, make_sitemap_some in H1.
    apply open_write_ok, make_articles_page_some in H4.
    rewrite Forall_forall in *. intros a Ha. split; auto.
  - intros H.
    assert (Hts : Forall has_title_slug articles).
    { eapply Forall_impl; [|exact H]. now intros a [? ?]. }
    assert (Hu : Forall has_url articles).
    { eapply Forall_impl; [|exact H]. now intros a [? ?]. }
    assert (Htu : Forall has_title_url articles).
    { eapply Forall_impl; [|exact H]. intros a [[? ?] ?]. now split. }
    destruct (write_category_pages_total Hts) as (pages & _ & Hrun & _).
    repeat constructor.
    + now apply open_write_ok, make_sitemap_some.
    + now apply open_write_ok, make_rss_some.
    + now apply open_write_ok, make_articles_page_some.
    + now rewrite Hrun.
Qed.
Lemma main_outputs_paths (articles : list article) :
  Forall (fun w => In (fst w) OUTPUT_FILES) (snd (run_outputs articles)).
Proof.
  unfold main_outputs. apply run_steps_paths.
  steps_each; try (apply open_write_paths; in_list).
  unfold write_category_pages_run. apply run_steps_paths.
  apply Forall_forall. intros step Hstep.
  apply in_map_iff in Hstep as (info & <- & Hinfo).
  apply open_write_paths. now apply cat_file_output.
Qed.

Lemma main_outputs_leaves_empty (articles : list article) :
  leaves_empty RENDERED_FILES (run_outputs articles).
Proof.
  unfold main_outputs. apply run_steps_leaves_empty.
  steps_each;
    try (apply open_write_leaves_empty; first [discriminate|intros _; in_list]).
  unfold write_category_pages_run. apply run_steps_leaves_empty.
  apply Forall_forall. intros step Hstep.
  apply in_map_iff in Hstep as (info & <- & Hinfo).
  apply open_write_leaves_empty. intros _. now apply cat_file_rendered.
Qed.

(** The twelve files of a store whose articles have a title, a slug and a
    url. *)
Lemma main_outputs_files (articles : list article) :
  Forall has_title_slug_url articles ->
  exists sitemap rss page pages,
    make_sitemap articles = Some sitemap
    /\ make_rss strptime strftime now articles = Some rss
    /\ make_articles_page articles = Some page
    /\ write_category_pages articles = Some pages
    /\ map fst pages = map cat_file CATEGORIES
    /\ snd (run_outputs articles)
       = [ (lit "sitemap.xml", sitemap); (lit "rss.xml", rss);
           (lit "robots.txt", make_robots);
           (lit "articles.html", page) ]
         ++ pages
         ++ [ (lit "search-index.json",
               make_search_index json_dumps_index articles);
              (lit "search.html", make_search_page);
              (lit "404.html", make_404);
              (lit "site.json", make_site_json json_dumps_site articles) ].
Proof.
  intros Hall.
  assert (Hts : Forall has_title_slug articles).
  { eapply Forall_impl; [|exact Hall]. now intros a [? ?]. }
  assert (Hs : make_sitemap articles <> None).
  { apply make_sitemap_some. eapply Forall_impl; [|exact Hall].
    now intros a [? ?]. }
  assert (Hr : make_rss strptime strftime now articles <> None).
  { apply make_rss_some. eapply Forall_impl; [|exact Hall].
    intros a [[? ?] ?]. now split. }
  assert (Hp : make_articles_page articles <> None)
    by now apply make_articles_page_some.
  destruct (write_category_pages_total Hts) as (pages & Hpages & Hrun & Hnames).
  destruct (make_sitemap articles) as [sitemap|] eqn:Es; [|congruence].
  destruct (make_rss strptime strftime now articles) as [rss|] eqn:Er;
    [|congruence].
  destruct (make_articles_page articles) as [page|] eqn:Ep; [|congruence].
  exists sitemap, rss, page, pages.
  do 5 (split; [reflexivity || assumption|]).
  unfold main_outputs. rewrite Es, Er, Ep, Hrun.
  cbn [run_steps open_write fst snd app]. rewrite ?app_nil_r. reflexivity.
Qed.

(** [main] up to the end of [publish_drafts], when that call raises. *)
Lemma main_before_store (fs : files) (dir : option (list (str * option str)))
    (loaded : list article) (drafts : list draft) :
  load_articles_json json_load_articles fs = Some loaded ->
  read_drafts json_load_draft dir = Some drafts ->
  fst (publish_drafts fs drafts loaded) = false ->
  run_main fs dir = (false, st_writes (snd (publish_drafts fs drafts loaded))).
Proof.
  intros Hload Hread Hfail. unfold main. rewrite Hload, Hread.
  destruct (load_template fs) eqn:Ht.
  - cbv zeta. now rewrite Hfail.
  - unfold publish_drafts. now rewrite Ht.
Qed.

(** [main] after [publish_drafts] has returned. *)
Lemma main_after_publish (fs : files) (dir : option (list (str * option str)))
    (loaded : list article) (drafts : list draft) :
  load_articles_json json_load_articles fs = Some loaded ->
  read_drafts json_load_draft dir = Some drafts ->
  fst (publish_drafts fs drafts loaded) = true ->
  let st := snd (publish_drafts fs drafts loaded) in
  let articles := st_articles st in
  let saved := st_writes st ++ [(ARTICLES_FILE, json_dump_articles articles)] in
  run_main fs dir
  = match update_index_html expand_template (apply_writes saved fs) articles with
    | None => (false, saved)
    | Some index =>
        (fst (run_outputs articles), saved ++ index ++ snd (run_outputs articles))
    end.
Proof.
  intros Hload Hread Hok st articles saved.
  unfold main. rewrite Hload, Hread.
  destruct (load_template fs) eqn:Ht.
  - cbv zeta. rewrite Hok. reflexivity.
  - unfold publish_drafts in Hok. rewrite Ht in Hok. discriminate.
Qed.

(** Every file that a run writes is the page of a draft, the store, the
    homepage or one of the twelve files made from the articles. *)
Lemma main_write_paths (fs : files) (dir : option (list (str * option str))) :
  Forall (fun w =>
            (exists drafts, read_drafts json_load_draft dir = Some drafts
                            /\ In (Some (fst w)) (map d_slug drafts))
            \/ In (fst w) (ARTICLES_FILE :: INDEX_FILE :: OUTPUT_FILES))
    (snd (run_main fs dir)).
Proof.
  unfold main.
  destruct (load_articles_json json_load_articles fs) as [loaded|];
    [|constructor].
  destruct (load_template fs) as [template|]; [|constructor].
  destruct (read_drafts json_load_draft dir) as [drafts|] eqn:Hread;
    [|constructor].
  cbv zeta.
  assert (Hpages : Forall (fun w =>
            (exists drafts0, Some drafts = Some drafts0
                             /\ In (Some (fst w)) (map d_slug drafts0))
            \/ In (fst w) (ARTICLES_FILE :: INDEX_FILE :: OUTPUT_FILES))
            (st_writes (snd (publish_drafts fs drafts loaded)))).
  { eapply Forall_impl; [|apply publish_drafts_write_paths].
    intros w Hw. left. now exists drafts. }
  destruct (fst (publish_drafts fs drafts loaded)); [|exact Hpages].
  assert (Hsaved : Forall (fun w =>
            (exists drafts0, Some drafts = Some drafts0
                             /\ In (Some (fst w)) (map d_slug drafts0))
            \/ In (fst w) (ARTICLES_FILE :: INDEX_FILE :: OUTPUT_FILES))
            (st_writes (snd (publish_drafts fs drafts loaded))
             ++ save_articles_json json_dump_articles
                  (st_articles (snd (publish_drafts fs drafts loaded))))).
  { apply Forall_app. split; [exact Hpages|].
    constructor; [|constructor]. right. now left. }
  destruct (update_index_html expand_template _ _) as [index|] eqn:Hindex;
    [|exact Hsaved].
  cbn [snd]. apply Forall_app. split; [exact Hsaved|].
  apply Forall_app. split.
  - apply update_index_html_paths in Hindex as [->|(html2 & ->)];
      constructor; [|constructor]. right. right. now left.
  - eapply Forall_impl; [|apply main_outputs_paths].
    intros w Hw. right. right. now right.
Qed.

(** A run in which [publish_drafts] raises stops there: the files it has
    written are the pages of the drafts published before the failing one,
    as many as the count says.  The store is not saved and no other file
    is made: every path that is not the slug of a draft keeps its
    content. *)
Theorem main_stops_before_store (fs : files)
    (dir : option (list (str * option str)))
    (loaded : list article) (drafts : list draft) :
  load_articles_json json_load_articles fs = Some loaded ->
  read_drafts json_load_draft dir = Some drafts ->
  fst (publish_drafts fs drafts loaded) = false ->
  let st := snd (publish_drafts fs drafts loaded) in
  run_main fs dir = (false, st_writes st)
  /\ List.length (st_writes st) = st_published st
  /\ (forall p, ~ In (Some p) (map d_slug drafts) ->
                apply_writes (snd (run_main fs dir)) fs p = fs p).
Proof.
  intros Hload Hread Hfail st.
  pose proof (main_before_store fs dir Hload Hread Hfail) as Hmain.
  split; [exact Hmain|]. split.
  - subst st. unfold publish_drafts. destruct (load_template fs) as [template|].
    + destruct (publish_loop_effects (can_open fs) template (existing_slugs loaded) drafts
                  {| st_articles := loaded; st_writes := [];
                     st_published := 0 |})
        as (records & writes & _ & -> & -> & Hl & _).
      cbn [st_writes st_published app]. exact Hl.
    + reflexivity.
  - intros p Hp. rewrite Hmain. cbn [snd]. apply apply_writes_other.
    intros Hin. apply Hp. apply in_map_iff in Hin as (w & <- & Hw).
    pose proof (publish_drafts_write_paths fs drafts loaded) as Hall.
    rewrite Forall_forall in Hall. now apply Hall.
Qed.

(** A run that raises after the store is saved and the homepage updated
    has stopped in the sitemap, the feed, the articles page or a category
    page, and it leaves that file empty: the file is opened before its
    content is computed.  The files before it are written, the files after
    it are not. *)
Theorem main_failure_empties (fs : files)
    (dir : option (list (str * option str)))
    (loaded : list article) (drafts : list draft) (index : list (str * str)) :
  load_articles_json json_load_articles fs = Some loaded ->
  read_drafts json_load_draft dir = Some drafts ->
  fst (publish_drafts fs drafts loaded) = true ->
  let st := snd (publish_drafts fs drafts loaded) in
  let articles := st_articles st in
  let saved := st_writes st ++ [(ARTICLES_FILE, json_dump_articles articles)] in
  update_index_html expand_template (apply_writes saved fs) articles
  = Some index ->
  fst (run_main fs dir) = false ->
  ~ Forall has_title_slug_url articles
  /\ exists before p,
       snd (run_main fs dir) = saved ++ index ++ before ++ [(p, [])]
       /\ In p RENDERED_FILES
       /\ apply_writes (snd (run_main fs dir)) fs p = Some (encoded []).
Proof.
  intros Hload Hread Hok st articles saved Hindex.
  rewrite (main_after_publish fs dir Hload Hread Hok).
  fold st. fold articles. fold saved. rewrite Hindex. cbn [fst snd].
  intros Hfail. split.
  - intros Hall. apply main_outputs_ok in Hall. congruence.
  - destruct (main_outputs_leaves_empty articles)
      as [Htrue|(before & p & Hw & Hp)]; [congruence|].
    exists before, p. rewrite Hw. split; [reflexivity|]. split; [exact Hp|].
    rewrite !app_assoc. apply apply_writes_last.
Qed.

(** What a run never touches: a path that is neither the store, the
    homepage nor one of the twelve files made from the articles, and that
    is not the slug of a draft, keeps its content, whether the run ends
    or raises. *)
Theorem main_touches_only (fs : files)
    (dir : option (list (str * option str))) (p : str) :
  ~ In p (ARTICLES_FILE :: INDEX_FILE :: OUTPUT_FILES) ->
  (forall drafts, read_drafts json_load_draft dir = Some drafts ->
                  ~ In (Some p) (map d_slug drafts)) ->
  apply_writes (snd (run_main fs dir)) fs p = fs p.
Proof.
  intros Hfixed Hdrafts. apply apply_writes_other. intros Hin.
  apply in_map_iff in Hin as (w & <- & Hw).
  pose proof (main_write_paths fs dir) as Hall.
  rewrite Forall_forall in Hall.
  destruct (Hall w Hw) as [(drafts & Hread & Hslug)|Hout].
  - exact (Hdrafts drafts Hread Hslug).
  - exact (Hfixed Hout).
Qed.

(** A run whose drafts are published and whose homepage is updated ends
    with its message exactly when every article of the store, the new ones
    included, has a title, a slug and a url.  It has then written, in this
    order, the pages of the new drafts, the store, the homepage if it has
    the markers, the sitemap, the feed, [robots.txt], the articles page,
    the category pages, the search index, the search page, the 404 page
    and [site.json]. *)
Theorem main_completes (fs : files) (dir : option (list (str * option str)))
    (loaded : list article) (drafts : list draft) (index : list (str * str)) :
  load_articles_json json_load_articles fs = Some loaded ->
  read_drafts json_load_draft dir = Some drafts ->
  fst (publish_drafts fs drafts loaded) = true ->
  let st := snd (publish_drafts fs drafts loaded) in
  let articles := st_articles st in
  let saved := st_writes st ++ [(ARTICLES_FILE, json_dump_articles articles)] in
  update_index_html expand_template (apply_writes saved fs) articles
  = Some index ->
  (fst (run_main fs dir) = true <-> Forall has_title_slug_url articles)
  /\ (Forall has_title_slug_url articles ->
      exists sitemap rss page pages,
        make_sitemap articles = Some sitemap
        /\ make_rss strptime strftime now articles = Some rss
        /\ make_articles_page articles = Some page
        /\ write_category_pages articles = Some pages
        /\ map fst pages = map cat_file CATEGORIES
        /\ snd (run_main fs dir)
           = saved ++ index
             ++ [ (lit "sitemap.xml", sitemap); (lit "rss.xml", rss);
                  (lit "robots.txt", make_robots);
                  (lit "articles.html", page) ]
             ++ pages
             ++ [ (lit "search-index.json",
                   make_search_index json_dumps_index articles);
                  (lit "search.html", make_search_page);
                  (lit "404.html", make_404);
                  (lit "site.json", make_site_json json_dumps_site articles) ]).
Proof.
  intros Hload Hread Hok st articles saved Hindex.
  rewrite (main_after_publish fs dir Hload Hread Hok).
  fold st. fold articles. fold saved. rewrite Hindex. cbn [fst snd].
  split; [apply main_outputs_ok|].
  intros Hall.
  destruct (main_outputs_files Hall)
    as (sitemap & rss & page & pages & Hs & Hr & Hp & Hc & Hn & Hw).
  exists sitemap, rss, page, pages. rewrite Hw. now repeat split.
Qed.
(** A second run, on the files that a run which ended has left and with
    the drafts directory as it was, publishes nothing and writes the store
    and the twelve files made from the articles again, each with the
    content that the first run gave it; it ends as well.  The store that
    the first run saved is assumed to load as the list that was saved, and
    the build time [now] to be the same. *)
Theorem main_rerun (fs : files) (dir : option (list (str * option str)))
    (loaded : list article) (drafts : list draft) :
  load_articles_json json_load_articles fs = Some loaded ->
  read_drafts json_load_draft dir = Some drafts ->
  let articles := st_articles (snd (publish_drafts fs drafts loaded)) in
  json_load_articles (json_dump_articles articles) = Some articles ->
  fst (run_main fs dir) = true ->
  exists pages index index2 outputs,
    snd (run_main fs dir)
    = pages ++ [(ARTICLES_FILE, json_dump_articles articles)] ++ index ++ outputs
    /\ List.length pages = st_published (snd (publish_drafts fs drafts loaded))
    /\ run_main (apply_writes (snd (run_main fs dir)) fs) dir
       = (true, [(ARTICLES_FILE, json_dump_articles articles)] ++ index2 ++ outputs)
    /\ Forall (fun w => In (fst w) OUTPUT_FILES) outputs
    /\ Forall (fun w => fst w = INDEX_FILE) (index ++ index2).
Proof.
  intros Hload Hread articles Hround Hend.
  destruct (fst (publish_drafts fs drafts loaded)) eqn:Hok.
  2:{ rewrite (main_before_store fs dir Hload Hread Hok) in Hend.
      discriminate. }
  pose proof (main_after_publish fs dir Hload Hread Hok) as Hmain.
  cbv zeta in Hmain. fold articles in Hmain.
  set (pages := st_writes (snd (publish_drafts fs drafts loaded))) in *.
  set (store := json_dump_articles articles) in *.
  destruct (update_index_html expand_template
              (apply_writes (pages ++ [(ARTICLES_FILE, store)]) fs) articles)
    as [index|] eqn:Hindex.
  2:{ rewrite Hmain in Hend. discriminate. }
  set (outputs := snd (run_outputs articles)) in *.
  rewrite Hmain in Hend. cbn [fst] in Hend. rewrite Hend in Hmain.
  rewrite Hmain. cbn [snd].
  set (writes := (pages ++ [(ARTICLES_FILE, store)]) ++ index ++ outputs).
  assert (Hindex_paths : Forall (fun w => fst w = INDEX_FILE) index).
  { apply update_index_html_paths in Hindex as [->|(html2 & ->)];
      now repeat constructor. }
  assert (Hout_paths : Forall (fun w => In (fst w) OUTPUT_FILES) outputs)
    by apply main_outputs_paths.
  assert (Hstore : apply_writes writes fs ARTICLES_FILE = Some (encoded store)).
  { unfold writes. rewrite apply_writes_app, apply_writes_other.
    - apply apply_writes_last.
    - intros Hin. apply in_map_iff in Hin as (w & Hw & Hin).
      apply in_app_or in Hin as [Hin|Hin].
      + rewrite Forall_forall in Hindex_paths.
        rewrite (Hindex_paths w Hin) in Hw. discriminate Hw.
      + rewrite Forall_forall in Hout_paths. apply store_not_output.
        right. rewrite <- Hw. now apply Hout_paths. }
  assert (Hload2 : load_articles_json json_load_articles (apply_writes writes fs)
                   = Some articles).
  { unfold load_articles_json. rewrite Hstore. exact Hround. }
  assert (Htemplate : load_template (apply_writes writes fs) <> None).
  { apply load_template_after_writes. unfold publish_drafts in Hok.
    destruct (load_template fs); [discriminate|discriminate Hok]. }
  pose proof (@publish_drafts_all_stored fs (apply_writes writes fs) drafts
                loaded Hok Htemplate) as Hpub2.
  fold articles in Hpub2.
  assert (Hok2 : fst (publish_drafts (apply_writes writes fs) drafts articles)
                 = true) by now rewrite Hpub2.
  pose proof (main_after_publish (apply_writes writes fs) dir Hload2 Hread Hok2)
    as Hmain2.
  cbv zeta in Hmain2. rewrite Hpub2 in Hmain2.
  cbn [snd pub_start st_articles st_writes app] in Hmain2.
  fold store in Hmain2. fold outputs in Hmain2. rewrite Hend in Hmain2.
  assert (Hagain : update_index_html expand_template
                     (apply_writes [(ARTICLES_FILE, store)]
                        (apply_writes writes fs)) articles <> None).
  { apply (@update_index_html_again expand_template
             (apply_writes (pages ++ [(ARTICLES_FILE, store)]) fs) _ articles
             index Hindex).
    - intros ->. cbn [apply_writes fold_left fst snd].
      rewrite write_file_other.
      + fold (apply_writes writes fs). unfold writes. cbn [app].
        rewrite apply_writes_app. apply apply_writes_other.
        intros Hin. apply in_map_iff in Hin as (w & Hw & Hin).
        rewrite Forall_forall in Hout_paths. apply index_not_output.
        right. rewrite <- Hw. now apply Hout_paths.
      + intros H. discriminate H.
    - intros Hne. rewrite <- apply_writes_app.
      destruct (@apply_writes_written (writes ++ [(ARTICLES_FILE, store)]) fs
                  INDEX_FILE) as (text & ->); [|discriminate].
      unfold writes. rewrite !map_app. apply in_or_app. left.
      apply in_or_app. right. apply in_or_app. left.
      destruct index as [|w index']; [congruence|].
      inversion Hindex_paths as [|w' l' Hw _]; subst. left. exact Hw. }
  destruct (update_index_html expand_template
              (apply_writes [(ARTICLES_FILE, store)] (apply_writes writes fs))
              articles) as [index2|] eqn:Hindex2; [|congruence].
  exists pages, index, index2, outputs.
  split; [unfold writes; now rewrite <- !app_assoc|].
  split.
  { unfold pages, publish_drafts.
    destruct (load_template fs) as [template|]; [|reflexivity].
    destruct (publish_loop_effects (can_open fs) template (existing_slugs loaded) drafts
                {| st_articles := loaded; st_writes := [];
                   st_published := 0 |})
      as (records & ws & _ & -> & -> & Hl & _).
    cbn [st_writes st_published app]. exact Hl. }
  split; [exact Hmain2|]. split; [exact Hout_paths|].
  apply Forall_app. split; [exact Hindex_paths|].
  apply update_index_html_paths in Hindex2 as [->|(html2 & ->)];
    now repeat constructor.
Qed.
(** From the drafts to the files, in one run.  When the store loads and
    its articles have a title, a slug and a url, the template is read, the
    drafts are complete, none has a slug of the store and each slug names
    a file that opens, the homepage, if there is one, is UTF-8, and the
    replacement template made of the cards of this run compiles, the run
    ends.  It writes one page per draft, in the order of the drafts, and
    saves the store with one record per draft after the articles it held;
    the sitemap it writes has an entry for each of them, and the search
    index an entry for each of them. *)
Theorem main_publishes_all (fs : files)
    (dir : option (list (str * option str))) (template : str)
    (loaded : list article) (drafts : list draft) :
  load_articles_json json_load_articles fs = Some loaded ->
  load_template fs = Some template ->
  read_drafts json_load_draft dir = Some drafts ->
  fs INDEX_FILE <> Some undecodable ->
  Forall has_title_slug_url loaded ->
  Forall draft_complete drafts ->
  Forall (fun d => forall slug, d_slug d = Some slug ->
                                ~ In (Some slug) (existing_slugs loaded))
    drafts ->
  Forall (fun d => forall slug, d_slug d = Some slug ->
                                can_open fs slug = true) drafts ->
  (forall records cards,
      traverse article_of_draft drafts = Some records ->
      make_homepage_cards (loaded ++ records) 6 = Some cards ->
      expand_template (AUTO_START ++ nl ++ cards ++ nl ++ AUTO_END) <> None) ->
  exists records pages index outputs sitemap,
    traverse article_of_draft drafts = Some records
    /\ Forall2 (fun d w => d_slug d = Some (fst w)
                           /\ build_article_html template d = Some (snd w))
         drafts pages
    /\ run_main fs dir
       = (true, pages
                ++ [(ARTICLES_FILE, json_dump_articles (loaded ++ records))]
                ++ index ++ outputs)
    /\ In (lit "sitemap.xml", sitemap) outputs
    /\ occurrences URL_OPEN sitemap
       = 7 + List.length loaded + List.length drafts
    /\ In (lit "search-index.json",
           json_dumps_index (search_entries (loaded ++ records))) outputs
    /\ List.length (search_entries (loaded ++ records))
       = List.length loaded + List.length drafts.
Proof.
  intros Hload Ht Hread Hhome Hstore Hcomplete Hnew Hopens Hexp.
  destruct (@publish_loop_all_new (can_open fs) template (existing_slugs loaded) drafts
              {| st_articles := loaded; st_writes := []; st_published := 0 |}
              Hcomplete Hnew Hopens)
    as (records & pages & Hrecords & Hpages & Hloop).
  cbn [st_articles st_writes st_published app] in Hloop.
  assert (Hpub : publish_drafts fs drafts loaded
                 = (true, {| st_articles := loaded ++ records;
                             st_writes := pages;
                             st_published := List.length drafts |})).
  { unfold publish_drafts. now rewrite Ht. }
  assert (Hok : fst (publish_drafts fs drafts loaded) = true)
    by now rewrite Hpub.
  assert (Hlen : List.length records = List.length drafts).
  { apply traverse_Forall2 in Hrecords. now rewrite (Forall2_length Hrecords). }
  assert (Hall : Forall has_title_slug_url (loaded ++ records)).
  { apply Forall_app. split; [exact Hstore|].
    apply traverse_Forall2 in Hrecords. apply Forall_forall. intros r Hr.
    destruct (@Forall2_In_r _ _ _ _ _ _ Hrecords Hr) as (d & _ & Hd).
    apply article_of_draft_complete in Hd.
    destruct Hd as (H1 & H2 & H3 & _). now repeat split. }
  pose proof (main_after_publish fs dir Hload Hread Hok) as Hmain.
  cbv zeta in Hmain. rewrite Hpub in Hmain.
  cbn [snd st_articles st_writes] in Hmain.
  assert (Hts : Forall has_title_slug (loaded ++ records)).
  { eapply Forall_impl; [|exact Hall]. now intros a [? ?]. }
  pose proof (@update_index_html_total expand_template
                (apply_writes
                   (pages ++ [(ARTICLES_FILE,
                               json_dump_articles (loaded ++ records))]) fs)
                (loaded ++ records)
                (@apply_writes_text _ fs INDEX_FILE Hhome)
                (fun cards => Hexp records cards Hrecords) Hts) as Hupd.
  destruct (update_index_html expand_template _ (loaded ++ records))
    as [index|]; [|congruence].
  rewrite (proj2 (main_outputs_ok (loaded ++ records)) Hall) in Hmain.
  destruct (main_outputs_files Hall)
    as (sitemap & rss & page & cats & Hs & _ & _ & _ & _ & Hw).
  exists records, pages, index, (snd (run_outputs (loaded ++ records))), sitemap.
  split; [exact Hrecords|]. split; [exact Hpages|].
  split; [rewrite Hmain; now rewrite <- !app_assoc|].
  split; [rewrite Hw; now left|].
  split; [rewrite (make_sitemap_count _ Hs), length_app; lia|].
  split.
  - rewrite Hw. apply in_or_app. right. apply in_or_app. right. now left.
  - unfold search_entries, sorted_by_date. rewrite length_map.
    rewrite (Permutation_length (sorted_desc_perm date_key (loaded ++ records))).
    rewrite length_app. lia.
Qed.
End MainProps.

(** The scenario of the specification: the store does not exist, the
    directory holds one draft, and the run ends with its message. *)
Lemma main_completes_witness :
  fst (sample_main scenario_files scenario_dir) = true.
Proof.
  apply (@main_completes sample_load_articles (@sample_dump _)
           sample_load_draft (@sample_dump _) (@sample_dump _) _
           sample_strptime sample_strftime
           (lit "Wed, 01 Jan 2025 00:00:00 +0000") literal_template
           scenario_files scenario_dir [] [scenario_draft] []).
  - reflexivity.
  - reflexivity.
  - reflexivity.
  - reflexivity.
  - repeat constructor; discriminate.
Defined.

(** A batch whose second draft has no keys: the page of the first draft is
    written, the store is not. *)
Lemma main_stops_before_store_witness :
  map fst (snd (sample_main scenario_files broken_dir)) = [lit "a.html"]
  /\ apply_writes (snd (sample_main scenario_files broken_dir)) scenario_files
       ARTICLES_FILE = None.
Proof.
  destruct (@main_stops_before_store sample_load_articles (@sample_dump _)
              sample_load_draft (@sample_dump _) (@sample_dump _) _
              sample_strptime sample_strftime
              (lit "Wed, 01 Jan 2025 00:00:00 +0000") literal_template
              scenario_files broken_dir [] [scenario_draft; empty_draft]
              eq_refl eq_refl eq_refl) as (Hmain & _ & Hkeep).
  split.
  - unfold sample_main. rewrite Hmain. reflexivity.
  - unfold sample_main. rewrite (Hkeep ARTICLES_FILE); [reflexivity|].
    intros [H|[H|[]]]; discriminate H.
Defined.

(** A store whose article has no url: the run saves the store and stops in
    the sitemap, which it leaves empty. *)
Lemma main_failure_empties_witness :
  let fs := write_file ARTICLES_FILE (lit "[{}]") scenario_files in
  let run := main store_without_url (@sample_dump _) sample_load_draft
               (@sample_dump _) (@sample_dump _) sample_strptime
               sample_strftime (lit "Wed, 01 Jan 2025 00:00:00 +0000")
               literal_template fs None in
  exists before p,
    snd run = ([] ++ [(ARTICLES_FILE, [])]) ++ [] ++ before ++ [(p, [])]
    /\ In p RENDERED_FILES
    /\ apply_writes (snd run) fs p = Some (encoded []).
Proof.
  intros fs run.
  exact (proj2 (@main_failure_empties store_without_url (@sample_dump _)
                  sample_load_draft (@sample_dump _) (@sample_dump _) _
                  sample_strptime sample_strftime
                  (lit "Wed, 01 Jan 2025 00:00:00 +0000") literal_template
                  fs None [article_without_url] [] []
                  eq_refl eq_refl eq_refl eq_refl eq_refl)).
Defined.

(** The run of the scenario leaves the template as it is. *)
Lemma main_touches_only_witness :
  apply_writes (snd (sample_main scenario_files scenario_dir)) scenario_files
    TEMPLATE_FILE
  = scenario_files TEMPLATE_FILE.
Proof.
  apply (@main_touches_only sample_load_articles (@sample_dump _)
           sample_load_draft (@sample_dump _) (@sample_dump _) _
           sample_strptime sample_strftime
           (lit "Wed, 01 Jan 2025 00:00:00 +0000") literal_template
           scenario_files scenario_dir TEMPLATE_FILE).
  - intros H. vm_compute in H.
    repeat (destruct H as [H|H]; [discriminate H|]). exact H.
  - intros drafts H. vm_compute in H. apply Some_eq in H. subst drafts.
    intros [H|[]]. discriminate H.
Defined.

(** The scenario run twice: the second run writes no page and ends. *)
Lemma main_rerun_witness :
  let first := sample_main scenario_files scenario_dir in
  let second := sample_main (apply_writes (snd first) scenario_files)
                  scenario_dir in
  exists pages index index2 outputs,
    snd first = pages ++ [(ARTICLES_FILE, [])] ++ index ++ outputs
    /\ List.length pages = 1
    /\ second = (true, [(ARTICLES_FILE, [])] ++ index2 ++ outputs).
Proof.
  intros first second.
  destruct (@main_rerun sample_load_articles (@sample_dump _)
              sample_load_draft (@sample_dump _) (@sample_dump _) _
              sample_strptime sample_strftime
              (lit "Wed, 01 Jan 2025 00:00:00 +0000") literal_template
              scenario_files scenario_dir [] [scenario_draft]
              eq_refl eq_refl eq_refl eq_refl)
    as (pages & index & index2 & outputs & H1 & H2 & H3 & _).
  exists pages, index, index2, outputs.
  split; [exact H1|]. split; [exact H2|exact H3].
Defined.

(** The scenario of the specification: no store, one draft.  The run
    writes [a.html], a store of one record, a sitemap of eight entries and
    a search index of one entry. *)
Lemma main_publishes_all_witness :
  exists records pages index outputs sitemap,
    List.length records = 1
    /\ map fst pages = [lit "a.html"]
    /\ sample_main scenario_files scenario_dir
       = (true, pages ++ [(ARTICLES_FILE, [])] ++ index ++ outputs)
    /\ In (lit "sitemap.xml", sitemap) outputs
    /\ occurrences URL_OPEN sitemap = 8
    /\ List.length (search_entries records) = 1.
Proof.
  destruct (@main_publishes_all sample_load_articles (@sample_dump _)
              sample_load_draft (@sample_dump _) (@sample_dump _) _
              sample_strptime sample_strftime
              (lit "Wed, 01 Jan 2025 00:00:00 +0000") literal_template
              scenario_files scenario_dir
              (lit "<h1>{{TITLE}}</h1>{{CONTENT}}") [] [scenario_draft])
    as (records & pages & index & outputs & sitemap
        & Hr & Hp & Hm & Hs & Hc & _ & Hl).
  - reflexivity.
  - reflexivity.
  - reflexivity.
  - discriminate.
  - constructor.
  - repeat constructor; discriminate.
  - constructor; [|constructor]. intros slug _ [].
  - constructor; [|constructor]. intros slug H.
    apply Some_eq in H. now subst slug.
  - intros records cards _ _. discriminate.
  - exists records, pages, index, outputs, sitemap.
    split; [apply traverse_Forall2 in Hr; now rewrite <- (Forall2_length Hr)|].
    split.
    { inversion Hp as [|d w l ws [Hd _] Hrest]; subst.
      inversion Hrest; subst. cbn [map]. f_equal.
      symmetry. apply Some_eq. exact Hd. }
    split; [exact Hm|]. split; [exact Hs|]. split; [exact Hc|exact Hl].
Defined.

(* ================================================================= *)
(** ** The drafts directory *)

Lemma endswith_iff (s suffix : str) :
  endswith s suffix = true <-> exists stem, s = stem ++ suffix.
Proof.
  unfold endswith. rewrite startswith_iff. split.
  - intros (t & Ht). exists (rev t).
    rewrite <- (rev_involutive s), Ht, rev_app_distr, rev_involutive.
    reflexivity.
  - intros (stem & ->). exists (rev stem). apply rev_app_distr.
Qed.

(** [read_drafts] opens the entries of the directory whose name ends in
    [.json], and only them: it raises exactly when one of these cannot be
    read or is not JSON, and an entry with another name, whatever it
    holds, can be taken out of the listing without changing the result. *)
Theorem read_drafts_json_only (json_load_draft : str -> option draft)
    (entries : list (str * option str)) :
  (read_drafts json_load_draft (Some entries) <> None
   <-> Forall (fun e => forall stem, fst e = stem ++ lit ".json" ->
                 exists text d,
                   snd e = Some text /\ json_load_draft text = Some d)
         entries)
  /\ (forall before name text after,
        entries = before ++ (name, text) :: after ->
        (forall stem, name <> stem ++ lit ".json") ->
        read_drafts json_load_draft (Some entries)
        = read_drafts json_load_draft (Some (before ++ after))).
Proof.
  split.
  - unfold read_drafts. rewrite traverse_some_iff, !Forall_forall. split.
    + intros H [name content] He stem Hstem. cbn [fst snd] in *.
      assert (Hjson : endswith name (lit ".json") = true)
        by (apply endswith_iff; now exists stem).
      specialize (H (name, content) (proj2 (filter_In _ _ _) (conj He Hjson))).
      cbn [snd] in H. destruct content as [text|]; cbn [bind] in H;
        [|congruence].
      destruct (json_load_draft text) as [d|] eqn:Hd; [|congruence].
      now exists text, d.
    + intros H [name content] He. apply filter_In in He as [He Hjson].
      cbn [fst] in Hjson. apply endswith_iff in Hjson as (stem & Hstem).
      destruct (H (name, content) He stem Hstem) as (text & d & Hc & Hd).
      cbn [snd] in *. subst content. cbn [bind]. congruence.
  - intros before name text after -> Hname. unfold read_drafts.
    rewrite !filter_app. cbn [filter fst].
    destruct (endswith name (lit ".json")) eqn:Hjson; [|reflexivity].
    apply endswith_iff in Hjson as (stem & Hstem). now destruct (Hname stem).
Qed.

(** The directory of the scenario: the file [notes.txt], which cannot be
    read, does not count. *)
Lemma read_drafts_json_only_witness :
  read_drafts sample_load_draft scenario_dir
  = read_drafts sample_load_draft
      (Some [ (lit "a.json", Some (lit "the draft")) ]).
Proof.
  apply (proj2 (read_drafts_json_only sample_load_draft
                  [ (lit "a.json", Some (lit "the draft"));
                    (lit "notes.txt", None) ])
           [ (lit "a.json", Some (lit "the draft")) ] (lit "notes.txt") None []
           eq_refl).
  intros stem H.
  assert (Hjson : endswith (lit "notes.txt") (lit ".json") = true)
    by (apply endswith_iff; now exists stem).
  discriminate Hjson.
Defined.
